(** * voice-pixels: the background-removal core of [segmentationService.ts]

    A shallow embedding of the colour sampler ([getContrastingColor]), the
    morphology passes ([erode], [dilate]) and the matting pipeline
    ([removeBackgroundColor]: chroma key, two erosions, two dilations,
    flood-fill region filter), followed by the properties the specification
    states about them.

    JavaScript numbers are IEEE-754 doubles and are modelled by Rocq's
    primitive binary64 floats; the channels of an [ImageData] buffer (a
    [Uint8ClampedArray]) are modelled as a [list Z] read and written by index. *)

From Stdlib Require Import ZArith List Lia Bool Floats Uint63 String Permutation.
From stdpp Require Import base list list_numbers gmap sets.

#[local] Open Scope Z_scope.
#[local] Set Warnings "-inexact-float".

(* ===================================================================== *)
(** ** JavaScript numbers and typed-array cells *)
(* ===================================================================== *)

Module Js.

(** The number that a non-negative integer denotes. *)
Definition num (z : Z) : float := PrimFloat.of_uint63 (Uint63.of_Z z).

(** What arithmetic sees when an array cell is read: [undefined] (a read out
    of range) converts to NaN. *)
Definition numOpt (o : option Z) : float :=
  match o with Some z => num z | None => PrimFloat.nan end.

(** [Math.min] on two numbers: NaN if either is NaN, -0 below +0. *)
Definition mathMin (x y : float) : float :=
  if PrimFloat.is_nan x || PrimFloat.is_nan y then PrimFloat.nan
  else if (x <? y)%float then x
  else if (y <? x)%float then y
  else if PrimFloat.get_sign x then x else y.

(** [Math.max] restricted to array cells: a NaN (here [None]) operand makes
    the result NaN, otherwise the larger integer. *)
Definition mathMax (a b : option Z) : option Z :=
  match a, b with
  | Some x, Some y => Some (Z.max x y)
  | _, _ => None
  end.

(** [floor x] for [0 < x < 255], found by scanning down from [k]. *)
Fixpoint floorBelow (k : nat) (x : float) : Z :=
  match k with
  | O => 0
  | S k' => if (num (Z.of_nat k) <=? x)%float then Z.of_nat k else floorBelow k' x
  end.

(** ECMAScript's [ToUint8Clamp], the conversion applied by every store into
    a [Uint8ClampedArray]: NaN becomes 0, the value is clamped to [0, 255]
    and rounded to the nearest integer, ties to the even one. *)
Definition toUint8Clamp (x : float) : Z :=
  if PrimFloat.is_nan x then 0
  else if (x <=? 0)%float then 0
  else if (255 <=? x)%float then 255
  else
    let f := floorBelow 254 x in
    if (num f + 0.5 <? x)%float then f + 1
    else if (x <? num f + 0.5)%float then f
    else if Z.even f then f else f + 1.

(** Storing a value that was itself read from an array cell. *)
Definition storeCell (o : option Z) : Z := default 0 o.

End Js.

(** [data[i]]: [undefined] (here [None]) outside the buffer. *)
Definition rd (d : list Z) (i : Z) : option Z :=
  if decide (0 <= i) then d !! Z.to_nat i else None.

(** [data[i] = v] for a value already converted to a byte: a store outside
    the buffer of a typed array is ignored. *)
Definition wr (d : list Z) (i v : Z) : list Z :=
  if decide (0 <= i) then <[Z.to_nat i := v]> d else d.

(** [ImageData]: the interleaved RGBA buffer with its dimensions. *)
Record ImageData := mkImageData { width : Z; height : Z; data : list Z }.

(** [new ImageData(width, height)]: a zero-filled buffer.  (The browser
    throws for a zero dimension; [getImageData] has thrown before that.) *)
Definition newImageData (w h : Z) : ImageData :=
  mkImageData w h (replicate (Z.to_nat (w * h * 4)) 0).

(** The alpha cell of pixel [p]. *)
Definition alphaAt (d : list Z) (p : Z) : option Z := rd d (p * 4 + 3).

(* ===================================================================== *)
(** ** getContrastingColor *)
(* ===================================================================== *)

(** How a promise settles. *)
Inductive Settled (A : Type) : Type :=
| Resolved (v : A)
| Rejected (msg : string).
Arguments Resolved {A} v.
Arguments Rejected {A} msg.

(** What the browser does with [img.src = base64Image]: [onerror] fires, or
    [onload] fires and [canvas.getContext('2d')] gives no context, or it gives
    one and [getImageData] returns the payload the sampler reads. *)
Inductive Loaded (A : Type) : Type :=
| LoadError
| NoContext
| Drawn (payload : A).
Arguments LoadError {A}.
Arguments NoContext {A}.
Arguments Drawn {A} payload.

Definition sampleSize : Z := 100.

(** The loop [for (i = 0; i < data.length; i += 4)] visits [0, 4, 8, ...]. *)
Definition strideIndices (d : list Z) : list Z :=
  (fun k => 4 * k) <$> seqZ 0 ((Z.of_nat (length d) + 3) / 4).

Definition totalBrightness (d : list Z) : float :=
  fold_left
    (fun total i =>
       let r := Js.numOpt (rd d i) in
       let g := Js.numOpt (rd d (i + 1)) in
       let b := Js.numOpt (rd d (i + 2)) in
       (total + (r + g + b) / 3)%float)
    (strideIndices d) 0%float.

Definition avgBrightness (d : list Z) : float :=
  (totalBrightness d / Js.num (sampleSize * sampleSize))%float.

Definition getContrastingColor (ev : Loaded (list Z)) : Settled string :=
  match ev with
  | LoadError => Resolved "#00FF00"%string
  | NoContext => Resolved "#00FF00"%string
  | Drawn d =>
      if (128 <? avgBrightness d)%float then Resolved "#FF00FF"%string
      else Resolved "#00FF00"%string
  end.

(* ===================================================================== *)
(** ** erode and dilate *)
(* ===================================================================== *)

(** The values of [dy] and [dx]: [-radius, ..., radius]. *)
Definition offsets (radius : Z) : list Z := seqZ (- radius) (2 * radius + 1).

(** The two nested neighbour loops of [erode]; the [break]s only cut the
    search short once a transparent neighbour is found. *)
Definition hasTransparentNeighbor (img : ImageData) (radius x y : Z) : bool :=
  existsb
    (fun dy =>
       existsb
         (fun dx =>
            let ny := y + dy in
            let nx := x + dx in
            if (0 <=? ny) && (ny <? height img) && (0 <=? nx) && (nx <? width img)
            then
              let nidx := (ny * width img + nx) * 4 in
              bool_decide (rd (data img) (nidx + 3) = Some 0)
            else false)
         (offsets radius))
    (offsets radius).

Definition erodePixel (img : ImageData) (radius : Z) (out : list Z) (x y : Z) : list Z :=
  let idx := (y * width img + x) * 4 in
  let out := wr out idx (Js.storeCell (rd (data img) idx)) in
  let out := wr out (idx + 1) (Js.storeCell (rd (data img) (idx + 1))) in
  let out := wr out (idx + 2) (Js.storeCell (rd (data img) (idx + 2))) in
  if hasTransparentNeighbor img radius x y
  then wr out (idx + 3) 0
  else wr out (idx + 3) (Js.storeCell (rd (data img) (idx + 3))).

Definition erode (img : ImageData) (radius : Z) : ImageData :=
  let output := newImageData (width img) (height img) in
  mkImageData (width img) (height img)
    (fold_left
       (fun out y => fold_left (fun out x => erodePixel img radius out x y)
                       (seqZ 0 (width img)) out)
       (seqZ 0 (height img)) (data output)).

(** The neighbour loops of [dilate], folding [Math.max] into [maxAlpha]. *)
Definition maxAlpha (img : ImageData) (radius x y : Z) : option Z :=
  let idx := (y * width img + x) * 4 in
  fold_left
    (fun acc dy =>
       fold_left
         (fun acc dx =>
            let ny := y + dy in
            let nx := x + dx in
            if (0 <=? ny) && (ny <? height img) && (0 <=? nx) && (nx <? width img)
            then
              let nidx := (ny * width img + nx) * 4 in
              Js.mathMax acc (rd (data img) (nidx + 3))
            else acc)
         (offsets radius) acc)
    (offsets radius) (rd (data img) (idx + 3)).

Definition dilatePixel (img : ImageData) (radius : Z) (out : list Z) (x y : Z) : list Z :=
  let idx := (y * width img + x) * 4 in
  let out := wr out idx (Js.storeCell (rd (data img) idx)) in
  let out := wr out (idx + 1) (Js.storeCell (rd (data img) (idx + 1))) in
  let out := wr out (idx + 2) (Js.storeCell (rd (data img) (idx + 2))) in
  wr out (idx + 3) (Js.storeCell (maxAlpha img radius x y)).

Definition dilate (img : ImageData) (radius : Z) : ImageData :=
  let output := newImageData (width img) (height img) in
  mkImageData (width img) (height img)
    (fold_left
       (fun out y => fold_left (fun out x => dilatePixel img radius out x y)
                       (seqZ 0 (width img)) out)
       (seqZ 0 (height img)) (data output)).

(* ===================================================================== *)
(** ** removeBackgroundColor, pass 1: chroma key *)
(* ===================================================================== *)

(** The three channels of [bgColor]. *)
Record KeyColor := mkKey { key_r : Z; key_g : Z; key_b : Z }.

Definition hexDigit (c : Ascii.ascii) : option Z :=
  let n := Z.of_N (Ascii.N_of_ascii c) in
  if (48 <=? n) && (n <=? 57) then Some (n - 48)
  else if (65 <=? n) && (n <=? 70) then Some (n - 55)
  else if (97 <=? n) && (n <=? 102) then Some (n - 87)
  else None.

(** The code units that [parseInt] skips at the start of its argument, among
    those below 256: TAB, LF, VT, FF, CR, the space and the no-break space. *)
Definition isWhiteSpace (c : Ascii.ascii) : bool :=
  let n := Z.of_N (Ascii.N_of_ascii c) in
  ((9 <=? n) && (n <=? 13)) || (n =? 32) || (n =? 160).

Fixpoint trimStart (s : string) : string :=
  match s with
  | String c s' => if isWhiteSpace c then trimStart s' else s
  | EmptyString => s
  end.

(** The longest prefix of hexadecimal digits as a number; [acc] is the value
    of the digits read so far, [None] before the first one. *)
Fixpoint hexPrefix (acc : option Z) (s : string) : option Z :=
  match s with
  | String c s' =>
      match hexDigit c with
      | Some v => hexPrefix (Some (16 * default 0 acc + v)) s'
      | None => acc
      end
  | EmptyString => acc
  end.

(** [parseInt(s, 16)] on a string of code units below 256: leading white
    space is skipped, then a sign ([-] is 45, [+] is 43), then a prefix ['0x']
    or ['0X']; the longest run of hexadecimal digits that follows is the
    value.  [None] stands for NaN (no digit), and -0 is returned as 0. *)
Definition parseInt16 (s : string) : option Z :=
  let code c := Z.of_N (Ascii.N_of_ascii c) in
  let s := trimStart s in
  let '(sign, s) :=
    match s with
    | String c s' =>
        if code c =? 45 then (-1, s') else if code c =? 43 then (1, s') else (1, s)
    | EmptyString => (1, s)
    end in
  let s :=
    match s with
    | String c0 (String c1 s') =>
        if (code c0 =? 48) && ((code c1 =? 120) || (code c1 =? 88)) then s' else s
    | _ => s
    end in
  (fun v => sign * v) <$> hexPrefix None s.

(** [parseInt(s.slice(k, k + 2), 16)]. *)
Definition parseByte (s : string) (k : nat) : option Z :=
  parseInt16 (String.substring k 2 s).

(** [bgColor]: the three channels parsed from [backgroundColor].  [None]
    when a channel is NaN or negative: a [KeyColor] holds non-negative
    integers, which [distance] converts with [Js.num]. *)
Definition parseColor (backgroundColor : string) : option KeyColor :=
  match parseByte backgroundColor 1, parseByte backgroundColor 3,
        parseByte backgroundColor 5 with
  | Some r, Some g, Some b =>
      if (0 <=? r) && (0 <=? g) && (0 <=? b) then Some (mkKey r g b) else None
  | _, _, _ => None
  end.

(** [Math.sqrt(Math.pow(r - bg.r, 2) + Math.pow(g - bg.g, 2) + Math.pow(b - bg.b, 2))];
    squaring an integer difference of two bytes is exact. *)
Definition distance (bgColor : KeyColor) (r g b : float) : float :=
  let dr := (r - Js.num (key_r bgColor))%float in
  let dg := (g - Js.num (key_g bgColor))%float in
  let db := (b - Js.num (key_b bgColor))%float in
  PrimFloat.sqrt (dr * dr + dg * dg + db * db)%float.

(** The feather value [((distance - tolerance) / (tolerance * 0.3)) * 255]. *)
Definition feather (dist tolerance : float) : float :=
  ((dist - tolerance) / (tolerance * 0.3) * 255)%float.

(** One iteration of the pass-1 loop, at buffer index [i]. *)
Definition keyStep (bgColor : KeyColor) (tolerance : float) (d : list Z) (i : Z) : list Z :=
  let r := Js.numOpt (rd d i) in
  let g := Js.numOpt (rd d (i + 1)) in
  let b := Js.numOpt (rd d (i + 2)) in
  let dist := distance bgColor r g b in
  if (dist <? tolerance)%float then wr d (i + 3) 0
  else if (dist <? tolerance * 1.3)%float then
    let alpha := feather dist tolerance in
    wr d (i + 3) (Js.toUint8Clamp (Js.mathMin (Js.numOpt (rd d (i + 3))) alpha))
  else d.

Definition chromaKey (bgColor : KeyColor) (tolerance : float) (d : list Z) : list Z :=
  fold_left (keyStep bgColor tolerance) (strideIndices d) d.

(* ===================================================================== *)
(** ** removeBackgroundColor, pass 4: flood-fill region filter *)
(* ===================================================================== *)

(** The constant of the source. *)
Definition minRegionSize : Z := 50.

(** The local state of one [floodFill] call together with the shared
    [visited] set; the head of [stack] is the top. *)
Record Fill := mkFill {
  stack : list Z;
  visited : gset Z;
  region : list Z;
  size : Z
}.

(** The 4-connected neighbours of [idx], in the order they are pushed. *)
Definition neighbors (w h idx : Z) : list Z :=
  let x := Z.rem idx w in
  let y := idx / w in
  (if 0 <? x then [idx - 1] else []) ++
  (if x <? w - 1 then [idx + 1] else []) ++
  (if 0 <? y then [idx - w] else []) ++
  (if y <? h - 1 then [idx + w] else []).

(** One iteration of [while (stack.length > 0)]. *)
Definition floodStep (w h : Z) (d : list Z) (st : Fill) : Fill :=
  match stack st with
  | [] => st
  | idx :: rest =>
      if decide (idx ∈ visited st) then mkFill rest (visited st) (region st) (size st)
      else
        let vis := {[idx]} ∪ visited st in
        if decide (alphaAt d idx = Some 0) then mkFill rest vis (region st) (size st)
        else mkFill (rev (neighbors w h idx) ++ rest) vis (region st ++ [idx]) (size st + 1)
  end.

(** The loop, run for at most [fuel] iterations; [None] if they do not
    empty the stack. *)
Fixpoint floodLoop (fuel : nat) (w h : Z) (d : list Z) (st : Fill) : option Fill :=
  match stack st with
  | [] => Some st
  | _ :: _ =>
      match fuel with
      | O => None
      | S n => floodLoop n w h d (floodStep w h d st)
      end
  end.

(** Enough iterations for any fill of a [w] by [h] image: every pixel is
    expanded at most once and pushes at most four indices. *)
Definition fillFuel (w h : Z) : nat := S (4 * Z.to_nat (w * h)).

(** [floodFill(startIdx)] with the threshold [minSize]: returns the region
    size, and the updated [visited] set and buffer. *)
Definition floodFill (w h minSize : Z) (startIdx : Z) (vis : gset Z) (d : list Z)
  : option (Z * gset Z * list Z) :=
  match floodLoop (fillFuel w h) w h d (mkFill [startIdx] vis [] 0) with
  | None => None
  | Some st =>
      let d' :=
        if size st <? minSize
        then fold_left (fun d pixelIdx => wr d (pixelIdx * 4 + 3) 0) (region st) d
        else d in
      Some (size st, visited st, d')
  end.

(** The test of the seed loop: [!visited.has(i) && data[i * 4 + 3] > 0]. *)
Definition isSeed (vis : gset Z) (d : list Z) (i : Z) : bool :=
  bool_decide (i ∉ vis) &&
  match alphaAt d i with Some a => 0 <? a | None => false end.

Definition scanStep (w h minSize : Z) (acc : option (gset Z * list Z)) (i : Z)
  : option (gset Z * list Z) :=
  match acc with
  | None => None
  | Some (vis, d) =>
      if isSeed vis d i then
        match floodFill w h minSize i vis d with
        | Some (_, vis', d') => Some (vis', d')
        | None => None
        end
      else Some (vis, d)
  end.

(** The seed loop over an explicit list of candidate seeds. *)
Definition regionFilterOrder (order : list Z) (w h minSize : Z) (d : list Z)
  : option (list Z) :=
  snd <$> fold_left (scanStep w h minSize) order (Some (∅, d)).

(** The seed loop as written: [for (i = 0; i < width * height; i++)]. *)
Definition regionFilter (w h minSize : Z) (d : list Z) : option (list Z) :=
  regionFilterOrder (seqZ 0 (w * h)) w h minSize d.

(* ===================================================================== *)
(** ** removeBackgroundColor *)
(* ===================================================================== *)

(** Pass 1. *)
Definition keyPass (bgColor : KeyColor) (tolerance : float) (img : ImageData) : ImageData :=
  mkImageData (width img) (height img) (chromaKey bgColor tolerance (data img)).

(** Passes 2 and 3. *)
Definition morphology (img : ImageData) : ImageData :=
  dilate (dilate (erode (erode img 1) 1) 1) 1.

(** Pass 4 with threshold [minSize]. *)
Definition regionPass (minSize : Z) (img : ImageData) : option ImageData :=
  mkImageData (width img) (height img)
    <$> regionFilter (width img) (height img) minSize (data img).

(** The four passes, with the region threshold left open. *)
Definition cutout (minSize : Z) (bgColor : KeyColor) (tolerance : float) (img : ImageData)
  : option ImageData :=
  regionPass minSize (morphology (keyPass bgColor tolerance img)).

Definition defaultTolerance : float := 50%float.

(** [removeBackgroundColor(base64Image, backgroundColor, tolerance)]: the
    promise rejects when the image fails to load or the canvas has no 2d
    context, and otherwise resolves with the buffer put back on the canvas.
    The region threshold is the local constant [minRegionSize]. *)
Definition removeBackgroundColor (ev : Loaded ImageData) (bgColor : KeyColor)
    (tolerance : float) : option (Settled ImageData) :=
  match ev with
  | LoadError => Some (Rejected "Failed to load image"%string)
  | NoContext => Some (Rejected "Failed to get canvas context"%string)
  | Drawn img => Resolved <$> cutout minRegionSize bgColor tolerance img
  end.


(* ===================================================================== *)
(** ** cleanBase64 and the data URLs of the image parts *)
(* ===================================================================== *)

(** [s.includes(c)] for a one-character needle. *)
Fixpoint includes (c : Ascii.ascii) (s : string) : bool :=
  match s with
  | EmptyString => false
  | String a s' => if Ascii.eqb a c then true else includes c s'
  end.

(** [s.split(c)] for a one-character separator: the pieces between the
    occurrences of [c], in order; the empty string splits to one empty piece. *)
Fixpoint splitOn (c : Ascii.ascii) (s : string) : list string :=
  match s with
  | EmptyString => [EmptyString]
  | String a s' =>
      if Ascii.eqb a c then EmptyString :: splitOn c s'
      else match splitOn c s' with
           | piece :: pieces => String a piece :: pieces
           | [] => [String a EmptyString]
           end
  end.

(** The separator [','] (code 44). *)
Definition comma : Ascii.ascii :=
  Ascii.Ascii false false true true false true false false.

(** [cleanBase64(data)]; [None] stands for the [undefined] that indexing the
    array of pieces past its end would give. *)
Definition cleanBase64 (data : string) : option string :=
  if includes comma data then splitOn comma data !! 1%nat else Some data.

(** The template [`data:${mimeType};base64,${data}`]. *)
Definition dataUrl (mimeType data : string) : string :=
  ("data:" ++ mimeType ++ ";base64," ++ data)%string.

(* ===================================================================== *)
(** ** segmentImage *)
(* ===================================================================== *)

(** A part of a request or of a response: [inlineData] with its optional
    [mimeType] and [data], and [text]. *)
Record InlineData := mkInline {
  inline_mimeType : option string;
  inline_data : option string
}.

Record Part := mkPart {
  part_inlineData : option InlineData;
  part_mediaResolution : option string;
  part_text : option string
}.

(** The call [new GoogleGenAI({apiKey, apiVersion}).models.generateContent(...)]. *)
Record Request := mkRequest {
  req_apiKey : string;
  req_apiVersion : string;
  req_model : string;
  req_parts : list Part;
  req_aspectRatio : string;
  req_imageSize : string
}.

(** What [segmentImage] asks of its surroundings: the local storage, the
    browser that decodes an image and draws it on a canvas (at the sampler's
    100 by 100 and at full size), the remote model, whose answer is read as
    [response.candidates?.[0]?.content?.parts], and the PNG encoder.  Each
    function gives the outcome of an awaited promise once it has settled: a
    run in which the model or the browser never answers, or in which the
    browser throws inside [onload], has no outcome here and is not described. *)
Record World := mkWorld {
  getItem : string -> option string;
  drawSample : string -> Loaded (list Z);
  generateContent : Request -> Settled (option (list Part));
  drawImage : string -> Loaded ImageData;
  toDataURL : ImageData -> string
}.

(** A string as a condition: [null], [undefined] and [''] are falsy. *)
Definition truthy (o : option string) : option string :=
  match o with
  | Some EmptyString => None
  | Some s => Some s
  | None => None
  end.

(** A template slot: [undefined] prints as ["undefined"]. *)
Definition show (o : option string) : string := default "undefined"%string o.

(** The loop over the parts of the response: the data URL of the first part
    that has [inlineData] with non-empty [data]. *)
Fixpoint findImage (parts : list Part) : option string :=
  match parts with
  | [] => None
  | part :: rest =>
      match part_inlineData part with
      | Some inline =>
          match truthy (inline_data inline) with
          | Some payload => Some (dataUrl (show (inline_mimeType inline)) payload)
          | None => findImage rest
          end
      | None => findImage rest
      end
  end.

Definition editPrompt (instruction backgroundColor : string) : string :=
  ("Keep only: " ++ instruction ++ ". Place the object(s) on a solid " ++ backgroundColor
   ++ " background. Remove everything else and ensure the background is completely uniform "
   ++ backgroundColor ++ " color with no gradients or variations.")%string.

Definition editRequest (apiKey editingModel : string) (rawBase64 : option string)
    (prompt : string) : Request :=
  mkRequest apiKey "v1alpha" editingModel
    [ mkPart (Some (mkInline (Some "image/png"%string) rawBase64))
             (Some "media_resolution_high"%string) None;
      mkPart None None (Some prompt) ]
    "1:1" "2K".

(** [segmentImage(base64Image, instruction)].  The outer [option] is [None]
    only where the embedding gives no answer: a flood fill out of fuel, or a
    key colour with a channel that is NaN or negative. *)
Definition segmentImage (world : World) (base64Image instruction : string)
  : option (Settled string) :=
  match truthy (getItem world "gemini_api_key") with
  | None => Some (Rejected "API Key missing. Please set your API key in settings.")
  | Some apiKey =>
      match getContrastingColor (drawSample world base64Image) with
      | Rejected msg => Some (Rejected msg)
      | Resolved backgroundColor =>
          let rawBase64 := cleanBase64 base64Image in
          let editingModel :=
            default "gemini-3-pro-image-preview"%string
              (truthy (getItem world "gemini_editing_model")) in
          let request :=
            editRequest apiKey editingModel rawBase64
              (editPrompt instruction backgroundColor) in
          match generateContent world request with
          | Rejected msg => Some (Rejected msg)
          | Resolved response =>
              match findImage (default [] response) with
              | None =>
                  Some (Rejected "Failed to generate image with contrasting background")
              | Some imageWithBackground =>
                  match parseColor backgroundColor with
                  | None => None
                  | Some bgColor =>
                      match removeBackgroundColor (drawImage world imageWithBackground)
                              bgColor 50 with
                      | None => None
                      | Some (Rejected msg) => Some (Rejected msg)
                      | Some (Resolved cutoutImage) =>
                          Some (Resolved (toDataURL world cutoutImage))
                      end
                  end
              end
          end
      end
  end.

(* ===================================================================== *)
(** ** Specification vocabulary *)
(* ===================================================================== *)

(** A channel value. *)
Definition byte (a : Z) : Prop := 0 <= a <= 255.

(** The four cells of pixel [p], when they are all inside the buffer. *)
Definition pixelAt (d : list Z) (p : Z) : option (Z * Z * Z * Z) :=
  match rd d (p * 4), rd d (p * 4 + 1), rd d (p * 4 + 2), rd d (p * 4 + 3) with
  | Some r, Some g, Some b, Some a => Some (r, g, b, a)
  | _, _, _, _ => None
  end.

(** The byte that pass 1 stores in the alpha cell of a pixel [(r, g, b, a)]. *)
Definition keyAlpha (bgColor : KeyColor) (tolerance : float) (r g b a : Z) : Z :=
  let dist := distance bgColor (Js.num r) (Js.num g) (Js.num b) in
  if (dist <? tolerance)%float then 0
  else if (dist <? tolerance * 1.3)%float
       then Z.min a (Js.toUint8Clamp (feather dist tolerance))
       else a.

(** [clamp(x, lo, hi)] on numbers. *)
Definition clampNum (x lo hi : float) : float :=
  if (x <? lo)%float then lo else if (hi <? x)%float then hi else x.

(** The alpha of a keyed pixel as the specification words it: 0 inside the
    tolerance, the minimum of the old alpha and the clamped feather value
    inside the feather band, the old alpha elsewhere; no rounding. *)
Definition specKeyAlpha (bgColor : KeyColor) (tolerance : float) (r g b a : Z) : float :=
  let dist := distance bgColor (Js.num r) (Js.num g) (Js.num b) in
  if (dist <? tolerance)%float then 0%float
  else if (dist <? tolerance * 1.3)%float
       then Js.mathMin (Js.num a) (clampNum (feather dist tolerance) 0 255)
       else Js.num a.

(** The two key colours of the sampler. *)
Definition green : KeyColor := mkKey 0 255 0.
Definition magenta : KeyColor := mkKey 255 0 255.

(** An [ImageData] as the browser builds it: positive dimensions, a buffer of
    [width * height * 4] cells, every cell a byte. *)
Record wfImage (img : ImageData) : Prop := mkWf {
  wf_width : 0 < width img;
  wf_height : 0 < height img;
  wf_length : Z.of_nat (length (data img)) = width img * height img * 4;
  wf_bytes : Forall byte (data img)
}.

(** The shape shared by [erodePixel] and [dilatePixel]: the four cells of
    pixel [(x, y)] are stored, cell [c] receiving [cell x y c]. *)
Definition writePixel (w : Z) (cell : Z -> Z -> Z -> Z) (out : list Z) (x y : Z) : list Z :=
  let idx := (y * w + x) * 4 in
  wr (wr (wr (wr out idx (cell x y 0)) (idx + 1) (cell x y 1))
        (idx + 2) (cell x y 2)) (idx + 3) (cell x y 3).

Definition writeGrid (w h : Z) (cell : Z -> Z -> Z -> Z) (out : list Z) : list Z :=
  fold_left
    (fun out y => fold_left (fun out x => writePixel w cell out x y) (seqZ 0 w) out)
    (seqZ 0 h) out.

(** What [erode] stores in cell [c] of pixel [(x, y)]. *)
Definition erodeCell (img : ImageData) (radius x y c : Z) : Z :=
  let idx := (y * width img + x) * 4 in
  if decide (c = 3) then
    if hasTransparentNeighbor img radius x y then 0
    else Js.storeCell (rd (data img) (idx + 3))
  else Js.storeCell (rd (data img) (idx + c)).

(** What [dilate] stores in cell [c] of pixel [(x, y)]. *)
Definition dilateCell (img : ImageData) (radius x y c : Z) : Z :=
  let idx := (y * width img + x) * 4 in
  if decide (c = 3) then Js.storeCell (maxAlpha img radius x y)
  else Js.storeCell (rd (data img) (idx + c)).

(** *** Regions of the region filter *)

(** [p] is the index of a pixel of a [w] by [h] image. *)
Definition inb (w h p : Z) : Prop := 0 <= p < w * h.

(** A pixel the region filter counts: alpha above 0. *)
Definition opaque (w h : Z) (d : list Z) (p : Z) : Prop :=
  inb w h p /\ exists a, alphaAt d p = Some a /\ 0 < a.

(** 4-adjacency on the grid: same row and neighbouring columns, or same
    column and neighbouring rows. *)
Definition adj4 (w h p q : Z) : Prop :=
  inb w h p /\ inb w h q /\
  ((p / w = q / w /\ (q mod w = p mod w - 1 \/ q mod w = p mod w + 1)) \/
   (p mod w = q mod w /\ (q / w = p / w - 1 \/ q / w = p / w + 1))).

(** Two adjacent opaque pixels. *)
Definition link (w h : Z) (d : list Z) (p q : Z) : Prop :=
  opaque w h d p /\ opaque w h d q /\ adj4 w h p q.

(** [q] can be reached from the opaque pixel [p] through adjacent opaque pixels. *)
Definition connected (w h : Z) (d : list Z) (p q : Z) : Prop :=
  opaque w h d p /\ rtc (link w h d) p q.

(** [R] lists, without repetition, the pixels of one maximal 4-connected
    region of opaque pixels. *)
Definition isRegion (w h : Z) (d : list Z) (R : list Z) : Prop :=
  R <> [] /\ NoDup R /\
  forall p, p ∈ R -> opaque w h d p /\ forall q, q ∈ R <-> connected w h d p q.

(** The test [floodFill] applies before it adds a pixel to the region. *)
Definition solid (d : list Z) (p : Z) : Prop := alphaAt d p <> Some 0.

(** [p] is reached from the seed [s] along pushes of solid pixels. *)
Definition reach (w h : Z) (d : list Z) (s p : Z) : Prop :=
  rtc (fun a b => b ∈ neighbors w h a /\ solid d b) s p.

(** The pixel indices of the image, as a set. *)
Definition pixels (w h : Z) : gset Z := list_to_set (seqZ 0 (w * h)).

(** The measure that bounds the iterations left in a fill. *)
Definition potential (w h : Z) (st : Fill) : nat :=
  (length (stack st) + 4 * base.size (pixels w h ∖ visited st))%nat.

(** The invariant of the [while] loop of [floodFill] started at [s] with
    the visited set [V0], on the buffer [d]. *)
Record fillInv (w h : Z) (d : list Z) (V0 : gset Z) (s : Z) (st : Fill) : Prop := mkFillInv {
  fi_grows : V0 ⊆ visited st;
  fi_stack_inb : forall p, p ∈ stack st -> inb w h p;
  fi_visited_inb : forall p, p ∈ visited st -> inb w h p;
  fi_nodup : NoDup (region st);
  fi_region : forall p, p ∈ region st ->
                p ∈ visited st /\ (p ∉ V0) /\ solid d p /\ reach w h d s p;
  fi_new : forall p, p ∈ visited st -> p ∉ V0 -> p ∈ region st \/ alphaAt d p = Some 0;
  fi_stack_from : forall p, p ∈ stack st ->
                    p = s \/ exists r, r ∈ region st /\ p ∈ neighbors w h r;
  fi_frontier : forall r q, r ∈ region st -> q ∈ neighbors w h r ->
                  q ∈ visited st \/ q ∈ stack st;
  fi_seed : s ∈ stack st \/ s ∈ visited st;
  fi_size : size st = Z.of_nat (length (region st))
}.

(** The invariant of the seed loop: [d0] is the buffer the filter started
    with, [V] and [d] the current visited set and buffer. *)
Record scanInv (w h minSize : Z) (d0 : list Z) (V : gset Z) (d : list Z) : Prop := mkScanInv {
  si_length : length d = length d0;
  si_color : forall j, j mod 4 <> 3 -> rd d j = rd d0 j;
  si_untouched : forall p, (p ∉ V) \/ ~ opaque w h d0 p -> alphaAt d p = alphaAt d0 p;
  si_visited_inb : forall p, p ∈ V -> inb w h p;
  si_decided : forall p, p ∈ V -> opaque w h d0 p ->
    exists R, isRegion w h d0 R /\ p ∈ R /\ (forall q, q ∈ R -> q ∈ V) /\
              alphaAt d p = if Z.of_nat (length R) <? minSize then Some 0 else alphaAt d0 p
}.

(** The loop of [floodFill] that clears a region that is too small. *)
Definition clearRegion (R : list Z) (d : list Z) : list Z :=
  fold_left (fun d pixelIdx => wr d (pixelIdx * 4 + 3) 0) R d.

(** *** Example images *)

(** A [w] by [h] image whose pixel [p] is [fg] where [mark p] holds and [bgp]
    elsewhere. *)
Definition paint (w h : Z) (mark : Z -> bool) (fg bgp : list Z) : ImageData :=
  mkImageData w h (concat ((fun p => if mark p then fg else bgp) <$> seqZ 0 (w * h))).

(** The 10 by 10 scene of the specification: opaque green, with an opaque
    red 2 by 2 square at the centre (pixels 44, 45, 54 and 55). *)
Definition scene : ImageData :=
  paint 10 10 (fun p => bool_decide (p ∈ [44; 45; 54; 55])) [255; 0; 0; 255] [0; 255; 0; 255].

(** The scene with every alpha cleared. *)
Definition sceneCleared : ImageData :=
  paint 10 10 (fun p => bool_decide (p ∈ [44; 45; 54; 55])) [255; 0; 0; 0] [0; 255; 0; 0].

(** A 7 by 7 image that is opaque red throughout: one region of 49 pixels. *)
Definition blob : ImageData :=
  paint 7 7 (fun _ => true) [255; 0; 0; 255] [0; 255; 0; 255].

(** A 4 by 3 alpha mask with two regions of three pixels each. *)
Definition specks : ImageData :=
  paint 4 3 (fun p => bool_decide (p ∈ [0; 1; 5; 7; 10; 11])) [255; 0; 0; 9] [0; 255; 0; 0].

(** The alpha channel of an image, pixel by pixel. *)
Definition alphas (img : ImageData) : list (option Z) :=
  alphaAt (data img) <$> seqZ 0 (width img * height img).

(** A decidable form of [wfImage]. *)
Definition wfImageb (img : ImageData) : bool :=
  (0 <? width img) && (0 <? height img) &&
  (Z.of_nat (length (data img)) =? width img * height img * 4) &&
  forallb (fun v => (0 <=? v) && (v <=? 255)) (data img).


(* ===================================================================== *)
(** ** Vocabulary for the morphology properties *)
(* ===================================================================== *)

(** The alpha cell of the pixel in column [x] of row [y]. *)
Definition alphaXY (img : ImageData) (x y : Z) : option Z :=
  rd (data img) ((y * width img + x) * 4 + 3).

(** [(x, y)] is a pixel of the image. *)
Definition inside (img : ImageData) (x y : Z) : Prop :=
  0 <= x < width img /\ 0 <= y < height img.

(** [(nx, ny)] lies in the square window of the given radius around [(x, y)]. *)
Definition near (radius x y nx ny : Z) : Prop :=
  x - radius <= nx <= x + radius /\ y - radius <= ny <= y + radius.

(* ===================================================================== *)
(** ** Vocabulary for the colour sampler *)
(* ===================================================================== *)

(** The sum of [r + g + b] over the pixels of a buffer, in exact integer
    arithmetic: the mean brightness of [n] pixels is [channelSum d / (3 * n)]. *)
Fixpoint channelSum (d : list Z) : Z :=
  match d with
  | r :: g :: b :: _ :: rest => r + g + b + channelSum rest
  | _ => 0
  end.

(** The brightness loop read off the buffer four cells at a time. *)
Fixpoint sumPixels (d : list Z) (total : float) : float :=
  match d with
  | r :: g :: b :: _ :: rest =>
      sumPixels rest (total + (Js.num r + Js.num g + Js.num b) / 3)%float
  | _ => total
  end.

(** [N / W] lies in [[m, m + 1)], and the two bits say where: at [m], below
    the middle, at the middle, or above it. *)
Definition located (N W m : Z) (r s : bool) : Prop :=
  m * W <= N < (m + 1) * W /\
  match r, s with
  | false, false => N = m * W
  | false, true => m * W < N /\ 2 * N < (2 * m + 1) * W
  | true, false => 2 * N = (2 * m + 1) * W
  | true, true => (2 * m + 1) * W < 2 * N
  end.

(** The value of a non-negative number in units of [2 ^ -54]; [None] for a
    number that is negative, not finite, or not a multiple of the unit. *)
Definition sval (x : float) : option Z :=
  match Prim2SF x with
  | S754_zero false => Some 0
  | S754_finite false m e => if -54 <=? e then Some (Zpos m * 2 ^ (e + 54)) else None
  | _ => None
  end.

(** Two samples whose mean brightness is exactly 128: 10000 pixels
    [(128, 128, 128)], and 5000 pixels [(128, 128, 129)] followed by 5000
    pixels [(128, 128, 127)]. *)
Definition graySample : list Z :=
  concat (replicate (Z.to_nat 10000) [128; 128; 128; 255]).

Definition tieSample : list Z :=
  concat (replicate (Z.to_nat 5000) [128; 128; 129; 255])
  ++ concat (replicate (Z.to_nat 5000) [128; 128; 127; 255]).

(** A sample of mean brightness 130. *)
Definition brightSample : list Z :=
  concat (replicate (Z.to_nat 10000) [200; 100; 90; 255]).

(* ===================================================================== *)
(** ** An example run of segmentImage *)
(* ===================================================================== *)

(** The image the example model returns: 10 by 10, magenta in the five
    columns on the left and a dark colour in the five on the right. *)
Definition exampleImage : ImageData :=
  paint 10 10 (fun p => 5 <=? p mod 10) [20; 30; 40; 255] [255; 0; 255; 255].

(** A world for examples: an API key is stored and no editing model, the
    sampler draws a light gray sample, the model answers with a text part
    and a PNG part, and the browser draws that PNG as [exampleImage]. *)
Definition exampleWorld : World :=
  mkWorld
    (fun k => if String.eqb k "gemini_api_key" then Some "key"%string else None)
    (fun _ => Drawn (flat_map (fun a => [200; 200; 200; a])
                       (replicate (Z.to_nat (sampleSize * sampleSize)) 255)))
    (fun _ => Resolved (Some [mkPart None None (Some "Here is the image."%string);
                              mkPart (Some (mkInline (Some "image/png"%string)
                                                     (Some "iVBORw0KGgo="%string)))
                                     None None]))
    (fun _ => Drawn exampleImage)
    (fun _ => "data:image/png;base64,"%string).
(* ===================================================================== *)
(** * Properties *)
(* ===================================================================== *)

(** ** The order of binary64 numbers *)

Section SpecOrder.
Import SpecFloat.

Ltac sf_cases :=
  repeat match goal with
  | s : bool |- _ => destruct s
  | |- context [Z.compare ?a ?b] => destruct (Z.compare_spec a b); subst
  | H : context [Z.compare ?a ?b] |- _ => destruct (Z.compare_spec a b); subst
  | |- context [Pos.compare_cont Eq ?a ?b] => change (Pos.compare_cont Eq a b) with (Pos.compare a b)
  | H : context [Pos.compare_cont Eq ?a ?b] |- _ => change (Pos.compare_cont Eq a b) with (Pos.compare a b) in H
  | |- context [Pos.compare ?a ?b] => destruct (Pos.compare_spec a b); subst
  | H : context [Pos.compare ?a ?b] |- _ => destruct (Pos.compare_spec a b); subst
  end; simpl in *; try congruence; try lia.

Ltac sf_brute x y z :=
  unfold SFleb, SFltb, SFeqb, SFcompare;
  destruct x as [?|?| |? ? ?], y as [?|?| |? ? ?], z as [?|?| |? ? ?];
  simpl; try congruence; sf_cases.

Ltac sf_brute2 x y :=
  unfold SFleb, SFltb, SFeqb, SFcompare;
  destruct x as [?|?| |? ? ?], y as [?|?| |? ? ?];
  simpl; try congruence; sf_cases.

Lemma SFleb_trans x y z : SFleb x y = true -> SFleb y z = true -> SFleb x z = true.
Proof. sf_brute x y z. Qed.

Lemma SFltb_leb_trans x y z : SFltb x y = true -> SFleb y z = true -> SFltb x z = true.
Proof. sf_brute x y z. Qed.

Lemma SFltb_leb x y : SFltb x y = true -> SFleb x y = true.
Proof. unfold SFltb, SFleb. destruct (SFcompare x y) as [[]|]; congruence. Qed.

Lemma SFltb_false_leb x y :
  SFeqb x x = true -> SFeqb y y = true -> SFltb x y = false -> SFleb y x = true.
Proof. sf_brute2 x y. Qed.

Lemma SFleb_nan_r x y : SFeqb y y = false -> SFleb x y = false.
Proof. sf_brute2 x y. Qed.
End SpecOrder.

Module JsFacts.
Import Js.
#[local] Open Scope float_scope.

Lemma leb_trans x y z : (x <=? y) = true -> (y <=? z) = true -> (x <=? z) = true.
Proof. rewrite !FloatAxioms.leb_spec. apply SFleb_trans. Qed.

Lemma ltb_leb_trans x y z : (x <? y) = true -> (y <=? z) = true -> (x <? z) = true.
Proof. rewrite !FloatAxioms.ltb_spec, FloatAxioms.leb_spec. apply SFltb_leb_trans. Qed.

Lemma ltb_leb x y : (x <? y) = true -> (x <=? y) = true.
Proof. rewrite FloatAxioms.ltb_spec, FloatAxioms.leb_spec. apply SFltb_leb. Qed.

Lemma ltb_false_leb x y :
  is_nan x = false -> is_nan y = false -> (x <? y) = false -> (y <=? x) = true.
Proof.
  unfold is_nan. rewrite !negb_false_iff, FloatAxioms.ltb_spec, FloatAxioms.leb_spec, !FloatAxioms.eqb_spec.
  apply SFltb_false_leb.
Qed.

Lemma leb_nan_r x y : is_nan y = true -> (x <=? y) = false.
Proof.
  unfold is_nan. rewrite negb_true_iff, FloatAxioms.leb_spec, FloatAxioms.eqb_spec. apply SFleb_nan_r.
Qed.
End JsFacts.

Module JsBytes.
Import Js JsFacts.
#[local] Open Scope float_scope.

Lemma byte_table :
  forallb (fun a =>
    (toUint8Clamp (num a) =? a)%Z && negb (is_nan (num a)) &&
    negb (get_sign (num a)) && negb (is_nan (num a + 0.5)))
    (seqZ 0 256) = true.
Proof. vm_compute. reflexivity. Qed.

Lemma order_table :
  forallb (fun f => forallb (fun a =>
    implb (num f <=? num a) (f <=? a)%Z &&
    implb (num f + 0.5 <=? num a) (f <? a)%Z) (seqZ 0 256))
    (seqZ 0 256) = true.
Proof. vm_compute. reflexivity. Qed.

Lemma byte_In a : byte a -> In a (seqZ 0 256).
Proof. intros H. apply list_elem_of_In, elem_of_seqZ. unfold byte in H. lia. Qed.

Lemma byte_facts a :
  byte a ->
  toUint8Clamp (num a) = a /\ is_nan (num a) = false /\
  get_sign (num a) = false /\ is_nan (num a + 0.5) = false.
Proof.
  intros H. pose proof (proj1 (forallb_forall _ _) byte_table a (byte_In a H)) as T.
  rewrite !andb_true_iff, !negb_true_iff, Z.eqb_eq in T. tauto.
Qed.

Lemma num_leb f a : byte f -> byte a -> (num f <=? num a) = true -> (f <= a)%Z.
Proof.
  intros Hf Ha H.
  pose proof (proj1 (forallb_forall _ _) order_table f (byte_In f Hf)) as T.
  pose proof (proj1 (forallb_forall _ _) T a (byte_In a Ha)) as T'. simpl in T'.
  rewrite andb_true_iff, H in T'. simpl in T'. lia.
Qed.

Lemma half_leb f a : byte f -> byte a -> (num f + 0.5 <=? num a) = true -> (f < a)%Z.
Proof.
  intros Hf Ha H.
  pose proof (proj1 (forallb_forall _ _) order_table f (byte_In f Hf)) as T.
  pose proof (proj1 (forallb_forall _ _) T a (byte_In a Ha)) as T'. simpl in T'.
  rewrite andb_true_iff, H in T'. simpl in T'. lia.
Qed.

Lemma floorBelow_range k x : (0 <= floorBelow k x <= Z.of_nat k)%Z.
Proof.
  induction k as [|k IH]; simpl floorBelow; [lia|].
  destruct (_ <=? _); lia.
Qed.

Lemma floorBelow_leb k x :
  floorBelow k x = 0%Z \/ (num (floorBelow k x) <=? x) = true.
Proof.
  induction k as [|k IH]; simpl floorBelow; [now left|].
  destruct (num (Z.of_nat (S k)) <=? x) eqn:E; [now right | exact IH].
Qed.

Lemma floorBelow_ge k a x :
  (0 <= a <= Z.of_nat k)%Z -> (num a <=? x) = true -> (a <= floorBelow k x)%Z.
Proof.
  induction k as [|k IH]; intros Ha H; simpl floorBelow; [lia|].
  destruct (num (Z.of_nat (S k)) <=? x) eqn:E; [lia|].
  apply IH; [|exact H].
  destruct (decide (a = Z.of_nat (S k))) as [->|]; [congruence | lia].
Qed.

Lemma toUint8Clamp_range x : byte (toUint8Clamp x).
Proof.
  unfold toUint8Clamp, byte. pose proof (floorBelow_range 254 x) as Hr.
  generalize dependent (floorBelow 254 x). intros f Hf.
  destruct (is_nan x); [lia|].
  destruct (x <=? 0); [lia|].
  destruct (255 <=? x); [lia|].
  destruct (num f + 0.5 <? x); [lia|].
  destruct (x <? num f + 0.5); [lia|].
  destruct (Z.even f); lia.
Qed.

Lemma toUint8Clamp_nan x : is_nan x = true -> toUint8Clamp x = 0%Z.
Proof. unfold toUint8Clamp. now intros ->. Qed.

Lemma toUint8Clamp_ge a x : byte a -> (num a <=? x) = true -> (a <= toUint8Clamp x)%Z.
Proof.
  intros Ha H. unfold toUint8Clamp.
  destruct (is_nan x) eqn:En; [rewrite (leb_nan_r _ _ En) in H; discriminate|].
  destruct (x <=? 0) eqn:E0.
  { apply (num_leb a 0); [exact Ha | unfold byte; lia |].
    exact (leb_trans _ _ _ H E0). }
  destruct (255 <=? x) eqn:E255; [unfold byte in Ha; lia|].
  assert (a <= floorBelow 254 x)%Z.
  { apply floorBelow_ge; [|exact H].
    destruct (decide (a = 255%Z)) as [->|]; [|unfold byte in Ha; lia].
    change (num 255) with 255 in H. congruence. }
  generalize dependent (floorBelow 254 x). intros f Hf.
  destruct (num f + 0.5 <? x); [lia|].
  destruct (x <? num f + 0.5); [lia|].
  destruct (Z.even f); lia.
Qed.

Lemma toUint8Clamp_le a x : byte a -> (x <=? num a) = true -> (toUint8Clamp x <= a)%Z.
Proof.
  intros Ha H. unfold toUint8Clamp.
  destruct (is_nan x) eqn:En; [unfold byte in Ha; lia|].
  destruct (x <=? 0) eqn:E0; [unfold byte in Ha; lia|].
  destruct (255 <=? x) eqn:E255.
  { apply (num_leb 255 a); [unfold byte; lia | exact Ha |].
    exact (leb_trans _ _ _ E255 H). }
  pose proof (floorBelow_range 254 x) as Hr.
  pose proof (floorBelow_leb 254 x) as Hfl.
  generalize dependent (floorBelow 254 x). intros f Hr Hfl.
  assert (Hf : byte f) by (unfold byte; lia).
  destruct (byte_facts f Hf) as (_ & _ & _ & Hn).
  assert (Hfa : (f <= a)%Z).
  { destruct Hfl as [Hz|Hl].
    - unfold byte in Ha; lia.
    - apply (num_leb f a Hf Ha). exact (leb_trans _ _ _ Hl H). }
  destruct (num f + 0.5 <? x) eqn:E1.
  { pose proof (half_leb f a Hf Ha (ltb_leb _ _ (ltb_leb_trans _ _ _ E1 H))). lia. }
  destruct (x <? num f + 0.5) eqn:E2; [exact Hfa|].
  destruct (Z.even f); [exact Hfa|].
  pose proof (ltb_false_leb _ _ En Hn E2) as E3.
  pose proof (half_leb f a Hf Ha (leb_trans _ _ _ E3 H)). lia.
Qed.

(** Storing [Math.min(old, x)] in a byte cell stores the smaller of [old]
    and the byte that [x] alone would store. *)
Lemma clamp_min a x :
  byte a -> toUint8Clamp (mathMin (num a) x) = Z.min a (toUint8Clamp x).
Proof.
  intros Ha. destruct (byte_facts a Ha) as (Hc & Hn & Hs & _).
  pose proof (toUint8Clamp_range x) as Hx.
  unfold mathMin. rewrite Hn, Hs. simpl orb.
  destruct (is_nan x) eqn:En.
  { rewrite (toUint8Clamp_nan x En). change (toUint8Clamp nan) with 0%Z.
    unfold byte in Ha. lia. }
  destruct (num a <? x) eqn:E1.
  { rewrite Hc. pose proof (toUint8Clamp_ge a x Ha (ltb_leb _ _ E1)). lia. }
  pose proof (ltb_false_leb _ _ Hn En E1) as E1'.
  pose proof (toUint8Clamp_le a x Ha E1').
  destruct (x <? num a); lia.
Qed.
End JsBytes.

(** ** Typed-array cells *)

Section Cells.
Implicit Types (d : list Z) (i j v : Z).

Lemma length_wr d i v : length (wr d i v) = length d.
Proof. unfold wr. case_decide; [apply length_insert | done]. Qed.

Lemma rd_Some d i v : rd d i = Some v -> 0 <= i < Z.of_nat (length d).
Proof.
  unfold rd. case_decide; [|done]. intros Hl%lookup_lt_Some. lia.
Qed.

Lemma rd_None d i : ~ (0 <= i < Z.of_nat (length d)) -> rd d i = None.
Proof.
  intros Hi. unfold rd. case_decide; [|done]. apply lookup_ge_None. lia.
Qed.

Lemma rd_is_Some d i : 0 <= i < Z.of_nat (length d) -> is_Some (rd d i).
Proof.
  intros Hi. unfold rd. case_decide; [|lia]. apply lookup_lt_is_Some. lia.
Qed.

Lemma rd_wr_eq d i v : 0 <= i < Z.of_nat (length d) -> rd (wr d i v) i = Some v.
Proof.
  intros Hi. unfold rd, wr. repeat case_decide; try lia.
  apply list_lookup_insert_eq. lia.
Qed.

Lemma rd_wr_ne d i j v : i <> j -> rd (wr d i v) j = rd d j.
Proof.
  intros Hi. unfold rd, wr. repeat case_decide; try done.
  apply list_lookup_insert_ne. lia.
Qed.

Lemma wr_same d i v : rd d i = Some v -> wr d i v = d.
Proof.
  unfold rd, wr. case_decide; [|done]. apply list_insert_id.
Qed.

Lemma rd_ext d d' : (forall j, rd d j = rd d' j) -> d = d'.
Proof.
  intros Hj. apply list_eq. intros n. specialize (Hj (Z.of_nat n)).
  unfold rd in Hj. case_decide; [|lia]. now rewrite Nat2Z.id in Hj.
Qed.

Lemma rd_byte d i v : Forall byte d -> rd d i = Some v -> byte v.
Proof.
  intros Hd. unfold rd. case_decide; [|done]. intros Hl.
  eapply Forall_lookup_1; eassumption.
Qed.

Lemma Forall_wr (P : Z -> Prop) d i v : Forall P d -> P v -> Forall P (wr d i v).
Proof.
  intros Hd Hv. unfold wr. case_decide; [|done]. apply Forall_insert; done.
Qed.
End Cells.

Section ChromaKey.
Variables (bgColor : KeyColor) (tolerance : float).
Implicit Types (d : list Z) (i j p : Z).

Lemma length_keyStep d i : length (keyStep bgColor tolerance d i) = length d.
Proof.
  unfold keyStep. repeat (destruct (_ <? _)%float); rewrite ?length_wr; done.
Qed.

Lemma rd_keyStep_ne d i j :
  j <> i + 3 -> rd (keyStep bgColor tolerance d i) j = rd d j.
Proof.
  intros Hj. unfold keyStep.
  repeat (destruct (_ <? _)%float); rewrite ?rd_wr_ne by lia; done.
Qed.

(** A step reads only the four cells of its own pixel. *)
Lemma rd_keyStep_local d d' i :
  (forall c, 0 <= c <= 3 -> rd d (i + c) = rd d' (i + c)) ->
  rd (keyStep bgColor tolerance d i) (i + 3)
  = rd (keyStep bgColor tolerance d' i) (i + 3).
Proof.
  intros H.
  pose proof (H 0 ltac:(lia)) as H0. rewrite Z.add_0_r in H0.
  pose proof (H 1 ltac:(lia)) as H1.
  pose proof (H 2 ltac:(lia)) as H2.
  pose proof (H 3 ltac:(lia)) as H3.
  unfold keyStep. rewrite H0, H1, H2, H3.
  assert (Hw : forall v, rd (wr d (i + 3) v) (i + 3) = rd (wr d' (i + 3) v) (i + 3)).
  { intros v. destruct (decide (0 <= i + 3 < Z.of_nat (length d))) as [Hin|Hout].
    - rewrite rd_wr_eq by done. symmetry. apply rd_wr_eq.
      destruct (rd_is_Some d (i + 3) Hin) as [a Ha]. rewrite H3 in Ha.
      exact (rd_Some _ _ _ Ha).
    - rewrite (rd_None (wr d _ _)) by (rewrite length_wr; done).
      symmetry. apply rd_None. rewrite length_wr. intros Hin.
      destruct (rd_is_Some d' (i + 3) Hin) as [a Ha]. rewrite <- H3 in Ha.
      apply Hout. exact (rd_Some _ _ _ Ha). }
  repeat (destruct (_ <? _)%float); auto.
Qed.

(** On a pixel with all four cells present the step stores [keyAlpha]. *)
Lemma keyStep_pixel d p r g b a :
  pixelAt d p = Some (r, g, b, a) -> byte a ->
  keyStep bgColor tolerance d (p * 4) = wr d (p * 4 + 3) (keyAlpha bgColor tolerance r g b a).
Proof.
  unfold pixelAt. intros H Ha.
  destruct (rd d (p * 4)) as [r'|] eqn:Er; [|done].
  destruct (rd d (p * 4 + 1)) as [g'|] eqn:Eg; [|done].
  destruct (rd d (p * 4 + 2)) as [b'|] eqn:Eb; [|done].
  destruct (rd d (p * 4 + 3)) as [a'|] eqn:Ea; [|done].
  injection H as -> -> -> ->.
  unfold keyStep, keyAlpha. rewrite Er, Eg, Eb, Ea. simpl Js.numOpt.
  destruct (_ <? _)%float; [done|].
  destruct (_ <? _)%float.
  - now rewrite JsBytes.clamp_min.
  - symmetry. now apply wr_same.
Qed.

Lemma keyAlpha_byte r g b a : byte a -> byte (keyAlpha bgColor tolerance r g b a).
Proof.
  intros Ha. unfold keyAlpha.
  pose proof (JsBytes.toUint8Clamp_range
                (feather (distance bgColor (Js.num r) (Js.num g) (Js.num b)) tolerance)) as Hc.
  unfold byte in *.
  repeat (destruct (_ <? _)%float); lia.
Qed.

Lemma keyAlpha_le r g b a : byte a -> keyAlpha bgColor tolerance r g b a <= a.
Proof.
  intros Ha. unfold keyAlpha, byte in *.
  repeat (destruct (_ <? _)%float); lia.
Qed.

Lemma keyAlpha_idem r g b a :
  keyAlpha bgColor tolerance r g b (keyAlpha bgColor tolerance r g b a)
  = keyAlpha bgColor tolerance r g b a.
Proof.
  unfold keyAlpha.
  repeat (destruct (_ <? _)%float); lia.
Qed.

Lemma rd_keyFold n : forall k d j,
  0 <= k ->
  rd (fold_left (keyStep bgColor tolerance)
        ((fun k => 4 * k) <$> seqZ k (Z.of_nat n)) d) j
  = if decide ((j - 3) mod 4 = 0 /\ k <= (j - 3) / 4 < k + Z.of_nat n)
    then rd (keyStep bgColor tolerance d (j - 3)) j
    else rd d j.
Proof.
  induction n as [|n IH]; intros k d j Hk.
  - simpl. case_decide; [lia | done].
  - rewrite Nat2Z.inj_succ, seqZ_cons by lia. rewrite fmap_cons. simpl fold_left.
    replace (Z.pred (Z.succ (Z.of_nat n))) with (Z.of_nat n) by lia.
    rewrite IH by lia.
    destruct (decide ((j - 3) mod 4 = 0 /\ Z.succ k <= (j - 3) / 4 < Z.succ k + Z.of_nat n))
      as [[Hm Hr]|Hn].
    + rewrite decide_True by lia.
      replace j with ((j - 3) + 3) at 2 4 by lia.
      apply rd_keyStep_local. intros c Hc. apply rd_keyStep_ne.
      pose proof (Z.div_mod (j - 3) 4 ltac:(lia)). lia.
    + destruct (decide (j = 4 * k + 3)) as [->|Hne].
      * replace (4 * k + 3 - 3) with (4 * k) by lia.
        rewrite decide_True; [done|].
        replace (4 * k) with (k * 4) by lia.
        rewrite Z.mod_mul, Z.div_mul by lia. lia.
      * rewrite rd_keyStep_ne by lia.
        case_decide as Hc; [|done].
        destruct Hc as [Hm Hr].
        pose proof (Z.div_mod (j - 3) 4 ltac:(lia)).
        assert ((j - 3) / 4 = k) by lia. lia.
Qed.

Lemma rd_chromaKey d j :
  rd (chromaKey bgColor tolerance d) j
  = if decide ((j - 3) mod 4 = 0 /\ 0 <= j - 3)
    then rd (keyStep bgColor tolerance d (j - 3)) j
    else rd d j.
Proof.
  unfold chromaKey, strideIndices.
  set (n := (Z.of_nat (length d) + 3) / 4).
  assert (Hn : 0 <= n) by (apply Z.div_pos; lia).
  rewrite <- (Z2Nat.id n Hn). rewrite rd_keyFold by lia. rewrite (Z2Nat.id n Hn).
  pose proof (Z.div_mod (Z.of_nat (length d) + 3) 4 ltac:(lia)) as Hd.
  pose proof (Z.mod_pos_bound (Z.of_nat (length d) + 3) 4 ltac:(lia)) as Hb.
  fold n in Hd.
  destruct (decide ((j - 3) mod 4 = 0 /\ 0 <= j - 3)) as [[Hm Hj]|Hc].
  - pose proof (Z.div_mod (j - 3) 4 ltac:(lia)) as Hd'.
    case_decide as Hc; [done|].
    assert (Hout : ~ (0 <= j < Z.of_nat (length d))) by lia.
    rewrite !rd_None by (rewrite ?length_keyStep; done). done.
  - case_decide as Hc'; [|done]. exfalso. apply Hc. destruct Hc' as [Hm Hr].
    split; [done|]. pose proof (Z.div_mod (j - 3) 4 ltac:(lia)). lia.
Qed.

Lemma length_chromaKey d : length (chromaKey bgColor tolerance d) = length d.
Proof.
  unfold chromaKey. generalize (strideIndices d). intros l. revert d.
  induction l as [|i l IH]; intros d; simpl; [done|].
  now rewrite IH, length_keyStep.
Qed.

(** The pass leaves the colour cells alone. *)
Lemma rd_chromaKey_color d p c :
  0 <= c <= 2 -> rd (chromaKey bgColor tolerance d) (p * 4 + c) = rd d (p * 4 + c).
Proof.
  intros Hc. rewrite rd_chromaKey. case_decide as H; [|done].
  destruct H as [Hm _]. exfalso.
  replace (p * 4 + c - 3) with (c + 1 + (p - 1) * 4) in Hm by lia.
  rewrite Z.mod_add in Hm by lia.
  rewrite Z.mod_small in Hm by lia. lia.
Qed.

(** Each alpha cell is what a single step on the input buffer stores. *)
Lemma alphaAt_chromaKey d p :
  alphaAt (chromaKey bgColor tolerance d) p
  = alphaAt (keyStep bgColor tolerance d (p * 4)) p.
Proof.
  unfold alphaAt. rewrite rd_chromaKey.
  replace (p * 4 + 3 - 3) with (p * 4) by lia.
  case_decide as H; [done|].
  rewrite Z.mod_mul in H by lia.
  assert (Hp : p < 0) by lia.
  rewrite !rd_None by (rewrite ?length_keyStep; lia). done.
Qed.

Lemma chromaKey_pixel d p r g b a :
  pixelAt d p = Some (r, g, b, a) -> byte a ->
  pixelAt (chromaKey bgColor tolerance d) p
  = Some (r, g, b, keyAlpha bgColor tolerance r g b a).
Proof.
  intros Hp Ha. pose proof Hp as Hp'. unfold pixelAt in Hp' |- *.
  pose proof (rd_chromaKey_color d p 0 ltac:(lia)) as E0. rewrite Z.add_0_r in E0.
  rewrite E0, !rd_chromaKey_color by lia.
  fold (alphaAt (chromaKey bgColor tolerance d) p).
  rewrite alphaAt_chromaKey, (keyStep_pixel _ _ _ _ _ _ Hp Ha).
  destruct (rd d (p * 4)) as [r'|]; [|done].
  destruct (rd d (p * 4 + 1)) as [g'|]; [|done].
  destruct (rd d (p * 4 + 2)) as [b'|]; [|done].
  destruct (rd d (p * 4 + 3)) as [a'|] eqn:Ea; [|done].
  injection Hp' as -> -> -> ->.
  unfold alphaAt. rewrite rd_wr_eq by exact (rd_Some _ _ _ Ea). done.
Qed.
End ChromaKey.

(** ** Pass 1: the chroma key *)

Lemma pixelAt_alpha d p r g b a :
  pixelAt d p = Some (r, g, b, a) -> alphaAt d p = Some a.
Proof.
  unfold pixelAt, alphaAt. repeat case_match; congruence.
Qed.

Lemma pixelAt_present d p a :
  0 <= p -> alphaAt d p = Some a ->
  exists r g b, pixelAt d p = Some (r, g, b, a).
Proof.
  unfold alphaAt, pixelAt. intros Hp Ha. pose proof (rd_Some _ _ _ Ha) as Hr.
  destruct (rd_is_Some d (p * 4) ltac:(lia)) as [r ->].
  destruct (rd_is_Some d (p * 4 + 1) ltac:(lia)) as [g ->].
  destruct (rd_is_Some d (p * 4 + 2) ltac:(lia)) as [b ->].
  rewrite Ha. eauto.
Qed.

Lemma alphaAt_negative d p : p < 0 -> alphaAt d p = None.
Proof. intros Hp. unfold alphaAt. apply rd_None. lia. Qed.

(** C2 (as stated, refuted): on the one-pixel buffer (50, 245, 0, 255) keyed
    against green with tolerance 50 the distance is sqrt 2600, inside the
    feather band; the feather value is about 16.83, which the specification
    gives as the new alpha, while the byte cell holds 17. *)
Lemma chromaKey_alpha_is_rounded :
  alphaAt (chromaKey green 50 [50; 245; 0; 255]) 0 = Some 17 /\
  Js.numOpt (alphaAt (chromaKey green 50 [50; 245; 0; 255]) 0)
  <> specKeyAlpha green 50 50 245 0 255.
Proof.
  split; [vm_compute; reflexivity|].
  intros H. apply (f_equal (fun v => PrimFloat.eqb v 17)) in H.
  vm_compute in H. discriminate.
Qed.

(** C2 (amended): for a pixel (r, g, b, a) and d the distance of its colour
    to the key colour, pass 1 sets the alpha to 0 if d < tolerance, else to
    the minimum of the old alpha and the feather value converted to a byte
    (clamped to 0..255 and rounded to the nearest integer, ties to even) if
    d < tolerance * 1.3, and leaves it unchanged otherwise. *)
Theorem chromaKey_pixel_alpha bgColor tolerance d p r g b a :
  pixelAt d p = Some (r, g, b, a) -> byte a ->
  alphaAt (chromaKey bgColor tolerance d) p
  = Some (let dist := distance bgColor (Js.num r) (Js.num g) (Js.num b) in
          if (dist <? tolerance)%float then 0
          else if (dist <? tolerance * 1.3)%float
               then Z.min a (Js.toUint8Clamp (feather dist tolerance))
               else a).
Proof.
  intros Hp Ha.
  exact (pixelAt_alpha _ _ _ _ _ _ (chromaKey_pixel bgColor tolerance d p r g b a Hp Ha)).
Qed.

Lemma chromaKey_pixel_alpha_witness :
  alphaAt (chromaKey green 50 [50; 245; 0; 255]) 0
  = Some (let dist := distance green (Js.num 50) (Js.num 245) (Js.num 0) in
          if (dist <? 50)%float then 0
          else if (dist <? 50 * 1.3)%float
               then Z.min 255 (Js.toUint8Clamp (feather dist 50))
               else 255).
Proof.
  apply (chromaKey_pixel_alpha green 50 [50; 245; 0; 255] 0 50 245 0 255).
  - reflexivity.
  - unfold byte. lia.
Defined.

(** C7: keying an already keyed buffer again, with the same key colour and
    tolerance, changes nothing: the alpha channel (and the whole buffer) is
    the one the first pass produced. *)
Theorem chromaKey_idempotent bgColor tolerance d :
  Forall byte d ->
  chromaKey bgColor tolerance (chromaKey bgColor tolerance d)
  = chromaKey bgColor tolerance d /\
  forall p, alphaAt (chromaKey bgColor tolerance (chromaKey bgColor tolerance d)) p
            = alphaAt (chromaKey bgColor tolerance d) p.
Proof.
  intros Hd.
  assert (E : chromaKey bgColor tolerance (chromaKey bgColor tolerance d)
              = chromaKey bgColor tolerance d); [|split; [exact E | intros p; now rewrite E]].
  apply rd_ext. intros j.
  rewrite (rd_chromaKey _ _ (chromaKey bgColor tolerance d)).
  case_decide as Hj; [|done]. destruct Hj as [Hm Hj].
  pose proof (Z.div_mod (j - 3) 4 ltac:(lia)) as Hq. rewrite Hm in Hq.
  set (p := (j - 3) / 4) in *.
  assert (Hp : 0 <= p) by lia.
  replace (j - 3) with (p * 4) by lia. replace j with (p * 4 + 3) by lia.
  change (alphaAt (keyStep bgColor tolerance (chromaKey bgColor tolerance d) (p * 4)) p
          = alphaAt (chromaKey bgColor tolerance d) p).
  destruct (alphaAt d p) as [a|] eqn:Ea.
  - destruct (pixelAt_present d p a Hp Ea) as (r & g & b & Hpx).
    assert (Ha : byte a) by exact (rd_byte _ _ _ Hd Ea).
    pose proof (chromaKey_pixel bgColor tolerance d p r g b a Hpx Ha) as Hk.
    rewrite (keyStep_pixel _ _ _ _ _ _ _ _ Hk (keyAlpha_byte _ _ _ _ _ _ Ha)).
    rewrite keyAlpha_idem, (pixelAt_alpha _ _ _ _ _ _ Hk).
    apply rd_wr_eq. exact (rd_Some _ _ _ (pixelAt_alpha _ _ _ _ _ _ Hk)).
  - assert (Hout : ~ (0 <= p * 4 + 3 < Z.of_nat (length d))).
    { intros Hin. destruct (rd_is_Some d _ Hin) as [a Ha].
      unfold alphaAt in Ea. congruence. }
    unfold alphaAt.
    rewrite !rd_None by (rewrite ?length_keyStep, ?length_chromaKey; done). done.
Qed.

Lemma chromaKey_idempotent_witness :
  chromaKey green 50 (chromaKey green 50 [50; 245; 0; 255; 0; 255; 0; 255])
  = chromaKey green 50 [50; 245; 0; 255; 0; 255; 0; 255] /\
  forall p, alphaAt (chromaKey green 50 (chromaKey green 50 [50; 245; 0; 255; 0; 255; 0; 255])) p
            = alphaAt (chromaKey green 50 [50; 245; 0; 255; 0; 255; 0; 255]) p.
Proof.
  apply (chromaKey_idempotent green 50 [50; 245; 0; 255; 0; 255; 0; 255]).
  repeat constructor; unfold byte; lia.
Defined.

(** C10: pass 1 never raises an alpha: every alpha cell of the keyed buffer
    holds at most what it held before, whatever the key colour, the tolerance
    and the colour distance; in particular a transparent pixel stays
    transparent. *)
Theorem chromaKey_never_increases_alpha bgColor tolerance d p a :
  Forall byte d -> alphaAt d p = Some a ->
  exists a', alphaAt (chromaKey bgColor tolerance d) p = Some a' /\
             a' <= a /\ (a = 0 -> a' = 0).
Proof.
  intros Hd Ea.
  assert (Ha : byte a) by exact (rd_byte _ _ _ Hd Ea).
  assert (Hp : 0 <= p).
  { destruct (decide (0 <= p)); [done|].
    rewrite alphaAt_negative in Ea by lia. done. }
  destruct (pixelAt_present d p a Hp Ea) as (r & g & b & Hpx).
  exists (keyAlpha bgColor tolerance r g b a).
  split; [exact (pixelAt_alpha _ _ _ _ _ _ (chromaKey_pixel _ _ _ _ _ _ _ _ Hpx Ha))|].
  pose proof (keyAlpha_le bgColor tolerance r g b a Ha) as Hle.
  pose proof (keyAlpha_byte bgColor tolerance r g b a Ha) as Hb.
  unfold byte in Hb. split; [exact Hle | lia].
Qed.

Lemma chromaKey_never_increases_alpha_witness :
  exists a', alphaAt (chromaKey green 50 [50; 245; 0; 255]) 0 = Some a' /\
             a' <= 255 /\ (255 = 0 -> a' = 0).
Proof.
  apply (chromaKey_never_increases_alpha green 50 [50; 245; 0; 255] 0 255).
  - repeat constructor; unfold byte; lia.
  - reflexivity.
Defined.

(** ** Passes 2 and 3: erosion and dilation *)

Section Grid.
Variables (w : Z) (cell : Z -> Z -> Z -> Z).
Hypothesis w_pos : 0 < w.
Implicit Types (out : list Z) (x y j : Z).

Lemma length_writePixel out x y : length (writePixel w cell out x y) = length out.
Proof. unfold writePixel. now rewrite !length_wr. Qed.

Lemma length_rowFold xs : forall out y,
  length (fold_left (fun out x => writePixel w cell out x y) xs out) = length out.
Proof.
  induction xs as [|x xs IH]; intros out y; simpl; [done|].
  now rewrite IH, length_writePixel.
Qed.

Lemma length_gridFold ys : forall out,
  length (fold_left
            (fun out y => fold_left (fun out x => writePixel w cell out x y) (seqZ 0 w) out)
            ys out) = length out.
Proof.
  induction ys as [|y ys IH]; intros out; simpl; [done|].
  now rewrite IH, length_rowFold.
Qed.

Lemma pixel_index_iff x y q :
  0 <= x < w -> (q = y * w + x <-> q / w = y /\ q mod w = x).
Proof.
  intros Hx. split.
  - intros ->. split.
    + rewrite Z.add_comm, Z.div_add by lia. rewrite Z.div_small by lia. lia.
    + rewrite Z.add_comm, Z.mod_add by lia. apply Z.mod_small. lia.
  - intros [<- <-]. pose proof (Z.div_mod q w ltac:(lia)). lia.
Qed.

Lemma rd_writePixel out x y j :
  0 <= j < Z.of_nat (length out) ->
  rd (writePixel w cell out x y) j
  = if decide (j / 4 = y * w + x) then Some (cell x y (j mod 4)) else rd out j.
Proof.
  intros Hj. unfold writePixel.
  pose proof (Z.div_mod j 4 ltac:(lia)) as Hd.
  pose proof (Z.mod_pos_bound j 4 ltac:(lia)) as Hm.
  case_decide as Hq.
  - rewrite <- Hq.
    assert (Hc : j mod 4 = 0 \/ j mod 4 = 1 \/ j mod 4 = 2 \/ j mod 4 = 3) by lia.
    destruct Hc as [Hc|[Hc|[Hc|Hc]]]; rewrite Hc.
    + replace (j / 4 * 4) with j by lia.
      rewrite !rd_wr_ne by lia. now rewrite rd_wr_eq.
    + replace (j / 4 * 4 + 1) with j by lia.
      rewrite !rd_wr_ne by lia. rewrite rd_wr_eq; [done|]. now rewrite !length_wr.
    + replace (j / 4 * 4 + 2) with j by lia.
      rewrite !rd_wr_ne by lia. rewrite rd_wr_eq; [done|]. now rewrite !length_wr.
    + replace (j / 4 * 4 + 3) with j by lia.
      rewrite rd_wr_eq; [done|]. now rewrite !length_wr.
  - rewrite !rd_wr_ne by lia. done.
Qed.

Lemma rd_rowFold xs : forall out y j,
  (forall x, x ∈ xs -> 0 <= x < w) ->
  0 <= j < Z.of_nat (length out) ->
  rd (fold_left (fun out x => writePixel w cell out x y) xs out) j
  = if decide (j / 4 / w = y /\ (j / 4) mod w ∈ xs)
    then Some (cell ((j / 4) mod w) y (j mod 4))
    else rd out j.
Proof.
  induction xs as [|x xs IH]; intros out y j Hxs Hj; cbn [fold_left].
  - case_decide as Hc; [|done]. destruct Hc as [_ Hc]. inversion Hc.
  - assert (Hx : 0 <= x < w) by (apply Hxs; left).
    rewrite IH; [| intros x' Hx'; apply Hxs; now right | now rewrite length_writePixel].
    rewrite rd_writePixel by done.
    pose proof (pixel_index_iff x y (j / 4) Hx) as Hi.
    destruct (decide (j / 4 / w = y /\ (j / 4) mod w ∈ xs)) as [[Hy Hin]|Hn].
    + rewrite decide_True; [done|]. split; [done | now right].
    + destruct (decide (j / 4 = y * w + x)) as [Hq|Hq].
      * apply Hi in Hq as [Hy Hxx]. rewrite decide_True; [now rewrite Hxx|].
        split; [done|]. rewrite Hxx. left.
      * case_decide as Hc; [|done]. exfalso. destruct Hc as [Hy Hc].
        apply elem_of_cons in Hc as [Hc|Hc]; [|tauto].
        apply Hq, Hi. done.
Qed.

Lemma rd_gridFold ys : forall out j,
  0 <= j < Z.of_nat (length out) ->
  rd (fold_left
        (fun out y => fold_left (fun out x => writePixel w cell out x y) (seqZ 0 w) out)
        ys out) j
  = if decide (j / 4 / w ∈ ys)
    then Some (cell ((j / 4) mod w) (j / 4 / w) (j mod 4))
    else rd out j.
Proof.
  induction ys as [|y ys IH]; intros out j Hj; cbn [fold_left].
  - case_decide as Hc; [inversion Hc | done].
  - rewrite IH by now rewrite length_rowFold.
    rewrite rd_rowFold; [| intros x Hx%elem_of_seqZ; lia | done].
    assert (Hm : (j / 4) mod w ∈ seqZ 0 w).
    { apply elem_of_seqZ. pose proof (Z.mod_pos_bound (j / 4) w w_pos). lia. }
    destruct (decide (j / 4 / w ∈ ys)) as [Hin|Hn].
    + rewrite decide_True; [done | now right].
    + destruct (decide (j / 4 / w = y /\ (j / 4) mod w ∈ seqZ 0 w)) as [[Hy _]|Hc].
      * rewrite decide_True; [now rewrite Hy | rewrite Hy; left].
      * case_decide as Hc'; [|done]. exfalso.
        apply elem_of_cons in Hc' as [Hc'|Hc']; tauto.
Qed.

(** Every cell of a freshly allocated buffer is stored exactly once. *)
Lemma rd_writeGrid h x y c :
  0 < h -> 0 <= x < w -> 0 <= y < h -> 0 <= c <= 3 ->
  rd (writeGrid w h cell (data (newImageData w h))) ((y * w + x) * 4 + c)
  = Some (cell x y c).
Proof.
  intros Hh Hx Hy Hc. unfold writeGrid.
  set (j := (y * w + x) * 4 + c).
  assert (Hq : j / 4 = y * w + x).
  { unfold j. rewrite Z.add_comm, Z.div_add by lia. rewrite Z.div_small by lia. lia. }
  assert (Hr : j mod 4 = c).
  { unfold j. rewrite Z.add_comm, Z.mod_add by lia. apply Z.mod_small. lia. }
  destruct (proj1 (pixel_index_iff x y (j / 4) Hx) Hq) as [Hqy Hqx].
  rewrite rd_gridFold.
  - rewrite decide_True; [now rewrite Hqx, Hqy, Hr|].
    rewrite Hqy. apply elem_of_seqZ. lia.
  - simpl. rewrite length_replicate. unfold j. nia.
Qed.

Lemma length_writeGrid h :
  0 <= h -> Z.of_nat (length (writeGrid w h cell (data (newImageData w h)))) = w * h * 4.
Proof.
  intros Hh. unfold writeGrid. rewrite length_gridFold. simpl.
  rewrite length_replicate. nia.
Qed.
End Grid.

Lemma fold_left_ext_eq {A B} (f g : A -> B -> A) l : forall a,
  (forall a b, f a b = g a b) -> fold_left f l a = fold_left g l a.
Proof.
  induction l as [|b l IH]; intros a H; simpl; [done|]. now rewrite H, IH.
Qed.

Lemma erodePixel_writePixel img radius out x y :
  erodePixel img radius out x y = writePixel (width img) (erodeCell img radius) out x y.
Proof.
  unfold erodePixel, writePixel, erodeCell.
  repeat case_decide; try lia. rewrite Z.add_0_r.
  now destruct (hasTransparentNeighbor img radius x y).
Qed.

Lemma dilatePixel_writePixel img radius out x y :
  dilatePixel img radius out x y = writePixel (width img) (dilateCell img radius) out x y.
Proof.
  unfold dilatePixel, writePixel, dilateCell.
  repeat case_decide; try lia. now rewrite Z.add_0_r.
Qed.

Lemma erode_writeGrid img radius :
  data (erode img radius)
  = writeGrid (width img) (height img) (erodeCell img radius)
      (data (newImageData (width img) (height img))).
Proof.
  unfold erode, writeGrid. cbn [data].
  apply fold_left_ext_eq. intros out y.
  apply fold_left_ext_eq. intros out' x. apply erodePixel_writePixel.
Qed.

Lemma dilate_writeGrid img radius :
  data (dilate img radius)
  = writeGrid (width img) (height img) (dilateCell img radius)
      (data (newImageData (width img) (height img))).
Proof.
  unfold dilate, writeGrid. cbn [data].
  apply fold_left_ext_eq. intros out y.
  apply fold_left_ext_eq. intros out' x. apply dilatePixel_writePixel.
Qed.

(** Pixel [p] sits at column [p mod width] of row [p / width]. *)
Lemma pixel_coords w h p :
  0 < w -> 0 <= p < w * h ->
  0 <= p mod w < w /\ 0 <= p / w < h /\ p = p / w * w + p mod w.
Proof.
  intros Hw Hp.
  pose proof (Z.div_mod p w ltac:(lia)) as Hd.
  pose proof (Z.mod_pos_bound p w Hw) as Hm.
  assert (0 <= p / w) by (apply Z.div_pos; lia).
  assert (p / w < h) by (apply Z.div_lt_upper_bound; lia).
  lia.
Qed.

Lemma alphaAt_inside img p a :
  wfImage img -> alphaAt (data img) p = Some a ->
  0 <= p < width img * height img.
Proof.
  intros [Hw Hh Hl _] Ha. apply rd_Some in Ha. lia.
Qed.

Lemma rd_inside img x y c :
  wfImage img -> 0 <= x < width img -> 0 <= y < height img -> 0 <= c <= 3 ->
  exists v, rd (data img) ((y * width img + x) * 4 + c) = Some v /\ byte v.
Proof.
  intros Hwf Hx Hy Hc. destruct Hwf as [Hw Hh Hl Hb].
  destruct (rd_is_Some (data img) ((y * width img + x) * 4 + c)) as [v Hv]; [nia|].
  exists v. split; [done|]. exact (rd_byte _ _ _ Hb Hv).
Qed.

Lemma erode_wf img radius : wfImage img -> wfImage (erode img radius).
Proof.
  intros Hwf. pose proof Hwf as [Hw Hh Hl Hb].
  change (wfImage (mkImageData (width img) (height img) (data (erode img radius)))).
  split; cbn [width height data]; [done | done | |].
  - rewrite erode_writeGrid. apply length_writeGrid; lia.
  - apply Forall_lookup_2. intros n v Hn.
    assert (Hj : 0 <= Z.of_nat n < width img * height img * 4).
    { apply lookup_lt_Some in Hn. rewrite erode_writeGrid in Hn.
      pose proof (length_writeGrid (width img) (erodeCell img radius) Hw (height img) ltac:(lia)).
      lia. }
    pose proof (Z.div_mod (Z.of_nat n) 4 ltac:(lia)) as Hd.
    pose proof (Z.mod_pos_bound (Z.of_nat n) 4 ltac:(lia)) as Hm.
    destruct (pixel_coords (width img) (height img) (Z.of_nat n / 4) Hw ltac:(lia))
      as (Hx & Hy & Hp).
    pose proof (rd_writeGrid (width img) (erodeCell img radius) Hw (height img)
                  _ _ (Z.of_nat n mod 4) Hh Hx Hy ltac:(lia)) as Hr.
    rewrite <- Hp, <- erode_writeGrid in Hr.
    replace (Z.of_nat n / 4 * 4 + Z.of_nat n mod 4) with (Z.of_nat n) in Hr by lia.
    unfold rd in Hr. rewrite decide_True, Nat2Z.id in Hr by lia.
    rewrite Hn in Hr. injection Hr as ->.
    unfold erodeCell.
    destruct (rd_inside img _ _ 3 Hwf Hx Hy ltac:(lia)) as (v3 & -> & Hv3).
    case_decide.
    + destruct (hasTransparentNeighbor _ _ _ _); [unfold byte; lia | exact Hv3].
    + destruct (rd_inside img _ _ (Z.of_nat n mod 4) Hwf Hx Hy ltac:(lia)) as (vc & -> & Hvc).
      exact Hvc.
Qed.

Section MaxAlpha.
Variables (img : ImageData) (x y a : Z).
Hypothesis img_wf : wfImage img.

(** What the running [maxAlpha] is at any point of the neighbour loops. *)
Let above (acc : option Z) : Prop := exists m, acc = Some m /\ a <= m /\ byte m.

Lemma maxAlpha_inner dy dxs : forall acc,
  above acc ->
  above (fold_left
    (fun acc dx =>
       let ny := y + dy in
       let nx := x + dx in
       if (0 <=? ny) && (ny <? height img) && (0 <=? nx) && (nx <? width img)
       then
         let nidx := (ny * width img + nx) * 4 in
         Js.mathMax acc (rd (data img) (nidx + 3))
       else acc) dxs acc).
Proof.
  induction dxs as [|dx dxs IH]; intros acc Hacc; cbn [fold_left]; [done|].
  apply IH. cbv zeta.
  destruct ((0 <=? y + dy) && (y + dy <? height img) && (0 <=? x + dx) && (x + dx <? width img))
    eqn:E; [|done].
  rewrite !andb_true_iff in E. destruct E as [[[E1 E2] E3] E4].
  destruct (rd_inside img (x + dx) (y + dy) 3 img_wf ltac:(lia) ltac:(lia) ltac:(lia))
    as (v & -> & Hv).
  destruct Hacc as (m & -> & Hm & Hb). exists (Z.max m v). unfold byte in *.
  split; [done | lia].
Qed.

Lemma maxAlpha_outer dxs dys : forall acc,
  above acc ->
  above (fold_left
    (fun acc dy =>
       fold_left
         (fun acc dx =>
            let ny := y + dy in
            let nx := x + dx in
            if (0 <=? ny) && (ny <? height img) && (0 <=? nx) && (nx <? width img)
            then
              let nidx := (ny * width img + nx) * 4 in
              Js.mathMax acc (rd (data img) (nidx + 3))
            else acc) dxs acc) dys acc).
Proof.
  induction dys as [|dy dys IH]; intros acc Hacc; cbn [fold_left]; [done|].
  apply IH. now apply maxAlpha_inner.
Qed.

Lemma maxAlpha_above radius :
  byte a -> rd (data img) ((y * width img + x) * 4 + 3) = Some a ->
  exists m, maxAlpha img radius x y = Some m /\ a <= m /\ byte m.
Proof.
  intros Ha Hr. unfold maxAlpha. apply maxAlpha_outer.
  exists a. split; [done | split; [lia | done]].
Qed.
End MaxAlpha.

Section MorphCells.
Variables (img : ImageData) (radius : Z).
Hypothesis img_wf : wfImage img.

Lemma rd_erode p c :
  0 <= p < width img * height img -> 0 <= c <= 3 ->
  rd (data (erode img radius)) (p * 4 + c)
  = Some (erodeCell img radius (p mod width img) (p / width img) c).
Proof.
  intros Hp Hc. pose proof img_wf as [Hw Hh _ _].
  destruct (pixel_coords _ _ p Hw Hp) as (Hx & Hy & Hxy).
  rewrite erode_writeGrid. rewrite Hxy at 1. now apply rd_writeGrid.
Qed.

Lemma rd_dilate p c :
  0 <= p < width img * height img -> 0 <= c <= 3 ->
  rd (data (dilate img radius)) (p * 4 + c)
  = Some (dilateCell img radius (p mod width img) (p / width img) c).
Proof.
  intros Hp Hc. pose proof img_wf as [Hw Hh _ _].
  destruct (pixel_coords _ _ p Hw Hp) as (Hx & Hy & Hxy).
  rewrite dilate_writeGrid. rewrite Hxy at 1. now apply rd_writeGrid.
Qed.

Lemma rd_pixel p c :
  0 <= p < width img * height img -> 0 <= c <= 3 ->
  exists v, rd (data img) (p * 4 + c) = Some v /\ byte v /\
            rd (data img) ((p / width img * width img + p mod width img) * 4 + c) = Some v.
Proof.
  intros Hp Hc. pose proof img_wf as [Hw Hh _ _].
  destruct (pixel_coords _ _ p Hw Hp) as (Hx & Hy & Hxy).
  destruct (rd_inside img _ _ c img_wf Hx Hy Hc) as (v & Hv & Hb).
  exists v. rewrite <- Hxy in Hv. rewrite <- Hxy. done.
Qed.

Lemma erodeCell_byte p c :
  0 <= p < width img * height img -> 0 <= c <= 3 ->
  byte (erodeCell img radius (p mod width img) (p / width img) c).
Proof.
  intros Hp Hc. unfold erodeCell.
  destruct (rd_pixel p 3 Hp ltac:(lia)) as (v3 & _ & Hb3 & ->).
  destruct (rd_pixel p c Hp Hc) as (vc & _ & Hbc & ->).
  case_decide; [|done].
  destruct (hasTransparentNeighbor _ _ _ _); [unfold byte; lia | done].
Qed.

Lemma dilateCell_byte p c :
  0 <= p < width img * height img -> 0 <= c <= 3 ->
  byte (dilateCell img radius (p mod width img) (p / width img) c).
Proof.
  intros Hp Hc. unfold dilateCell.
  destruct (rd_pixel p 3 Hp ltac:(lia)) as (v3 & _ & Hb3 & Hr3).
  destruct (rd_pixel p c Hp Hc) as (vc & _ & Hbc & ->).
  case_decide; [|done].
  destruct (maxAlpha_above img _ _ v3 img_wf radius Hb3 Hr3) as (m & -> & _ & Hm).
  done.
Qed.
End MorphCells.

Lemma wf_from_cells img out :
  wfImage img ->
  Z.of_nat (length out) = width img * height img * 4 ->
  (forall p c, 0 <= p < width img * height img -> 0 <= c <= 3 ->
               exists v, rd out (p * 4 + c) = Some v /\ byte v) ->
  wfImage (mkImageData (width img) (height img) out).
Proof.
  intros [Hw Hh Hl Hb] Hlen Hcells. split; cbn [width height data]; try done.
  apply Forall_lookup_2. intros n v Hn.
  assert (Hj : 0 <= Z.of_nat n < width img * height img * 4).
  { apply lookup_lt_Some in Hn. lia. }
  pose proof (Z.div_mod (Z.of_nat n) 4 ltac:(lia)) as Hd.
  pose proof (Z.mod_pos_bound (Z.of_nat n) 4 ltac:(lia)) as Hm.
  destruct (Hcells (Z.of_nat n / 4) (Z.of_nat n mod 4) ltac:(lia) ltac:(lia)) as (v' & Hr & Hv').
  replace (Z.of_nat n / 4 * 4 + Z.of_nat n mod 4) with (Z.of_nat n) in Hr by lia.
  unfold rd in Hr. rewrite decide_True, Nat2Z.id in Hr by lia. congruence.
Qed.

Lemma dilate_wf img radius : wfImage img -> wfImage (dilate img radius).
Proof.
  intros Hwf. pose proof Hwf as [Hw Hh _ _].
  change (wfImage (mkImageData (width img) (height img) (data (dilate img radius)))).
  apply wf_from_cells; [done | |].
  - rewrite dilate_writeGrid. apply length_writeGrid; lia.
  - intros p c Hp Hc. eexists. split; [now apply rd_dilate|]. now apply dilateCell_byte.
Qed.

(** C4: one erosion pass never raises a pixel's alpha and one dilation pass
    never lowers it. *)
Theorem morphology_monotone img radius p a :
  wfImage img -> alphaAt (data img) p = Some a ->
  (exists e, alphaAt (data (erode img radius)) p = Some e /\ e <= a) /\
  (exists m, alphaAt (data (dilate img radius)) p = Some m /\ a <= m).
Proof.
  intros Hwf Ha. pose proof (alphaAt_inside img p a Hwf Ha) as Hp.
  destruct (rd_pixel img Hwf p 3 Hp ltac:(lia)) as (v & Hv & Hb & Hv').
  unfold alphaAt in Ha |- *. assert (v = a) as -> by congruence.
  split.
  - rewrite rd_erode by (done || lia). eexists. split; [done|].
    unfold erodeCell. rewrite decide_True by done. rewrite Hv'.
    destruct (hasTransparentNeighbor _ _ _ _); [unfold byte in Hb; lia | simpl; lia].
  - rewrite rd_dilate by (done || lia).
    destruct (maxAlpha_above img _ _ a Hwf radius Hb Hv') as (m & Hm & Hle & _).
    exists m. split; [|done].
    unfold dilateCell. rewrite decide_True by done. now rewrite Hm.
Qed.

(** ** Pass 4: the region filter *)

Section Geometry.
Variables (w h : Z).
Hypotheses (w_pos : 0 < w) (h_pos : 0 < h).
Implicit Types (p q : Z).

Lemma elem_of_neighbors p q :
  q ∈ neighbors w h p <->
  (0 < Z.rem p w /\ q = p - 1) \/ (Z.rem p w < w - 1 /\ q = p + 1) \/
  (0 < p / w /\ q = p - w) \/ (p / w < h - 1 /\ q = p + w).
Proof.
  unfold neighbors. rewrite !elem_of_app.
  destruct (Z.ltb_spec 0 (Z.rem p w)), (Z.ltb_spec (Z.rem p w) (w - 1)),
    (Z.ltb_spec 0 (p / w)), (Z.ltb_spec (p / w) (h - 1));
    rewrite ?list_elem_of_singleton, ?elem_of_nil; lia.
Qed.

Lemma length_neighbors p : (length (neighbors w h p) <= 4)%nat.
Proof.
  unfold neighbors. rewrite !length_app.
  repeat (destruct (_ <? _)); simpl; lia.
Qed.

Lemma adj4_sym p q : adj4 w h p q -> adj4 w h q p.
Proof.
  unfold adj4. intros (Hp & Hq & H). split; [done|]. split; [done|].
  revert H. generalize (p / w) (q / w) (p mod w) (q mod w). clear. lia.
Qed.

Lemma neighbors_adj4 p q : inb w h p -> (q ∈ neighbors w h p <-> adj4 w h p q).
Proof.
  intros Hp. unfold inb in Hp.
  destruct (pixel_coords w h p w_pos Hp) as (Hx & Hy & Hxy).
  rewrite elem_of_neighbors, Z.rem_mod_nonneg by lia.
  unfold adj4, inb. split.
  - intros [[H1 ->]|[[H1 ->]|[[H1 ->]|[H1 ->]]]].
    + destruct (proj1 (pixel_index_iff w w_pos (p mod w - 1) (p / w) (p - 1) ltac:(lia))
                  ltac:(lia)) as [E1 E2].
      rewrite E1, E2. split; [lia|]. split; [nia|]. lia.
    + destruct (proj1 (pixel_index_iff w w_pos (p mod w + 1) (p / w) (p + 1) ltac:(lia))
                  ltac:(lia)) as [E1 E2].
      rewrite E1, E2. split; [lia|]. split; [nia|]. lia.
    + destruct (proj1 (pixel_index_iff w w_pos (p mod w) (p / w - 1) (p - w) ltac:(lia))
                  ltac:(lia)) as [E1 E2].
      rewrite E1, E2. split; [lia|]. split; [nia|]. lia.
    + destruct (proj1 (pixel_index_iff w w_pos (p mod w) (p / w + 1) (p + w) ltac:(lia))
                  ltac:(lia)) as [E1 E2].
      rewrite E1, E2. split; [lia|]. split; [nia|]. lia.
  - intros (_ & Hq & H).
    destruct (pixel_coords w h q w_pos Hq) as (Hx' & Hy' & Hxy').
    destruct H as [[E1 [E2|E2]]|[E1 [E2|E2]]].
    + left. split; [lia|]. rewrite <- E1, E2 in Hxy'. lia.
    + right. left. split; [lia|]. rewrite <- E1, E2 in Hxy'. lia.
    + right. right. left. split; [lia|]. rewrite <- E1, E2 in Hxy'. lia.
    + right. right. right. split; [lia|]. rewrite <- E1, E2 in Hxy'. lia.
Qed.

Lemma neighbors_inb p q : inb w h p -> q ∈ neighbors w h p -> inb w h q.
Proof. intros Hp Hq. apply neighbors_adj4 in Hq; [|done]. apply Hq. Qed.

Lemma neighbors_sym p q : inb w h p -> q ∈ neighbors w h p -> p ∈ neighbors w h q.
Proof.
  intros Hp Hq. pose proof (neighbors_inb p q Hp Hq) as Hq'.
  apply neighbors_adj4; [done|]. apply adj4_sym. now apply neighbors_adj4.
Qed.
End Geometry.

#[local] Set Warnings "-clear-no-such-hyp".

Lemma elem_of_rev {A} (l : list A) x : x ∈ rev l <-> x ∈ l.
Proof. rewrite !list_elem_of_In. symmetry. apply in_rev. Qed.

Section FloodFill.
Variables (w h : Z) (d : list Z) (V0 : gset Z) (s : Z).
Hypotheses (w_pos : 0 < w) (h_pos : 0 < h).

Lemma fillInv_init :
  inb w h s -> (forall p, p ∈ V0 -> inb w h p) ->
  fillInv w h d V0 s (mkFill [s] V0 [] 0).
Proof.
  intros Hs HV. split; cbn [stack visited region size].
  - done.
  - intros p Hp. apply list_elem_of_singleton in Hp as ->. done.
  - done.
  - constructor.
  - intros p Hp. inversion Hp.
  - intros p Hp Hn. done.
  - intros p Hp. apply list_elem_of_singleton in Hp as ->. now left.
  - intros r q Hr. inversion Hr.
  - left. now left.
  - done.
Qed.

Lemma floodStep_inv st :
  fillInv w h d V0 s st -> stack st <> [] -> fillInv w h d V0 s (floodStep w h d st).
Proof.
  intros [J1 J2 J3 J4 J5 J6 J7 J8 J9 J10] Hne.
  destruct st as [stk vis reg sz]. cbn [stack visited region size] in *.
  destruct stk as [|idx rest]; [done|]. unfold floodStep. cbn [stack visited region size].
  assert (Hidx : inb w h idx) by (apply J2; left).
  destruct (decide (idx ∈ vis)) as [Hv|Hv].
  { split; cbn [stack visited region size]; try done.
    - intros p Hp. apply J2. now right.
    - intros p Hp. apply J7. now right.
    - intros r q Hr Hq. destruct (J8 r q Hr Hq) as [Hq'|Hq']; [now left|].
      apply elem_of_cons in Hq' as [->|Hq']; [now left | now right].
    - destruct J9 as [Hs|Hs]; [|now right].
      apply elem_of_cons in Hs as [->|Hs]; [now right | now left]. }
  destruct (decide (alphaAt d idx = Some 0)) as [Ha|Ha].
  { split; cbn [stack visited region size]; try done.
    - set_solver.
    - intros p Hp. apply J2. now right.
    - intros p Hp. apply elem_of_union in Hp as [Hp|Hp]; [|now apply J3].
      apply elem_of_singleton in Hp as ->. done.
    - intros p Hp. destruct (J5 p Hp) as (H1 & H2 & H3 & H4).
      split; [set_solver | done].
    - intros p Hp Hn. apply elem_of_union in Hp as [Hp|Hp]; [|now apply J6].
      apply elem_of_singleton in Hp as ->. now right.
    - intros p Hp. apply J7. now right.
    - intros r q Hr Hq. destruct (J8 r q Hr Hq) as [Hq'|Hq']; [left; set_solver|].
      apply elem_of_cons in Hq' as [->|Hq']; [left; set_solver | now right].
    - destruct J9 as [Hs|Hs]; [|right; set_solver].
      apply elem_of_cons in Hs as [->|Hs]; [right; set_solver | now left]. }
  assert (Hnr : idx ∉ reg) by (intros Hr; apply Hv; now apply J5).
  assert (Hn0 : idx ∉ V0) by (intros H0; apply Hv; now apply J1).
  split; cbn [stack visited region size].
  - set_solver.
  - intros p Hp. apply elem_of_app in Hp as [Hp|Hp]; [|apply J2; now right].
    rewrite elem_of_rev in Hp. exact (neighbors_inb w h w_pos h_pos idx p Hidx Hp).
  - intros p Hp. apply elem_of_union in Hp as [Hp|Hp]; [|now apply J3].
    apply elem_of_singleton in Hp as ->. done.
  - apply NoDup_app. split; [done|]. split; [|apply NoDup_singleton].
    intros p Hp Hp'. apply list_elem_of_singleton in Hp' as ->. done.
  - intros p Hp. apply elem_of_app in Hp as [Hp|Hp].
    + destruct (J5 p Hp) as (H1 & H2 & H3 & H4). split; [set_solver | done].
    + apply list_elem_of_singleton in Hp as ->.
      split; [set_solver|]. split; [done|]. split; [done|].
      destruct (J7 idx ltac:(left)) as [->|(r & Hr & Hin)]; [apply rtc_refl|].
      eapply rtc_r; [apply (J5 r Hr)|]. done.
  - intros p Hp Hn. apply elem_of_union in Hp as [Hp|Hp].
    + apply elem_of_singleton in Hp as ->. left. apply elem_of_app. right. left.
    + destruct (J6 p Hp Hn) as [Hr|Hz]; [left; apply elem_of_app; now left | now right].
  - intros p Hp. apply elem_of_app in Hp as [Hp|Hp].
    + rewrite elem_of_rev in Hp. right. exists idx. split; [|done].
      apply elem_of_app. right. left.
    + destruct (J7 p ltac:(now right)) as [->|(r & Hr & Hin)]; [now left|].
      right. exists r. split; [apply elem_of_app; now left | done].
  - intros r q Hr Hq. apply elem_of_app in Hr as [Hr|Hr].
    + destruct (J8 r q Hr Hq) as [Hq'|Hq']; [left; set_solver|].
      apply elem_of_cons in Hq' as [->|Hq']; [left; set_solver|].
      right. apply elem_of_app. now right.
    + apply list_elem_of_singleton in Hr as ->. right. apply elem_of_app. left.
      now rewrite elem_of_rev.
  - destruct J9 as [Hs|Hs]; [|right; set_solver].
    apply elem_of_cons in Hs as [->|Hs]; [right; set_solver|].
    left. apply elem_of_app. now right.
  - rewrite length_app. simpl. lia.
Qed.

Lemma elem_of_pixels p : p ∈ pixels w h <-> inb w h p.
Proof.
  unfold pixels, inb. rewrite elem_of_list_to_set, elem_of_seqZ. lia.
Qed.

Lemma size_pixels : base.size (pixels w h) = Z.to_nat (w * h).
Proof.
  unfold pixels. rewrite size_list_to_set by apply NoDup_seqZ. apply length_seqZ.
Qed.

Lemma size_visit (vis : gset Z) idx :
  inb w h idx -> idx ∉ vis ->
  S (base.size (pixels w h ∖ ({[idx]} ∪ vis))) = base.size (pixels w h ∖ vis).
Proof.
  intros Hin Hv. apply elem_of_pixels in Hin.
  assert (E : pixels w h ∖ vis = {[idx]} ∪ pixels w h ∖ ({[idx]} ∪ vis)).
  { apply set_eq. intros x. destruct (decide (x = idx)) as [->|]; set_solver. }
  assert (Hd : ({[idx]} : gset Z) ## pixels w h ∖ ({[idx]} ∪ vis)) by set_solver.
  rewrite E. rewrite (size_union (C := gset Z) _ _ Hd).
  now rewrite (size_singleton (C := gset Z)).
Qed.

Lemma floodStep_potential st :
  fillInv w h d V0 s st -> stack st <> [] ->
  (potential w h (floodStep w h d st) < potential w h st)%nat.
Proof.
  intros [J1 J2 _ _ _ _ _ _ _ _] Hne.
  destruct st as [stk vis reg sz]. cbn [stack visited region size] in *.
  destruct stk as [|idx rest]; [done|]. unfold floodStep, potential.
  cbn [stack visited region size].
  assert (Hidx : inb w h idx) by (apply J2; left).
  destruct (decide (idx ∈ vis)) as [Hv|Hv]; cbn [stack visited length]; [lia|].
  pose proof (size_visit vis idx Hidx Hv) as Hs.
  destruct (decide (alphaAt d idx = Some 0)) as [Ha|Ha]; cbn [stack visited length]; [lia|].
  rewrite length_app, length_rev. pose proof (length_neighbors w h idx). lia.
Qed.

Lemma potential_init :
  (potential w h (mkFill [s] V0 [] 0) <= fillFuel w h)%nat.
Proof.
  unfold potential, fillFuel. cbn [stack visited length].
  assert (base.size (pixels w h ∖ V0) <= base.size (pixels w h))%nat
    by (apply subseteq_size; set_solver).
  rewrite size_pixels in *. lia.
Qed.

(** The loop ends before the fuel does, in a state with an empty stack. *)
Lemma floodLoop_total fuel : forall st,
  fillInv w h d V0 s st -> (potential w h st <= fuel)%nat ->
  exists st', floodLoop fuel w h d st = Some st' /\
              fillInv w h d V0 s st' /\ stack st' = [].
Proof.
  induction fuel as [|fuel IH]; intros st Hinv Hpot.
  - assert (Hs : stack st = []).
    { unfold potential in Hpot. destruct (stack st); [done | simpl in Hpot; lia]. }
    exists st. simpl. now rewrite Hs.
  - destruct (stack st) as [|idx rest] eqn:Hs.
    + exists st. simpl. now rewrite Hs.
    + simpl. rewrite Hs. apply IH.
      * apply floodStep_inv; [done | now rewrite Hs].
      * pose proof (floodStep_potential st Hinv ltac:(now rewrite Hs)). lia.
Qed.

(** When the stack is empty the region is what can be reached from the seed,
    provided no solid visited pixel was left next to the fill. *)
Lemma fill_region_reach st :
  fillInv w h d V0 s st -> stack st = [] ->
  s ∉ V0 -> solid d s ->
  (forall p q, inb w h p -> p ∉ V0 -> q ∈ V0 -> solid d p -> solid d q ->
               q ∈ neighbors w h p -> False) ->
  forall p, p ∈ region st <-> reach w h d s p.
Proof.
  intros [J1 J2 J3 J4 J5 J6 J7 J8 J9 J10] Hs Hs0 Hsol Hclosed p. split.
  - intros Hp. apply J5. done.
  - unfold reach. revert p. apply (rtc_ind_r (fun p => p ∈ region st)).
    + destruct J9 as [Hin|Hin]; [rewrite Hs in Hin; inversion Hin|].
      destruct (J6 s Hin Hs0) as [Hreg|Hz]; [done | contradiction].
    + intros p q Hpq Hstep IH.
      destruct Hstep as [Hq Hqs]. destruct (J5 p IH) as (Hpv & Hp0 & Hps & _).
      destruct (J8 p q IH Hq) as [Hqv|Hqv]; [|rewrite Hs in Hqv; inversion Hqv].
      destruct (decide (q ∈ V0)) as [Hq0|Hq0].
      * exfalso. exact (Hclosed p q (J3 p Hpv) Hp0 Hq0 Hps Hqs Hq).
      * destruct (J6 q Hqv Hq0) as [Hreg|Hz]; [done | contradiction].
Qed.
End FloodFill.

Lemma length_clearRegion R : forall d, length (clearRegion R d) = length d.
Proof.
  unfold clearRegion. induction R as [|r R IH]; intros d; simpl; [done|].
  now rewrite IH, length_wr.
Qed.

Lemma rd_clearRegion_color R : forall d j,
  j mod 4 <> 3 -> rd (clearRegion R d) j = rd d j.
Proof.
  unfold clearRegion. induction R as [|r R IH]; intros d j Hj; simpl; [done|].
  rewrite IH by done. apply rd_wr_ne. intros <-.
  apply Hj. rewrite Z.add_comm, Z.mod_add by lia. done.
Qed.

Lemma alphaAt_clearRegion_out R : forall d p,
  p ∉ R -> alphaAt (clearRegion R d) p = alphaAt d p.
Proof.
  unfold clearRegion. induction R as [|r R IH]; intros d p Hp; simpl; [done|].
  apply not_elem_of_cons in Hp as [Hne Hp].
  rewrite IH by done. unfold alphaAt. apply rd_wr_ne. lia.
Qed.

Lemma alphaAt_clearRegion_in R : forall d p,
  p ∈ R -> is_Some (alphaAt d p) -> alphaAt (clearRegion R d) p = Some 0.
Proof.
  unfold clearRegion. induction R as [|r R IH]; intros d p Hp Hs; [inversion Hp|].
  cbn [fold_left]. fold (clearRegion R (wr d (r * 4 + 3) 0)).
  assert (Hin : 0 <= p * 4 + 3 < Z.of_nat (length d)).
  { destruct Hs as [a Ha]. exact (rd_Some _ _ _ Ha). }
  destruct (decide (p ∈ R)) as [HR|HR].
  - apply IH; [done|]. unfold alphaAt. apply rd_is_Some. now rewrite length_wr.
  - apply elem_of_cons in Hp as [->|Hp]; [|done].
    rewrite alphaAt_clearRegion_out by done. unfold alphaAt. now apply rd_wr_eq.
Qed.

Section FloodFillCall.
Variables (w h minSize : Z) (d : list Z) (V0 : gset Z) (s : Z).
Hypotheses (w_pos : 0 < w) (h_pos : 0 < h).

(** One call of [floodFill] on an unvisited solid seed: it returns, the
    region is the set of pixels reached from the seed, and it is cleared
    exactly when it has fewer than [minSize] pixels. *)
Lemma floodFill_spec :
  inb w h s -> s ∉ V0 -> solid d s ->
  (forall p, p ∈ V0 -> inb w h p) ->
  (forall p q, inb w h p -> p ∉ V0 -> q ∈ V0 -> solid d p -> solid d q ->
               q ∈ neighbors w h p -> False) ->
  exists R V',
    floodFill w h minSize s V0 d
    = Some (Z.of_nat (length R), V',
            if Z.of_nat (length R) <? minSize then clearRegion R d else d) /\
    NoDup R /\
    (forall p, p ∈ R <-> reach w h d s p) /\
    V0 ⊆ V' /\
    (forall p, p ∈ V' -> inb w h p) /\
    (forall p, p ∈ R -> p ∈ V' /\ p ∉ V0) /\
    (forall p, p ∈ V' -> p ∉ V0 -> p ∈ R \/ alphaAt d p = Some 0).
Proof.
  intros Hs Hs0 Hsol HV Hclosed.
  destruct (floodLoop_total w h d V0 s w_pos h_pos (fillFuel w h) (mkFill [s] V0 [] 0))
    as (st & Hrun & Hinv & Hstack).
  { now apply fillInv_init. }
  { now apply potential_init. }
  exists (region st), (visited st).
  pose proof (fill_region_reach w h d V0 s st Hinv Hstack Hs0 Hsol) as Hreach.
  destruct Hinv as [J1 J2 J3 J4 J5 J6 J7 J8 J9 J10].
  split; [|split; [done|split; [|split; [done|split; [done|split]]]]].
  - unfold floodFill. rewrite Hrun, J10. done.
  - apply Hreach. exact Hclosed.
  - intros p Hp. destruct (J5 p Hp) as (H1 & H2 & _). done.
  - done.
Qed.
End FloodFillCall.

Section Connectivity.
Variables (w h : Z) (d : list Z).
Implicit Types (p q r : Z) (R : list Z).

Lemma link_sym p q : link w h d p q -> link w h d q p.
Proof.
  intros (Hp & Hq & Ha). split; [done|]. split; [done|]. now apply adj4_sym.
Qed.

Lemma rtc_link_sym p q : rtc (link w h d) p q -> rtc (link w h d) q p.
Proof.
  induction 1 as [|p q r Hpq Hqr IH]; [apply rtc_refl|].
  eapply rtc_r; [exact IH|]. now apply link_sym.
Qed.

Lemma connected_refl p : opaque w h d p -> connected w h d p p.
Proof. intros Hp. split; [done | apply rtc_refl]. Qed.

Lemma connected_opaque_r p q : connected w h d p q -> opaque w h d q.
Proof.
  intros [Hp Hr]. induction Hr as [|p q r Hpq Hqr IH]; [done|].
  apply IH. apply Hpq.
Qed.

Lemma connected_sym p q : connected w h d p q -> connected w h d q p.
Proof.
  intros Hc. split; [exact (connected_opaque_r p q Hc)|].
  apply rtc_link_sym, Hc.
Qed.

Lemma connected_trans p q r :
  connected w h d p q -> connected w h d q r -> connected w h d p r.
Proof.
  intros [Hp Hpq] [_ Hqr]. split; [done|]. etrans; done.
Qed.

Lemma connected_step p q r :
  connected w h d p q -> link w h d q r -> connected w h d p r.
Proof.
  intros [Hp Hpq] Hl. split; [done|]. eapply rtc_r; done.
Qed.

(** Two listings of the region of one pixel have the same length. *)
Lemma isRegion_length R R' p :
  isRegion w h d R -> isRegion w h d R' -> p ∈ R -> p ∈ R' -> length R = length R'.
Proof.
  intros (_ & Hnd & HR) (_ & Hnd' & HR') Hp Hp'.
  apply Permutation_length. apply NoDup_Permutation; [done | done|].
  intros q. rewrite (proj2 (HR p Hp) q), (proj2 (HR' p Hp') q). done.
Qed.

(** The pixels connected to an opaque pixel, once listed without
    repetition, form a region. *)
Lemma isRegion_of_connected R s :
  opaque w h d s -> NoDup R -> (forall p, p ∈ R <-> connected w h d s p) ->
  isRegion w h d R.
Proof.
  intros Hs Hnd HR. split; [|split; [done|]].
  - intros ->. pose proof (proj2 (HR s) (connected_refl s Hs)) as Hin. inversion Hin.
  - intros p Hp. apply HR in Hp. split; [exact (connected_opaque_r s p Hp)|].
    intros q. rewrite HR. split; intros Hq.
    + exact (connected_trans p s q (connected_sym s p Hp) Hq).
    + exact (connected_trans s p q Hp Hq).
Qed.
End Connectivity.

Section Scan.
Variables (w h minSize : Z) (d0 : list Z).
Hypotheses (w_pos : 0 < w) (h_pos : 0 < h).
Hypothesis d0_length : Z.of_nat (length d0) = w * h * 4.
Hypothesis d0_bytes : Forall byte d0.
Implicit Types (p q i : Z) (V : gset Z) (d : list Z).

Lemma alpha_present p : inb w h p -> exists a, alphaAt d0 p = Some a /\ byte a.
Proof.
  intros Hp. unfold inb in Hp. unfold alphaAt.
  destruct (rd_is_Some d0 (p * 4 + 3) ltac:(lia)) as [a Ha].
  exists a. split; [done|]. exact (rd_byte _ _ _ d0_bytes Ha).
Qed.

Lemma opaque_of_solid p : inb w h p -> solid d0 p -> opaque w h d0 p.
Proof.
  intros Hp Hs. destruct (alpha_present p Hp) as (a & Ha & Hb).
  split; [done|]. exists a. split; [done|].
  unfold solid in Hs. rewrite Ha in Hs. unfold byte in Hb.
  destruct (decide (a = 0)) as [->|]; [done | lia].
Qed.

Lemma solid_of_opaque d p : (exists a, alphaAt d p = Some a /\ 0 < a) -> solid d p.
Proof. intros (a & Ha & Hpos). unfold solid. rewrite Ha. intros [= ->]. lia. Qed.

Lemma scanInv_init : scanInv w h minSize d0 ∅ d0.
Proof.
  split; done.
Qed.

Section Step.
Variables (V : gset Z) (d : list Z).
Hypothesis inv : scanInv w h minSize d0 V d.

Lemma scan_solid_opaque p : inb w h p -> solid d p -> opaque w h d0 p.
Proof.
  intros Hp Hs. destruct (alpha_present p Hp) as (a & Ha & Hb).
  destruct (decide (0 < a)) as [Hpos|Hz].
  - split; [done|]. eauto.
  - exfalso. apply Hs. rewrite (si_untouched _ _ _ _ _ _ inv p).
    + rewrite Ha. unfold byte in Hb. f_equal. lia.
    + right. intros (_ & a' & Ha' & Hpos). rewrite Ha in Ha'. injection Ha' as <-. lia.
Qed.

Lemma scan_unvisited_solid p : p ∉ V -> opaque w h d0 p -> solid d p.
Proof.
  intros Hp (_ & Ho). apply solid_of_opaque.
  rewrite (si_untouched _ _ _ _ _ _ inv p); [done | now left].
Qed.

Lemma scan_closed p q :
  inb w h p -> p ∉ V -> q ∈ V -> solid d p -> solid d q ->
  q ∈ neighbors w h p -> False.
Proof.
  intros Hp HpV HqV Hsp Hsq Hn.
  pose proof (si_visited_inb _ _ _ _ _ _ inv q HqV) as Hq.
  pose proof (scan_solid_opaque p Hp Hsp) as Hop.
  pose proof (scan_solid_opaque q Hq Hsq) as Hoq.
  destruct (si_decided _ _ _ _ _ _ inv q HqV Hoq) as (R & HR & HqR & HRV & _).
  apply HpV, HRV. destruct HR as (_ & _ & HR). apply (proj2 (HR q HqR) p).
  split; [done|]. apply rtc_once. split; [done|]. split; [done|].
  apply adj4_sym. now apply neighbors_adj4.
Qed.

Lemma scan_reach_connected i p :
  inb w h i -> i ∉ V -> solid d i ->
  reach w h d i p <-> connected w h d0 i p.
Proof.
  intros Hi HiV Hsi.
  pose proof (scan_solid_opaque i Hi Hsi) as Hoi.
  split.
  - intros Hr.
    assert (Hg : connected w h d0 i p /\ p ∉ V); [|apply Hg].
    revert p Hr. apply (rtc_ind_r (fun p => connected w h d0 i p /\ p ∉ V)).
    + split; [now apply connected_refl | done].
    + intros p q _ [Hn Hsq] [Hc HpV].
      pose proof (connected_opaque_r _ _ _ _ _ Hc) as Hop.
      assert (Hp : inb w h p) by apply Hop.
      assert (Hq : inb w h q) by exact (neighbors_inb w h w_pos h_pos p q Hp Hn).
      assert (HqV : q ∉ V).
      { intros HqV. exact (scan_closed p q Hp HpV HqV (scan_unvisited_solid p HpV Hop) Hsq Hn). }
      split; [|done].
      apply (connected_step _ _ _ _ p); [done|].
      split; [done|]. split; [now apply scan_solid_opaque|]. now apply neighbors_adj4.
  - intros [_ Hr].
    assert (Hg : reach w h d i p /\ connected w h d0 i p); [|apply Hg].
    revert p Hr. apply (rtc_ind_r (fun p => reach w h d i p /\ connected w h d0 i p)).
    + split; [apply rtc_refl | now apply connected_refl].
    + intros p q _ Hl [Hr Hc].
      assert (Hcq : connected w h d0 i q) by exact (connected_step _ _ _ _ _ _ Hc Hl).
      split; [|done].
      destruct Hl as (Hop & Hoq & Ha).
      assert (HqV : q ∉ V).
      { intros HqV.
        destruct (si_decided _ _ _ _ _ _ inv q HqV Hoq) as (R & HR & HqR & HRV & _).
        apply HiV, HRV. destruct HR as (_ & _ & HR). apply (proj2 (HR q HqR) i).
        now apply connected_sym. }
      eapply rtc_r; [exact Hr|]. split.
      * apply neighbors_adj4; first [done | apply Hop].
      * now apply scan_unvisited_solid.
Qed.

Lemma isSeed_true i :
  isSeed V d i = true -> (i ∉ V) /\ solid d i.
Proof.
  unfold isSeed. rewrite andb_true_iff, bool_decide_eq_true. intros [HiV Ha].
  split; [done|]. destruct (alphaAt d i) as [a|] eqn:E; [|done].
  apply solid_of_opaque. exists a. split; [done | lia].
Qed.

Lemma isSeed_false i :
  isSeed V d i = false -> opaque w h d0 i -> i ∈ V.
Proof.
  unfold isSeed. intros Hf (Hi & a & Ha & Hpos).
  destruct (decide (i ∈ V)) as [|HiV]; [done|]. exfalso.
  rewrite (bool_decide_eq_true_2 _ HiV) in Hf.
  rewrite (si_untouched _ _ _ _ _ _ inv i ltac:(now left)), Ha in Hf.
  simpl in Hf. lia.
Qed.

(** One iteration of the seed loop keeps the invariant and leaves the
    candidate visited if it is opaque. *)
Lemma scanStep_inv i :
  inb w h i ->
  exists V' d',
    scanStep w h minSize (Some (V, d)) i = Some (V', d') /\
    scanInv w h minSize d0 V' d' /\ V ⊆ V' /\ (opaque w h d0 i -> i ∈ V').
Proof.
  intros Hi. unfold scanStep. destruct (isSeed V d i) eqn:Eseed.
  2:{ exists V, d. split; [done|]. split; [done|]. split; [done|]. now apply isSeed_false. }
  destruct (isSeed_true i Eseed) as [HiV Hsi].
  destruct (floodFill_spec w h minSize d V i w_pos h_pos Hi HiV Hsi
              (si_visited_inb _ _ _ _ _ _ inv) scan_closed)
    as (R & V' & Hrun & Hnd & Hreach & Hsub & Hinb & HRV & Hnew).
  rewrite Hrun.
  set (d' := if Z.of_nat (length R) <? minSize then clearRegion R d else d).
  exists V', d'. split; [done|].
  pose proof (scan_solid_opaque i Hi Hsi) as Hoi.
  assert (HR : isRegion w h d0 R).
  { apply (isRegion_of_connected _ _ _ _ i); [done | done|].
    intros p. rewrite Hreach. now apply scan_reach_connected. }
  assert (Hout : forall p, p ∉ R -> alphaAt d' p = alphaAt d p).
  { intros p Hp. unfold d'. destruct (_ <? _); [|done]. now apply alphaAt_clearRegion_out. }
  assert (HiR : i ∈ R) by (apply Hreach, rtc_refl).
  split; [|split; [done|]]; [|intros _; now apply HRV].
  split.
  - unfold d'. destruct (_ <? _); [|apply (si_length _ _ _ _ _ _ inv)].
    rewrite length_clearRegion. apply (si_length _ _ _ _ _ _ inv).
  - intros j Hj. unfold d'. destruct (_ <? _); [|now apply (si_color _ _ _ _ _ _ inv)].
    rewrite rd_clearRegion_color by done. now apply (si_color _ _ _ _ _ _ inv).
  - intros p Hp.
    assert (HpR : p ∉ R).
    { intros HpR. destruct Hp as [Hp|Hp]; [apply Hp; now apply HRV|].
      apply Hp. destruct HR as (_ & _ & HR). now apply HR. }
    rewrite Hout by done. apply (si_untouched _ _ _ _ _ _ inv).
    destruct Hp as [Hp|Hp]; [left | now right]. intros HpV. apply Hp. now apply Hsub.
  - done.
  - intros p HpV' Hop. destruct (decide (p ∈ V)) as [HpV|HpV].
    + destruct (si_decided _ _ _ _ _ _ inv p HpV Hop) as (R0 & HR0 & HpR0 & HR0V & Ha).
      exists R0. split; [done|]. split; [done|]. split.
      * intros q Hq. apply Hsub. now apply HR0V.
      * rewrite Hout; [done|]. intros HpR. now apply (HRV p HpR).
    + assert (HpR : p ∈ R).
      { destruct (Hnew p HpV' HpV) as [|Hz]; [done|]. exfalso.
        exact (scan_unvisited_solid p HpV Hop Hz). }
      exists R. split; [done|]. split; [done|]. split; [intros q Hq; now apply HRV|].
      unfold d'. destruct (_ <? _).
      * apply alphaAt_clearRegion_in; [done|].
        rewrite (si_untouched _ _ _ _ _ _ inv p ltac:(now left)).
        destruct Hop as (_ & a & -> & _). eauto.
      * apply (si_untouched _ _ _ _ _ _ inv). now left.
Qed.
End Step.

(** The seed loop over any list of pixel indices. *)
Lemma scan_fold order : forall V d,
  (forall i, i ∈ order -> inb w h i) ->
  scanInv w h minSize d0 V d ->
  exists V' d',
    fold_left (scanStep w h minSize) order (Some (V, d)) = Some (V', d') /\
    scanInv w h minSize d0 V' d' /\ V ⊆ V' /\
    (forall i, i ∈ order -> opaque w h d0 i -> i ∈ V').
Proof.
  induction order as [|i order IH]; intros V d Hin Hinv; cbn [fold_left].
  - exists V, d. split; [done|]. split; [done|]. split; [done|].
    intros i Hi. inversion Hi.
  - destruct (scanStep_inv V d Hinv i ltac:(apply Hin; left))
      as (V1 & d1 & -> & Hinv1 & Hsub1 & Hi1).
    destruct (IH V1 d1 ltac:(intros j Hj; apply Hin; now right) Hinv1)
      as (V' & d' & Hrun & Hinv' & Hsub' & Hcov).
    exists V', d'. split; [done|]. split; [done|]. split; [set_solver|].
    intros j Hj Hoj. apply elem_of_cons in Hj as [->|Hj]; [|now apply Hcov].
    apply Hsub'. now apply Hi1.
Qed.

(** The filter returns; it changes no colour cell; every opaque pixel among
    the candidates is cleared exactly when its region has fewer than
    [minSize] pixels, and no other alpha cell changes. *)
Lemma regionFilterOrder_spec order :
  (forall i, i ∈ order -> inb w h i) ->
  exists d',
    regionFilterOrder order w h minSize d0 = Some d' /\
    length d' = length d0 /\
    (forall j, j mod 4 <> 3 -> rd d' j = rd d0 j) /\
    (forall p, ~ opaque w h d0 p -> alphaAt d' p = alphaAt d0 p) /\
    (forall p, opaque w h d0 p ->
       alphaAt d' p = alphaAt d0 p \/ alphaAt d' p = Some 0) /\
    (forall p, p ∈ order -> opaque w h d0 p -> exists R, isRegion w h d0 R /\ p ∈ R) /\
    (forall p R, p ∈ order -> isRegion w h d0 R -> p ∈ R ->
       alphaAt d' p = if Z.of_nat (length R) <? minSize then Some 0 else alphaAt d0 p).
Proof.
  intros Hin.
  destruct (scan_fold order ∅ d0 Hin scanInv_init) as (V & d' & Hrun & Hinv & _ & Hcov).
  exists d'. unfold regionFilterOrder. rewrite Hrun.
  split; [done|]. split; [apply (si_length _ _ _ _ _ _ Hinv)|].
  split; [apply (si_color _ _ _ _ _ _ Hinv)|].
  split; [intros p Hp; apply (si_untouched _ _ _ _ _ _ Hinv); now right|].
  split; [|split].
  - intros p Hop. destruct (decide (p ∈ V)) as [HpV|HpV].
    + destruct (si_decided _ _ _ _ _ _ Hinv p HpV Hop) as (R & _ & _ & _ & ->).
      destruct (_ <? _); [now right | now left].
    + left. apply (si_untouched _ _ _ _ _ _ Hinv). now left.
  - intros p Hp Hop.
    destruct (si_decided _ _ _ _ _ _ Hinv p (Hcov p Hp Hop) Hop) as (R & HR & HpR & _).
    eauto.
  - intros p R Hp HR HpR.
    assert (Hop : opaque w h d0 p) by (destruct HR as (_ & _ & HR); now apply HR).
    destruct (si_decided _ _ _ _ _ _ Hinv p (Hcov p Hp Hop) Hop) as (R' & HR' & HpR' & _ & ->).
    now rewrite (isRegion_length w h d0 R R' p HR HR' HpR HpR').
Qed.
End Scan.

(** ** The passes on well-formed images *)

Lemma wfImageb_wf img : wfImageb img = true -> wfImage img.
Proof.
  unfold wfImageb. rewrite !andb_true_iff, !Z.ltb_lt, Z.eqb_eq, forallb_forall.
  intros [[[Hw Hh] Hl] Hb]. split; try done.
  apply Forall_forall. intros v Hv. apply list_elem_of_In, Hb in Hv.
  unfold byte. lia.
Qed.

Lemma keyPass_wf bgColor tolerance img :
  wfImage img -> wfImage (keyPass bgColor tolerance img).
Proof.
  intros Hwf. pose proof Hwf as [Hw Hh Hl Hb]. unfold keyPass.
  apply wf_from_cells; [done | now rewrite length_chromaKey |].
  intros p c Hp Hc. destruct (decide (c = 3)) as [->|Hc3].
  - destruct (rd_pixel img Hwf p 3 Hp ltac:(lia)) as (a & Ha & Hba & _).
    destruct (pixelAt_present (data img) p a ltac:(lia) Ha) as (r & g & b & Hpx).
    exists (keyAlpha bgColor tolerance r g b a). split.
    + exact (pixelAt_alpha _ _ _ _ _ _ (chromaKey_pixel _ _ _ _ _ _ _ _ Hpx Hba)).
    + now apply keyAlpha_byte.
  - rewrite rd_chromaKey_color by lia.
    destruct (rd_pixel img Hwf p c Hp Hc) as (v & Hv & Hbv & _). eauto.
Qed.

Lemma morphology_wf img : wfImage img -> wfImage (morphology img).
Proof.
  intros Hwf. unfold morphology.
  repeat first [apply dilate_wf | apply erode_wf]. done.
Qed.

Lemma erode_color img radius p c :
  wfImage img -> 0 <= p < width img * height img -> 0 <= c <= 2 ->
  rd (data (erode img radius)) (p * 4 + c) = rd (data img) (p * 4 + c).
Proof.
  intros Hwf Hp Hc. rewrite rd_erode by (done || lia).
  destruct (rd_pixel img Hwf p c Hp ltac:(lia)) as (v & -> & _ & Hv).
  unfold erodeCell. rewrite decide_False by lia. now rewrite Hv.
Qed.

Lemma dilate_color img radius p c :
  wfImage img -> 0 <= p < width img * height img -> 0 <= c <= 2 ->
  rd (data (dilate img radius)) (p * 4 + c) = rd (data img) (p * 4 + c).
Proof.
  intros Hwf Hp Hc. rewrite rd_dilate by (done || lia).
  destruct (rd_pixel img Hwf p c Hp ltac:(lia)) as (v & -> & _ & Hv).
  unfold dilateCell. rewrite decide_False by lia. now rewrite Hv.
Qed.

Lemma color_cell_mod p c : 0 <= c <= 2 -> (p * 4 + c) mod 4 <> 3.
Proof.
  intros Hc. rewrite Z.add_comm, Z.mod_add by lia. rewrite Z.mod_small by lia. lia.
Qed.

Lemma elem_of_raster w h p : p ∈ seqZ 0 (w * h) <-> inb w h p.
Proof. unfold inb. rewrite elem_of_seqZ. lia. Qed.

(** The region pass on a well-formed image, in raster order. *)
Lemma regionPass_spec minSize img :
  wfImage img ->
  exists out,
    regionPass minSize img = Some out /\
    width out = width img /\ height out = height img /\
    length (data out) = length (data img) /\
    (forall j, j mod 4 <> 3 -> rd (data out) j = rd (data img) j) /\
    (forall p, alphaAt (data out) p = alphaAt (data img) p \/ alphaAt (data out) p = Some 0) /\
    (forall p R, isRegion (width img) (height img) (data img) R -> p ∈ R ->
       alphaAt (data out) p
       = if Z.of_nat (length R) <? minSize then Some 0 else alphaAt (data img) p).
Proof.
  intros [Hw Hh Hl Hb].
  destruct (regionFilterOrder_spec (width img) (height img) minSize (data img)
              Hw Hh Hl Hb (seqZ 0 (width img * height img)))
    as (d' & Hrun & Hlen & Hcol & Hno & Hop & _ & Hreg).
  { intros i Hi. now apply elem_of_raster. }
  exists (mkImageData (width img) (height img) d').
  unfold regionPass, regionFilter. rewrite Hrun. cbn [width height data].
  split; [done|]. split; [done|]. split; [done|]. split; [done|]. split; [done|]. split.
  - intros p.
    destruct (decide (inb (width img) (height img) p)) as [Hp|Hp].
    + destruct (alpha_present _ _ _ Hl Hb p Hp) as (a & Ha & Hba).
      destruct (decide (0 < a)) as [Hpos|Hz].
      * apply Hop. split; [done|]. eauto.
      * left. apply Hno. intros (_ & a' & Ha' & Hpos). rewrite Ha in Ha'.
        injection Ha' as <-. lia.
    + left. apply Hno. intros [Hin _]. done.
  - intros p R HR HpR. apply Hreg; [|done | done].
    apply elem_of_raster. destruct HR as (_ & _ & HR). apply (HR p HpR).
Qed.

(** ** The region filter: threshold and scan order *)

(** An opaque pixel none of whose 4-neighbours is opaque is a region by itself. *)
Lemma isolated_region w h d p :
  opaque w h d p -> (forall q, adj4 w h p q -> ~ opaque w h d q) ->
  isRegion w h d [p].
Proof.
  intros Hp Hiso. apply (isRegion_of_connected w h d [p] p); [done | apply NoDup_singleton|].
  intros q. rewrite list_elem_of_singleton. split.
  - intros ->. now apply connected_refl.
  - intros [_ Hr]. apply rtc_inv in Hr as [Heq|(r & (_ & Hor & Ha) & _)]; [done|].
    exfalso. exact (Hiso r Ha Hor).
Qed.

(** C5: in the region filter with threshold minRegionSize, a maximal
    4-connected region of opaque pixels with exactly minRegionSize pixels
    keeps its alpha values, one with minRegionSize - 1 pixels has every pixel
    set to alpha 0, and an opaque pixel with no opaque 4-neighbour is cleared
    whenever minRegionSize > 1.  (More generally a region is cleared exactly
    when it has fewer than minRegionSize pixels.) *)
Theorem region_filter_threshold minSize img :
  wfImage img ->
  exists out,
    regionPass minSize img = Some out /\
    (forall R p, isRegion (width img) (height img) (data img) R -> p ∈ R ->
       (Z.of_nat (length R) = minSize -> alphaAt (data out) p = alphaAt (data img) p) /\
       (Z.of_nat (length R) = minSize - 1 -> alphaAt (data out) p = Some 0) /\
       (Z.of_nat (length R) < minSize <-> alphaAt (data out) p = Some 0)) /\
    (forall p, opaque (width img) (height img) (data img) p ->
       (forall q, adj4 (width img) (height img) p q ->
                  ~ opaque (width img) (height img) (data img) q) ->
       1 < minSize -> alphaAt (data out) p = Some 0).
Proof.
  intros Hwf.
  destruct (regionPass_spec minSize img Hwf) as (out & Hrun & _ & _ & _ & _ & _ & Hreg).
  exists out. split; [done|]. split.
  - intros R p HR HpR. rewrite (Hreg p R HR HpR).
    destruct HR as (_ & _ & HR). destruct (HR p HpR) as [(_ & a & Ha & Hpos) _].
    destruct (Z.ltb_spec (Z.of_nat (length R)) minSize) as [Hlt|Hge].
    + split; [lia|]. split; [done|]. done.
    + split; [done|]. split; [lia|]. rewrite Ha. split; [lia|].
      intros [= ->]. lia.
  - intros p Hop Hiso Hm.
    rewrite (Hreg p [p] (isolated_region _ _ _ p Hop Hiso) ltac:(left)).
    simpl length. destruct (Z.ltb_spec (Z.of_nat 1) minSize); [done | lia].
Qed.

(** C6: the output of the region filter does not depend on the order in
    which the pixels are tried as flood-fill seeds: any two orders that
    enumerate the pixels give the same buffer, hence the same set of pixels
    with alpha 0. *)
Theorem region_filter_order_independent minSize img order1 order2 :
  wfImage img ->
  Permutation order1 (seqZ 0 (width img * height img)) ->
  Permutation order2 (seqZ 0 (width img * height img)) ->
  exists d1 d2,
    regionFilterOrder order1 (width img) (height img) minSize (data img) = Some d1 /\
    regionFilterOrder order2 (width img) (height img) minSize (data img) = Some d2 /\
    d1 = d2 /\
    forall p, alphaAt d1 p = Some 0 <-> alphaAt d2 p = Some 0.
Proof.
  intros [Hw Hh Hl Hb] Hp1 Hp2.
  assert (Hin : forall order, Permutation order (seqZ 0 (width img * height img)) ->
                forall i, i ∈ order <-> inb (width img) (height img) i).
  { intros order Hperm i. rewrite Hperm. apply elem_of_raster. }
  destruct (regionFilterOrder_spec (width img) (height img) minSize (data img)
              Hw Hh Hl Hb order1 ltac:(intros i Hi; now apply (Hin order1 Hp1)))
    as (d1 & Hrun1 & Hlen1 & Hcol1 & Hno1 & _ & Hex1 & Hreg1).
  destruct (regionFilterOrder_spec (width img) (height img) minSize (data img)
              Hw Hh Hl Hb order2 ltac:(intros i Hi; now apply (Hin order2 Hp2)))
    as (d2 & Hrun2 & Hlen2 & Hcol2 & Hno2 & _ & Hex2 & Hreg2).
  assert (E : d1 = d2); [|subst d2; exists d1, d1; done].
  apply rd_ext. intros j.
  destruct (decide (j mod 4 = 3)) as [Hj|Hj]; [|now rewrite Hcol1, Hcol2].
  pose proof (Z.div_mod j 4 ltac:(lia)) as Hd. rewrite Hj in Hd.
  replace j with (j / 4 * 4 + 3) by lia. set (p := j / 4).
  change (alphaAt d1 p = alphaAt d2 p).
  destruct (decide (inb (width img) (height img) p)) as [Hp|Hp].
  - destruct (alpha_present _ _ _ Hl Hb p Hp) as (a & Ha & Hba).
    destruct (decide (0 < a)) as [Hpos|Hz].
    + assert (Hop : opaque (width img) (height img) (data img) p) by (split; eauto).
      destruct (Hex1 p ltac:(now apply (Hin order1 Hp1)) Hop) as (R & HR & HpR).
      rewrite (Hreg1 p R ltac:(now apply (Hin order1 Hp1)) HR HpR).
      rewrite (Hreg2 p R ltac:(now apply (Hin order2 Hp2)) HR HpR). done.
    + assert (Hnop : ~ opaque (width img) (height img) (data img) p).
      { intros (_ & a' & Ha' & Hpos). rewrite Ha in Ha'. injection Ha' as <-. lia. }
      now rewrite Hno1, Hno2.
  - assert (Hnop : ~ opaque (width img) (height img) (data img) p) by (intros [Hi _]; done).
    now rewrite Hno1, Hno2.
Qed.

Lemma region_filter_threshold_witness :
  exists out,
    regionPass 3 specks = Some out /\
    (forall R p, isRegion (width specks) (height specks) (data specks) R -> p ∈ R ->
       (Z.of_nat (length R) = 3 -> alphaAt (data out) p = alphaAt (data specks) p) /\
       (Z.of_nat (length R) = 3 - 1 -> alphaAt (data out) p = Some 0) /\
       (Z.of_nat (length R) < 3 <-> alphaAt (data out) p = Some 0)) /\
    (forall p, opaque (width specks) (height specks) (data specks) p ->
       (forall q, adj4 (width specks) (height specks) p q ->
                  ~ opaque (width specks) (height specks) (data specks) q) ->
       1 < 3 -> alphaAt (data out) p = Some 0).
Proof.
  apply (region_filter_threshold 3 specks).
  apply wfImageb_wf. vm_compute. reflexivity.
Defined.

Lemma region_filter_order_independent_witness :
  exists d1 d2,
    regionFilterOrder (seqZ 0 (width specks * height specks))
      (width specks) (height specks) 4 (data specks) = Some d1 /\
    regionFilterOrder (rev (seqZ 0 (width specks * height specks)))
      (width specks) (height specks) 4 (data specks) = Some d2 /\
    d1 = d2 /\
    forall p, alphaAt d1 p = Some 0 <-> alphaAt d2 p = Some 0.
Proof.
  apply (region_filter_order_independent 4 specks).
  - apply wfImageb_wf. vm_compute. reflexivity.
  - reflexivity.
  - apply Permutation_sym, Permutation_rev.
Defined.

Lemma morphology_monotone_witness :
  (exists e, alphaAt (data (erode specks 1)) 5 = Some e /\ e <= 9) /\
  (exists m, alphaAt (data (dilate specks 1)) 5 = Some m /\ 9 <= m).
Proof.
  apply (morphology_monotone specks 1 5 9).
  - apply wfImageb_wf. vm_compute. reflexivity.
  - reflexivity.
Defined.

(** ** The whole pipeline *)

Lemma morphology_color img p c :
  wfImage img -> 0 <= p < width img * height img -> 0 <= c <= 2 ->
  rd (data (morphology img)) (p * 4 + c) = rd (data img) (p * 4 + c).
Proof.
  intros Hwf Hp Hc. unfold morphology.
  pose proof (erode_wf img 1 Hwf) as H1.
  pose proof (erode_wf _ 1 H1) as H2.
  pose proof (dilate_wf _ 1 H2) as H3.
  rewrite dilate_color by done. rewrite dilate_color by done.
  rewrite erode_color by done. now rewrite erode_color.
Qed.

(** The pipeline returns on every well-formed image, whatever the threshold. *)
Lemma cutout_spec minSize bgColor tolerance img :
  wfImage img ->
  exists out,
    cutout minSize bgColor tolerance img = Some out /\
    (forall p c, 0 <= p < width img * height img -> 0 <= c <= 2 ->
       rd (data out) (p * 4 + c) = rd (data img) (p * 4 + c)) /\
    (forall p, alphaAt (data out) p
               = alphaAt (data (morphology (keyPass bgColor tolerance img))) p \/
               alphaAt (data out) p = Some 0) /\
    (forall p R,
       isRegion (width img) (height img)
         (data (morphology (keyPass bgColor tolerance img))) R -> p ∈ R ->
       alphaAt (data out) p
       = if Z.of_nat (length R) <? minSize then Some 0
         else alphaAt (data (morphology (keyPass bgColor tolerance img))) p).
Proof.
  intros Hwf. unfold cutout.
  pose proof (keyPass_wf bgColor tolerance img Hwf) as Hk.
  pose proof (morphology_wf _ Hk) as Hm.
  destruct (regionPass_spec minSize _ Hm) as (out & -> & _ & _ & _ & Hcol & Halpha & Hreg).
  exists out. split; [done|]. split; [|split; [done|done]].
  intros p c Hp Hc. rewrite Hcol by now apply color_cell_mod.
  rewrite morphology_color by done.
  apply rd_chromaKey_color. done.
Qed.

(** C8: no pass writes a colour cell: the red, green and blue cells of
    every pixel are the same after the chroma key, after an erosion, after a
    dilation, after the region filter, and after the whole pipeline. *)
Theorem rgb_channels_unchanged bgColor tolerance radius minSize img p c :
  wfImage img -> 0 <= p < width img * height img -> 0 <= c <= 2 ->
  rd (data (keyPass bgColor tolerance img)) (p * 4 + c) = rd (data img) (p * 4 + c) /\
  rd (data (erode img radius)) (p * 4 + c) = rd (data img) (p * 4 + c) /\
  rd (data (dilate img radius)) (p * 4 + c) = rd (data img) (p * 4 + c) /\
  (exists out, regionPass minSize img = Some out /\
               rd (data out) (p * 4 + c) = rd (data img) (p * 4 + c)) /\
  (exists out, cutout minSize bgColor tolerance img = Some out /\
               rd (data out) (p * 4 + c) = rd (data img) (p * 4 + c)).
Proof.
  intros Hwf Hp Hc.
  split; [now apply rd_chromaKey_color|].
  split; [now apply erode_color|].
  split; [now apply dilate_color|].
  split.
  - destruct (regionPass_spec minSize img Hwf) as (out & Hrun & _ & _ & _ & Hcol & _).
    exists out. split; [done|]. apply Hcol. now apply color_cell_mod.
  - destruct (cutout_spec minSize bgColor tolerance img Hwf) as (out & Hrun & Hcol & _).
    exists out. split; [done|]. now apply Hcol.
Qed.

Lemma rgb_channels_unchanged_witness :
  rd (data (keyPass green 50 specks)) (5 * 4 + 0) = rd (data specks) (5 * 4 + 0) /\
  rd (data (erode specks 1)) (5 * 4 + 0) = rd (data specks) (5 * 4 + 0) /\
  rd (data (dilate specks 1)) (5 * 4 + 0) = rd (data specks) (5 * 4 + 0) /\
  (exists out, regionPass 50 specks = Some out /\
               rd (data out) (5 * 4 + 0) = rd (data specks) (5 * 4 + 0)) /\
  (exists out, cutout 50 green 50 specks = Some out /\
               rd (data out) (5 * 4 + 0) = rd (data specks) (5 * 4 + 0)).
Proof.
  apply (rgb_channels_unchanged green 50 1 50 specks 5 0).
  - apply wfImageb_wf. vm_compute. reflexivity.
  - vm_compute. split; discriminate || reflexivity.
  - lia.
Defined.

(** C3 (as stated, refuted): the 7 by 7 opaque red image is one region of
    49 pixels.  With a supplied threshold of 1 the four passes would keep it;
    [removeBackgroundColor], whose only inputs are the image, the key colour
    and the tolerance, clears it. *)
Lemma minRegionSize_not_configurable :
  (exists out, cutout 1 green 50 blob = Some out /\
               alphas out = replicate 49 (Some 255)) /\
  (exists out, removeBackgroundColor (Drawn blob) green 50 = Some (Resolved out) /\
               alphas out = replicate 49 (Some 0)).
Proof.
  split; eexists; split; vm_compute; reflexivity.
Qed.

(** C3 (amended): the threshold of the final cleanup is the constant 50
    inside [removeBackgroundColor], not an input: for every image, key colour
    and tolerance the call resolves, and a region of the morphology output is
    cleared exactly when it has fewer than 50 pixels. *)
Theorem region_threshold_is_fixed bgColor tolerance img :
  wfImage img ->
  minRegionSize = 50 /\
  exists out,
    removeBackgroundColor (Drawn img) bgColor tolerance = Some (Resolved out) /\
    forall R p,
      isRegion (width img) (height img)
        (data (morphology (keyPass bgColor tolerance img))) R -> p ∈ R ->
      alphaAt (data out) p
      = if Z.of_nat (length R) <? 50 then Some 0
        else alphaAt (data (morphology (keyPass bgColor tolerance img))) p.
Proof.
  intros Hwf. split; [reflexivity|].
  destruct (cutout_spec minRegionSize bgColor tolerance img Hwf)
    as (out & Hrun & _ & _ & Hreg).
  exists out. cbn [removeBackgroundColor]. rewrite Hrun. split; [done|].
  intros R p HR HpR. exact (Hreg p R HR HpR).
Qed.

Lemma region_threshold_is_fixed_witness :
  minRegionSize = 50 /\
  exists out,
    removeBackgroundColor (Drawn blob) green 50 = Some (Resolved out) /\
    forall R p,
      isRegion (width blob) (height blob)
        (data (morphology (keyPass green 50 blob))) R -> p ∈ R ->
      alphaAt (data out) p
      = if Z.of_nat (length R) <? 50 then Some 0
        else alphaAt (data (morphology (keyPass green 50 blob))) p.
Proof.
  apply (region_threshold_is_fixed green 50 blob).
  apply wfImageb_wf. vm_compute. reflexivity.
Defined.

(** C1 (as stated, refuted): on the 10 by 10 scene the pipeline with
    tolerance 50 and threshold 1 does not leave alpha 255 on the red square:
    pixel 44, the top-left red pixel, ends with alpha 0. *)
Lemma scene_square_not_kept :
  ~ (exists out,
       cutout 1 green 50 scene = Some out /\
       forall p, 0 <= p < 100 ->
         alphaAt (data out) p
         = Some (if bool_decide (p ∈ [44; 45; 54; 55]) then 255 else 0)).
Proof.
  intros (out & Hrun & Hall).
  assert (E : cutout 1 green 50 scene = Some sceneCleared) by (vm_compute; reflexivity).
  rewrite E in Hrun. injection Hrun as <-.
  specialize (Hall 44 ltac:(lia)). vm_compute in Hall. discriminate Hall.
Qed.

(** C1 (amended): on the 10 by 10 scene the pipeline (key colour green,
    tolerance 50, two erosions, two dilations, region filter with any
    threshold, in particular 1 and the constant 50) produces alpha 0 on every
    pixel: the chroma key clears the green pixels, the first erosion clears
    the 2 by 2 square, each of whose pixels has a transparent neighbour, and
    dilation has nothing left to grow.  The colour cells are unchanged. *)
Theorem scene_cutout_is_transparent minSize :
  exists out,
    cutout minSize green 50 scene = Some out /\
    removeBackgroundColor (Drawn scene) green 50 = Some (Resolved out) /\
    alphas (erode (keyPass green 50 scene) 1) = replicate 100 (Some 0) /\
    forall p, 0 <= p < 100 ->
      alphaAt (data out) p = Some 0 /\
      forall c, 0 <= c <= 2 -> rd (data out) (p * 4 + c) = rd (data scene) (p * 4 + c).
Proof.
  exists sceneCleared.
  split; [vm_compute; reflexivity|].
  split; [vm_compute; reflexivity|].
  split; [vm_compute; reflexivity|].
  assert (Hb : forallb (fun p =>
      bool_decide (alphaAt (data sceneCleared) p = Some 0) &&
      forallb (fun c => bool_decide (rd (data sceneCleared) (p * 4 + c)
                                     = rd (data scene) (p * 4 + c))) [0; 1; 2])
    (seqZ 0 100) = true) by (vm_compute; reflexivity).
  intros p Hp. rewrite forallb_forall in Hb.
  assert (Hin : In p (seqZ 0 100)) by (apply list_elem_of_In, elem_of_seqZ; lia).
  apply Hb, andb_prop in Hin as [Ha Hc]. split.
  - now apply bool_decide_eq_true in Ha.
  - intros c Hcr. rewrite forallb_forall in Hc.
    assert (Hc' : In c [0; 1; 2]) by (simpl; lia).
    apply Hc in Hc'. now apply bool_decide_eq_true in Hc'.
Qed.
(* ===================================================================== *)
(** ** cleanBase64 *)
(* ===================================================================== *)

Section CleanBase64.
Implicit Types (s t : string) (c : Ascii.ascii).

Lemma includes_app c s t : includes c (s ++ t) = includes c s || includes c t.
Proof.
  induction s as [|a s IH]; simpl; [done|].
  destruct (Ascii.eqb a c); [done | exact IH].
Qed.

Lemma splitOn_nonempty c s : splitOn c s <> [].
Proof.
  destruct s as [|a s]; simpl; [done|].
  destruct (Ascii.eqb a c); [done|]. destruct (splitOn c s); done.
Qed.

(** Without the separator there is one piece, the string itself. *)
Lemma splitOn_without c s : includes c s = false -> splitOn c s = [s].
Proof.
  induction s as [|a s IH]; simpl; [done|].
  destruct (Ascii.eqb a c); [done|]. intros H. now rewrite (IH H).
Qed.

(** Splitting [s ++ c ++ t], where [s] is free of [c], gives [s] and then
    the pieces of [t]. *)
Lemma splitOn_app c s t :
  includes c s = false -> splitOn c (s ++ String c t) = s :: splitOn c t.
Proof.
  induction s as [|a s IH]; simpl.
  - intros _. now rewrite Ascii.eqb_refl.
  - destruct (Ascii.eqb a c); [done|]. intros H. now rewrite (IH H).
Qed.

Lemma string_app_assoc s t u : ((s ++ t) ++ u = s ++ (t ++ u))%string.
Proof.
  induction s as [|a s IH]; [reflexivity|].
  change (String a ((s ++ t) ++ u) = String a (s ++ t ++ u))%string.
  now rewrite IH.
Qed.

(** No piece contains the separator. *)
Lemma splitOn_pieces c s : Forall (fun p => includes c p = false) (splitOn c s).
Proof.
  induction s as [|a s IH]; simpl.
  - by repeat constructor.
  - destruct (Ascii.eqb a c) eqn:E; [by constructor|].
    destruct (splitOn c s) as [|p ps].
    + constructor; [simpl; now rewrite E | constructor].
    + inversion IH; subst. constructor; [simpl; now rewrite E | done].
Qed.

(** A string with the separator splits into at least two pieces. *)
Lemma splitOn_with c s : includes c s = true -> (2 <= length (splitOn c s))%nat.
Proof.
  induction s as [|a s IH]; simpl; [done|].
  destruct (Ascii.eqb a c).
  - intros _. pose proof (splitOn_nonempty c s). destruct (splitOn c s); simpl; [done | lia].
  - intros H. specialize (IH H). destruct (splitOn c s); simpl in *; lia.
Qed.
End CleanBase64.

Lemma cleanBase64_result data :
  exists s, cleanBase64 data = Some s /\ includes comma s = false /\
            (includes comma data = false -> s = data).
Proof.
  unfold cleanBase64. destruct (includes comma data) eqn:E.
  - pose proof (splitOn_with _ _ E) as Hl. pose proof (splitOn_pieces comma data) as Hp.
    destruct (splitOn comma data) as [|p0 [|p1 ps]]; simpl in Hl; try lia.
    exists p1. split; [done|]. split; [|done].
    inversion Hp as [|? ? _ Hp']; subst. now inversion Hp'.
  - exists data. done.
Qed.

(** [cleanBase64] always returns a string (the second piece exists whenever
    there is a comma), that string contains no comma, and on a string without
    a comma it is the identity. *)
Theorem cleanBase64_defined_comma_free data :
  exists s, cleanBase64 data = Some s /\ includes comma s = false /\
            (includes comma data = false -> s = data).
Proof. exact (cleanBase64_result data). Qed.

(** Cleaning twice is cleaning once. *)
Theorem cleanBase64_idempotent data s :
  cleanBase64 data = Some s -> cleanBase64 s = Some s.
Proof.
  intros H. destruct (cleanBase64_result data) as (s' & H' & Hs & _).
  rewrite H in H'. injection H' as <-. unfold cleanBase64. now rewrite Hs.
Qed.

Lemma cleanBase64_idempotent_witness :
  cleanBase64 "data:image/png;base64,iVBORw0KGgo="%string = Some "iVBORw0KGgo="%string /\
  cleanBase64 "iVBORw0KGgo="%string = Some "iVBORw0KGgo="%string.
Proof.
  split; [reflexivity|].
  apply (cleanBase64_idempotent "data:image/png;base64,iVBORw0KGgo="%string). reflexivity.
Defined.

(** The data URL that [segmentImage] builds from an image part is cleaned
    back to the part's payload, up to the payload's first comma. *)
Theorem cleanBase64_dataUrl mimeType payload rest :
  includes comma mimeType = false ->
  includes comma payload = false ->
  cleanBase64 (dataUrl mimeType payload) = Some payload /\
  cleanBase64 (dataUrl mimeType (payload ++ String comma rest)) = Some payload.
Proof.
  intros Hm Hp.
  assert (Hpre : includes comma ("data:" ++ mimeType ++ ";base64")%string = false).
  { rewrite !includes_app, Hm. reflexivity. }
  assert (Heq : forall t, dataUrl mimeType t
                          = (("data:" ++ mimeType ++ ";base64") ++ String comma t)%string).
  { intros t. unfold dataUrl. rewrite !string_app_assoc. reflexivity. }
  unfold cleanBase64. rewrite !Heq, !includes_app. simpl includes.
  rewrite !orb_true_r, !splitOn_app by exact Hpre.
  rewrite (splitOn_without _ _ Hp), (splitOn_app _ _ _ Hp). done.
Qed.

Lemma cleanBase64_dataUrl_witness :
  cleanBase64 (dataUrl "image/png" "iVBORw0KGgo=") = Some "iVBORw0KGgo="%string /\
  cleanBase64 (dataUrl "image/png" ("iVBORw0KGgo=" ++ String comma "AAAA"))
  = Some "iVBORw0KGgo="%string.
Proof.
  apply (cleanBase64_dataUrl "image/png" "iVBORw0KGgo=" "AAAA"); reflexivity.
Defined.

(* ===================================================================== *)
(** ** erode and dilate against their windows *)
(* ===================================================================== *)

Section Window.
Variables (img : ImageData) (radius : Z).
Hypothesis img_wf : wfImage img.
Hypothesis radius_nonneg : 0 <= radius.

Lemma elem_of_offsets d : d ∈ offsets radius <-> - radius <= d <= radius.
Proof. unfold offsets. rewrite elem_of_seqZ. lia. Qed.

Lemma alphaXY_erode x y :
  inside img x y ->
  alphaXY (erode img radius) x y = Some (erodeCell img radius x y 3).
Proof.
  intros [Hx Hy]. destruct img_wf as [Hw Hh _ _]. unfold alphaXY.
  rewrite erode_writeGrid. cbn [width erode]. now apply rd_writeGrid.
Qed.

Lemma alphaXY_dilate x y :
  inside img x y ->
  alphaXY (dilate img radius) x y = Some (dilateCell img radius x y 3).
Proof.
  intros [Hx Hy]. destruct img_wf as [Hw Hh _ _]. unfold alphaXY.
  rewrite dilate_writeGrid. cbn [width dilate]. now apply rd_writeGrid.
Qed.

Lemma alphaXY_byte x y :
  inside img x y -> exists a, alphaXY img x y = Some a /\ byte a.
Proof. intros [Hx Hy]. apply rd_inside; (done || lia). Qed.

(** The neighbour search of [erode] finds a transparent pixel exactly when
    the window holds one inside the image. *)
Lemma hasTransparentNeighbor_iff x y :
  hasTransparentNeighbor img radius x y = true <->
  exists nx ny, near radius x y nx ny /\ inside img nx ny /\ alphaXY img nx ny = Some 0.
Proof.
  unfold hasTransparentNeighbor. rewrite existsb_exists. split.
  - intros (dy & Hdy & H). apply existsb_exists in H as (dx & Hdx & H).
    apply list_elem_of_In, elem_of_offsets in Hdy, Hdx. cbv zeta in H.
    destruct (_ && _) eqn:E in H; [|done].
    rewrite !andb_true_iff, !Z.leb_le, !Z.ltb_lt in E.
    apply bool_decide_eq_true in H.
    exists (x + dx), (y + dy). unfold near, inside, alphaXY. repeat split; (done || lia).
  - intros (nx & ny & [Hnx Hny] & [Hix Hiy] & Ha).
    exists (ny - y). split; [apply list_elem_of_In, elem_of_offsets; lia|].
    apply existsb_exists. exists (nx - x).
    split; [apply list_elem_of_In, elem_of_offsets; lia|]. cbv zeta.
    replace (y + (ny - y)) with ny by lia. replace (x + (nx - x)) with nx by lia.
    replace ((0 <=? ny) && (ny <? height img) && (0 <=? nx) && (nx <? width img)) with true.
    + apply bool_decide_eq_true. exact Ha.
    + symmetry. rewrite !andb_true_iff, !Z.leb_le, !Z.ltb_lt. lia.
Qed.

(** The body of the inner neighbour loop of [dilate] and one whole row. *)
Let inner (x y dy : Z) : option Z -> Z -> option Z :=
  fun acc dx =>
    let ny := y + dy in
    let nx := x + dx in
    if (0 <=? ny) && (ny <? height img) && (0 <=? nx) && (nx <? width img)
    then
      let nidx := (ny * width img + nx) * 4 in
      Js.mathMax acc (rd (data img) (nidx + 3))
    else acc.

Let row (x y : Z) (dxs : list Z) : option Z -> Z -> option Z :=
  fun acc dy => fold_left (inner x y dy) dxs acc.

Lemma maxAlpha_rows x y :
  maxAlpha img radius x y
  = fold_left (row x y (offsets radius)) (offsets radius) (alphaXY img x y).
Proof. reflexivity. Qed.

Lemma inner_step x y dy acc dx :
  inner x y dy acc dx = acc \/
  (inside img (x + dx) (y + dy) /\
   inner x y dy acc dx = Js.mathMax acc (alphaXY img (x + dx) (y + dy))).
Proof.
  unfold inner. cbv zeta. destruct (_ && _) eqn:E; [right | now left].
  rewrite !andb_true_iff, !Z.leb_le, !Z.ltb_lt in E. unfold inside. split; [lia | done].
Qed.

Lemma inner_inside x y dy acc dx :
  inside img (x + dx) (y + dy) ->
  inner x y dy acc dx = Js.mathMax acc (alphaXY img (x + dx) (y + dy)).
Proof.
  intros [Hx Hy]. unfold inner. cbv zeta.
  replace (_ && _) with true; [done|].
  symmetry. rewrite !andb_true_iff, !Z.leb_le, !Z.ltb_lt. lia.
Qed.

(** Any property of the running [maxAlpha] that survives folding in one
    more neighbour inside the image holds at the end of a row, and at the
    end of the two loops. *)
Lemma row_inv (I : option Z -> Prop) x y dy dxs :
  (forall acc dx, dx ∈ dxs -> inside img (x + dx) (y + dy) ->
     I acc -> I (Js.mathMax acc (alphaXY img (x + dx) (y + dy)))) ->
  forall acc, I acc -> I (row x y dxs acc dy).
Proof.
  unfold row. induction dxs as [|dx dxs IH]; intros Hstep acc Hacc; cbn [fold_left]; [done|].
  apply IH.
  - intros acc' dx' Hdx'. apply Hstep, elem_of_cons. now right.
  - destruct (inner_step x y dy acc dx) as [->|[Hin ->]]; [done|].
    apply Hstep; [apply elem_of_cons; now left | done | done].
Qed.

Lemma grid_inv (I : option Z -> Prop) x y dxs dys :
  (forall acc dx dy, dx ∈ dxs -> dy ∈ dys -> inside img (x + dx) (y + dy) ->
     I acc -> I (Js.mathMax acc (alphaXY img (x + dx) (y + dy)))) ->
  forall acc, I acc -> I (fold_left (row x y dxs) dys acc).
Proof.
  induction dys as [|dy dys IH]; intros Hstep acc Hacc; cbn [fold_left]; [done|].
  apply IH.
  - intros acc' dx dy' Hdx Hdy'. apply Hstep; [done|]. apply elem_of_cons. now right.
  - apply row_inv; [|done]. intros acc' dx Hdx. apply Hstep; [done|].
    apply elem_of_cons. now left.
Qed.

(** The running maximum is always the alpha of some pixel of the window. *)
Let attained (x y : Z) (acc : option Z) : Prop :=
  exists m nx ny, acc = Some m /\ byte m /\
    near radius x y nx ny /\ inside img nx ny /\ alphaXY img nx ny = Some m.

(** The running maximum is at least [a]. *)
Let atLeast (a : Z) (acc : option Z) : Prop :=
  exists m, acc = Some m /\ byte m /\ a <= m.

Lemma atLeast_step a acc nx ny :
  inside img nx ny -> atLeast a acc -> atLeast a (Js.mathMax acc (alphaXY img nx ny)).
Proof.
  intros Hin (m & -> & Hm & Hle). destruct (alphaXY_byte nx ny Hin) as (v & -> & Hv).
  exists (Z.max m v). unfold byte in *. split; [done | lia].
Qed.

Lemma atLeast_hit a acc nx ny :
  inside img nx ny -> alphaXY img nx ny = Some a -> atLeast 0 acc ->
  atLeast a (Js.mathMax acc (alphaXY img nx ny)).
Proof.
  intros Hin Ha (m & -> & Hm & _). destruct (alphaXY_byte nx ny Hin) as (v & Hv & Hb).
  rewrite Ha in *. injection Hv as <-.
  exists (Z.max m a). unfold byte in *. split; [done | lia].
Qed.

Lemma maxAlpha_attained x y :
  inside img x y -> attained x y (maxAlpha img radius x y).
Proof.
  intros Hin. rewrite maxAlpha_rows. apply grid_inv.
  - intros acc dx dy Hdx%elem_of_offsets Hdy%elem_of_offsets Hi
      (m & nx & ny & -> & Hm & Hnear & Hins & Ha).
    destruct (alphaXY_byte _ _ Hi) as (v & Hv & Hbv). rewrite Hv. simpl.
    destruct (Z.max_spec m v) as [[_ ->]|[_ ->]].
    + exists v, (x + dx), (y + dy). unfold near, byte, inside in *.
      repeat split; (done || lia).
    + exists m, nx, ny. done.
  - destruct (alphaXY_byte _ _ Hin) as (a & Ha & Hb).
    exists a, x, y. unfold near, byte, inside in *.
    repeat split; (done || lia).
Qed.

Lemma row_atLeast x y dy dx0 a dxs :
  inside img (x + dx0) (y + dy) -> alphaXY img (x + dx0) (y + dy) = Some a ->
  dx0 ∈ dxs -> forall acc, atLeast 0 acc -> atLeast a (row x y dxs acc dy).
Proof.
  intros Hin Ha. unfold row.
  induction dxs as [|dx dxs IH]; intros Hel acc Hacc; [inversion Hel|].
  cbn [fold_left]. destruct (decide (dx = dx0)) as [->|Hne].
  - rewrite inner_inside by done.
    apply (row_inv (atLeast a) x y dy dxs); [intros; now apply atLeast_step|].
    now apply atLeast_hit.
  - apply IH; [apply elem_of_cons in Hel as [?|?]; [congruence | done]|].
    destruct (inner_step x y dy acc dx) as [->|[Hin' ->]]; [done|].
    now apply atLeast_step.
Qed.

Lemma grid_atLeast x y dy0 dx0 a dxs dys :
  inside img (x + dx0) (y + dy0) -> alphaXY img (x + dx0) (y + dy0) = Some a ->
  dx0 ∈ dxs -> dy0 ∈ dys ->
  forall acc, atLeast 0 acc -> atLeast a (fold_left (row x y dxs) dys acc).
Proof.
  intros Hin Ha Hdx.
  induction dys as [|dy dys IH]; intros Hel acc Hacc; [inversion Hel|].
  cbn [fold_left]. destruct (decide (dy = dy0)) as [->|Hne].
  - apply grid_inv; [intros; now apply atLeast_step|].
    now apply (row_atLeast x y dy0 dx0 a dxs).
  - apply IH; [apply elem_of_cons in Hel as [?|?]; [congruence | done]|].
    apply row_inv; [intros; now apply atLeast_step | done].
Qed.

Lemma maxAlpha_atLeast x y nx ny a :
  inside img x y -> near radius x y nx ny -> inside img nx ny ->
  alphaXY img nx ny = Some a -> atLeast a (maxAlpha img radius x y).
Proof.
  intros Hin [Hnx Hny] Hins Ha. rewrite maxAlpha_rows.
  apply (grid_atLeast x y (ny - y) (nx - x) a).
  - now replace (x + (nx - x)) with nx by lia; replace (y + (ny - y)) with ny by lia.
  - now replace (x + (nx - x)) with nx by lia; replace (y + (ny - y)) with ny by lia.
  - apply elem_of_offsets. lia.
  - apply elem_of_offsets. lia.
  - destruct (alphaXY_byte _ _ Hin) as (c & Hc & Hb).
    exists c. unfold byte in *. split; [done | lia].
Qed.
End Window.

Lemma alphaAt_XY img p :
  wfImage img -> 0 <= p < width img * height img ->
  inside img (p mod width img) (p / width img) /\
  alphaAt (data img) p = alphaXY img (p mod width img) (p / width img).
Proof.
  intros [Hw Hh _ _] Hp. destruct (pixel_coords _ _ p Hw Hp) as (Hx & Hy & Hxy).
  split; [done|]. unfold alphaAt, alphaXY. now rewrite <- Hxy.
Qed.

Lemma erode_alpha_cases img radius x y :
  wfImage img -> 0 <= radius -> inside img x y ->
  ((exists nx ny, near radius x y nx ny /\ inside img nx ny /\ alphaXY img nx ny = Some 0) ->
   alphaXY (erode img radius) x y = Some 0) /\
  ((forall nx ny, near radius x y nx ny -> inside img nx ny -> alphaXY img nx ny <> Some 0) ->
   alphaXY (erode img radius) x y = alphaXY img x y).
Proof.
  intros Hwf Hr Hin. rewrite (alphaXY_erode img radius Hwf x y Hin).
  unfold erodeCell. rewrite decide_True by done. split.
  - intros H. apply (hasTransparentNeighbor_iff img radius) in H. now rewrite H.
  - intros H. destruct (hasTransparentNeighbor img radius x y) eqn:E.
    + apply (hasTransparentNeighbor_iff img radius) in E as (nx & ny & Hn & Hi & Ha).
      now destruct (H nx ny Hn Hi).
    + destruct (alphaXY_byte img Hwf x y Hin) as (a & Ha & _).
      unfold alphaXY in Ha |- *. now rewrite Ha.
Qed.

(** Erosion against its window: the pixel becomes transparent when some
    pixel of the image within [radius] (itself included) is transparent, and
    keeps its alpha when none is; positions outside the image do not count. *)
Theorem erode_window img radius x y :
  wfImage img -> 0 <= radius -> inside img x y ->
  ((exists nx ny, near radius x y nx ny /\ inside img nx ny /\ alphaXY img nx ny = Some 0) ->
   alphaXY (erode img radius) x y = Some 0) /\
  ((forall nx ny, near radius x y nx ny -> inside img nx ny -> alphaXY img nx ny <> Some 0) ->
   alphaXY (erode img radius) x y = alphaXY img x y).
Proof. exact (erode_alpha_cases img radius x y). Qed.

Lemma erode_window_witness :
  alphaXY (erode (mkImageData 2 1 [9; 9; 9; 0; 7; 7; 7; 200]) 1) 1 0 = Some 0 /\
  alphaXY (erode (mkImageData 2 1 [9; 9; 9; 5; 7; 7; 7; 200]) 1) 1 0 = Some 200.
Proof.
  assert (Hb : forall a, 0 <= a <= 5 ->
            wfImage (mkImageData 2 1 [9; 9; 9; a; 7; 7; 7; 200])).
  { intros a Ha. split; cbn [width height data length]; [lia | lia | reflexivity |].
    repeat constructor; unfold byte; lia. }
  split.
  - apply (erode_window (mkImageData 2 1 [9; 9; 9; 0; 7; 7; 7; 200]) 1 1 0);
      [apply Hb; lia | lia | unfold inside; cbn; lia |].
    exists 0, 0. unfold near, inside. cbn. repeat split; (lia || reflexivity).
  - apply (erode_window (mkImageData 2 1 [9; 9; 9; 5; 7; 7; 7; 200]) 1 1 0);
      [apply Hb; lia | lia | unfold inside; cbn; lia |].
    intros nx ny [Hx Hy] [Hix Hiy]. cbn in Hix, Hiy.
    assert (ny = 0) as -> by lia.
    assert (nx = 0 \/ nx = 1) as [-> | ->] by lia; vm_compute; discriminate.
Defined.

Lemma dilate_alpha_max img radius x y :
  wfImage img -> 0 <= radius -> inside img x y ->
  exists m, alphaXY (dilate img radius) x y = Some m /\
    (exists nx ny, near radius x y nx ny /\ inside img nx ny /\ alphaXY img nx ny = Some m) /\
    (forall nx ny a, near radius x y nx ny -> inside img nx ny ->
       alphaXY img nx ny = Some a -> a <= m).
Proof.
  intros Hwf Hr Hin. rewrite (alphaXY_dilate img radius Hwf x y Hin).
  unfold dilateCell. rewrite decide_True by done.
  destruct (maxAlpha_attained img radius Hwf Hr x y Hin)
    as (m & nx & ny & Hm & Hb & Hn & Hi & Ha).
  exists m. rewrite Hm. split; [done|]. split; [by exists nx, ny|].
  intros nx' ny' a Hn' Hi' Ha'.
  destruct (maxAlpha_atLeast img radius Hwf x y nx' ny' a Hin Hn' Hi' Ha')
    as (m' & Hm' & _ & Hle).
  congruence.
Qed.

(** Dilation against its window: the new alpha is the largest alpha among
    the pixels of the image within [radius] (itself included). *)
Theorem dilate_window img radius x y :
  wfImage img -> 0 <= radius -> inside img x y ->
  exists m, alphaXY (dilate img radius) x y = Some m /\
    (exists nx ny, near radius x y nx ny /\ inside img nx ny /\ alphaXY img nx ny = Some m) /\
    (forall nx ny a, near radius x y nx ny -> inside img nx ny ->
       alphaXY img nx ny = Some a -> a <= m).
Proof. exact (dilate_alpha_max img radius x y). Qed.

Lemma dilate_window_witness :
  exists m, alphaXY (dilate (mkImageData 2 1 [9; 9; 9; 0; 7; 7; 7; 200]) 1) 0 0 = Some m /\
    (exists nx ny, near 1 0 0 nx ny /\
       inside (mkImageData 2 1 [9; 9; 9; 0; 7; 7; 7; 200]) nx ny /\
       alphaXY (mkImageData 2 1 [9; 9; 9; 0; 7; 7; 7; 200]) nx ny = Some m) /\
    (forall nx ny a, near 1 0 0 nx ny ->
       inside (mkImageData 2 1 [9; 9; 9; 0; 7; 7; 7; 200]) nx ny ->
       alphaXY (mkImageData 2 1 [9; 9; 9; 0; 7; 7; 7; 200]) nx ny = Some a -> a <= m).
Proof.
  apply (dilate_window (mkImageData 2 1 [9; 9; 9; 0; 7; 7; 7; 200]) 1 0 0).
  - split; cbn [width height data length]; [lia | lia | reflexivity |].
    repeat constructor; unfold byte; lia.
  - lia.
  - unfold inside. cbn. lia.
Defined.

(* ===================================================================== *)
(** ** Transparent pixels through the morphology passes *)
(* ===================================================================== *)

(** If every pixel of the image within [k] of [(x, y)] is transparent, then
    after an erosion every pixel within [k + radius] is. *)
Lemma erode_spreads_transparency img radius k x y :
  wfImage img -> 0 <= radius -> 0 <= k -> inside img x y ->
  (forall nx ny, near k x y nx ny -> inside img nx ny -> alphaXY img nx ny = Some 0) ->
  forall nx ny, near (k + radius) x y nx ny -> inside img nx ny ->
    alphaXY (erode img radius) nx ny = Some 0.
Proof.
  intros Hwf Hr Hk [Hx Hy] Hzero nx ny [Hnx Hny] [Hix Hiy].
  apply (erode_alpha_cases img radius nx ny Hwf Hr); [unfold inside; lia|].
  exists (Z.max (x - k) (Z.min (x + k) nx)), (Z.max (y - k) (Z.min (y + k) ny)).
  split; [unfold near; lia|]. split; [unfold inside; lia|].
  apply Hzero; [unfold near; lia | unfold inside; lia].
Qed.

(** If every pixel of the image within [k + radius] of [(x, y)] is
    transparent, then after a dilation every pixel within [k] still is. *)
Lemma dilate_keeps_transparency img radius k x y :
  wfImage img -> 0 <= radius -> 0 <= k ->
  (forall nx ny, near (k + radius) x y nx ny -> inside img nx ny ->
     alphaXY img nx ny = Some 0) ->
  forall nx ny, near k x y nx ny -> inside img nx ny ->
    alphaXY (dilate img radius) nx ny = Some 0.
Proof.
  intros Hwf Hr Hk Hzero nx ny [Hnx Hny] Hin.
  destruct (dilate_alpha_max img radius nx ny Hwf Hr Hin)
    as (m & Hm & (ax & ay & [Hax Hay] & Hai & Ha) & _).
  rewrite Hm. rewrite Hzero in Ha; [congruence | unfold near; lia | done].
Qed.

Lemma morphology_transparent_xy img x y :
  wfImage img -> inside img x y -> alphaXY img x y = Some 0 ->
  alphaXY (morphology img) x y = Some 0.
Proof.
  intros Hwf Hin H0. unfold morphology.
  pose proof (erode_wf img 1 Hwf) as Hwf1.
  pose proof (erode_wf _ 1 Hwf1) as Hwf2.
  pose proof (dilate_wf _ 1 Hwf2) as Hwf3.
  assert (Hnear0 : forall nx ny, near 0 x y nx ny -> nx = x /\ ny = y)
    by (unfold near; lia).
  assert (H1 : forall nx ny, near 1 x y nx ny -> inside img nx ny ->
                 alphaXY (erode img 1) nx ny = Some 0).
  { apply (erode_spreads_transparency img 1 0 x y Hwf); [lia | lia | done |].
    intros nx ny Hn _. destruct (Hnear0 nx ny Hn) as [-> ->]. done. }
  assert (H2 : forall nx ny, near 2 x y nx ny -> inside img nx ny ->
                 alphaXY (erode (erode img 1) 1) nx ny = Some 0).
  { apply (erode_spreads_transparency (erode img 1) 1 1 x y Hwf1); [lia | lia | done | done]. }
  assert (H3 : forall nx ny, near 1 x y nx ny -> inside img nx ny ->
                 alphaXY (dilate (erode (erode img 1) 1) 1) nx ny = Some 0).
  { apply (dilate_keeps_transparency (erode (erode img 1) 1) 1 1 x y Hwf2); [lia | lia | done]. }
  apply (dilate_keeps_transparency (dilate (erode (erode img 1) 1) 1) 1 0 x y Hwf3);
    [lia | lia | done | unfold near; lia | done].
Qed.

Lemma morphology_transparent img p :
  wfImage img -> alphaAt (data img) p = Some 0 ->
  alphaAt (data (morphology img)) p = Some 0.
Proof.
  intros Hwf H0. pose proof (alphaAt_inside img p 0 Hwf H0) as Hp.
  destruct (alphaAt_XY img p Hwf Hp) as [Hin Hxy].
  assert (Hwf' : wfImage (morphology img)).
  { unfold morphology. now repeat (apply dilate_wf || apply erode_wf). }
  destruct (alphaAt_XY (morphology img) p Hwf' Hp) as [_ ->].
  change (width (morphology img)) with (width img).
  apply morphology_transparent_xy; [done | done | congruence].
Qed.

(** The two erosions and two dilations never make a transparent pixel
    visible again: a pixel with alpha 0 before them has alpha 0 after them. *)
Theorem morphology_keeps_transparent img p :
  wfImage img -> alphaAt (data img) p = Some 0 ->
  alphaAt (data (morphology img)) p = Some 0.
Proof. exact (morphology_transparent img p). Qed.

Lemma morphology_keeps_transparent_witness :
  alphaAt (data (morphology (mkImageData 2 1 [9; 9; 9; 0; 7; 7; 7; 200]))) 0 = Some 0.
Proof.
  apply morphology_keeps_transparent; [|reflexivity].
  split; cbn [width height data length]; [lia | lia | reflexivity |].
  repeat constructor; unfold byte; lia.
Defined.

(* ===================================================================== *)
(** ** Images that a pass leaves as they are *)
(* ===================================================================== *)

(** Two well-formed buffers of the same dimensions with the same cells. *)
Lemma image_ext img img' :
  wfImage img -> wfImage img' ->
  width img' = width img -> height img' = height img ->
  (forall p c, 0 <= p < width img * height img -> 0 <= c <= 3 ->
     rd (data img') (p * 4 + c) = rd (data img) (p * 4 + c)) ->
  img' = img.
Proof.
  intros [Hw Hh Hl _] [_ _ Hl' _] Ew Eh Hcells.
  destruct img as [w h d], img' as [w' h' d']. cbn [width height data] in *. subst w' h'.
  f_equal. apply rd_ext. intros j.
  destruct (decide (0 <= j < w * h * 4)) as [Hj|Hj].
  - pose proof (Z.div_mod j 4 ltac:(lia)) as Hd.
    pose proof (Z.mod_pos_bound j 4 ltac:(lia)) as Hm.
    replace j with (j / 4 * 4 + j mod 4) by lia. apply Hcells; lia.
  - rewrite !rd_None by lia. done.
Qed.

Lemma erode_solid img radius :
  wfImage img ->
  (forall p, alphaAt (data img) p <> Some 0) ->
  erode img radius = img.
Proof.
  intros Hwf Hsolid. apply image_ext; [done | now apply erode_wf | done | done |].
  intros p c Hp Hc. rewrite (rd_erode img radius Hwf p c Hp Hc).
  destruct (rd_pixel img Hwf p c Hp Hc) as (v & Hv & _ & Hv'). rewrite Hv.
  unfold erodeCell.
  assert (Hno : hasTransparentNeighbor img radius (p mod width img) (p / width img) = false).
  { destruct (hasTransparentNeighbor _ _ _ _) eqn:E; [|done].
    apply hasTransparentNeighbor_iff in E as (nx & ny & _ & _ & Ha).
    now destruct (Hsolid (ny * width img + nx)). }
  rewrite Hno. destruct (rd_pixel img Hwf p 3 Hp ltac:(lia)) as (v3 & Hv3 & _ & Hv3').
  case_decide as Hc3.
  - subst c. rewrite Hv3'. simpl. congruence.
  - rewrite Hv'. done.
Qed.

(** Erosion only ever removes pixels next to a transparent one, and the
    border of the image does not count as transparent: an image without a
    transparent pixel is returned unchanged. *)
Theorem erode_without_transparent img radius :
  wfImage img ->
  (forall p, alphaAt (data img) p <> Some 0) ->
  erode img radius = img.
Proof. exact (erode_solid img radius). Qed.

Lemma erode_without_transparent_witness :
  erode (mkImageData 2 1 [9; 9; 9; 5; 7; 7; 7; 200]) 1
  = mkImageData 2 1 [9; 9; 9; 5; 7; 7; 7; 200].
Proof.
  apply erode_without_transparent.
  - split; cbn [width height data length]; [lia | lia | reflexivity |].
    repeat constructor; unfold byte; lia.
  - intros p H. pose proof (rd_Some _ _ _ H) as Hr. cbn [data length] in Hr.
    assert (p = 0 \/ p = 1) as [-> | ->] by lia; vm_compute in H; discriminate.
Defined.

Lemma dilate_uniform img radius a :
  wfImage img -> 0 <= radius ->
  (forall p v, alphaAt (data img) p = Some v -> v = a) ->
  dilate img radius = img.
Proof.
  intros Hwf Hr Huni. apply image_ext; [done | now apply dilate_wf | done | done |].
  intros p c Hp Hc. rewrite (rd_dilate img radius Hwf p c Hp Hc).
  destruct (rd_pixel img Hwf p c Hp Hc) as (v & Hv & _ & Hv'). rewrite Hv.
  unfold dilateCell. case_decide as Hc3; [|now rewrite Hv'].
  subst c. destruct (alphaAt_XY img p Hwf Hp) as [Hin Hxy].
  destruct (maxAlpha_attained img radius Hwf Hr _ _ Hin)
    as (m & nx & ny & -> & _ & _ & _ & Ha).
  simpl. f_equal.
  rewrite (Huni (ny * width img + nx) m Ha). symmetry. now apply (Huni p).
Qed.

(** Dilation replaces each alpha by the largest alpha around it: an image
    whose pixels all have the same alpha is returned unchanged. *)
Theorem dilate_uniform_alpha img radius a :
  wfImage img -> 0 <= radius ->
  (forall p v, alphaAt (data img) p = Some v -> v = a) ->
  dilate img radius = img.
Proof. exact (dilate_uniform img radius a). Qed.

Lemma dilate_uniform_alpha_witness :
  dilate (mkImageData 2 1 [9; 9; 9; 200; 7; 7; 7; 200]) 1
  = mkImageData 2 1 [9; 9; 9; 200; 7; 7; 7; 200].
Proof.
  apply (dilate_uniform_alpha _ 1 200).
  - split; cbn [width height data length]; [lia | lia | reflexivity |].
    repeat constructor; unfold byte; lia.
  - lia.
  - intros p v H. pose proof (rd_Some _ _ _ H) as Hr. cbn [data length] in Hr.
    assert (p = 0 \/ p = 1) as [-> | ->] by lia; vm_compute in H; congruence.
Defined.

(* ===================================================================== *)
(** ** The key colour itself *)
(* ===================================================================== *)

Lemma num_sub_self_table :
  forallb (fun r => PrimFloat.Leibniz.eqb (Js.num r - Js.num r)%float 0%float)
    (seqZ 0 256) = true.
Proof. vm_compute. reflexivity. Qed.

Lemma num_sub_self r : byte r -> (Js.num r - Js.num r)%float = 0%float.
Proof.
  intros Hr. apply FloatAxioms.Leibniz.eqb_spec.
  apply (proj1 (forallb_forall _ _) num_sub_self_table r).
  apply list_elem_of_In, elem_of_seqZ. unfold byte in Hr. lia.
Qed.

(** A pixel whose colour is exactly the key colour is made transparent by
    pass 1, whatever the positive tolerance and whatever its alpha was. *)
Theorem chromaKey_key_colour bgColor tolerance d p a :
  byte (key_r bgColor) -> byte (key_g bgColor) -> byte (key_b bgColor) ->
  (0 <? tolerance)%float = true ->
  pixelAt d p = Some (key_r bgColor, key_g bgColor, key_b bgColor, a) -> byte a ->
  alphaAt (chromaKey bgColor tolerance d) p = Some 0.
Proof.
  intros Hr Hg Hb Htol Hp Ha.
  rewrite (pixelAt_alpha _ _ _ _ _ _ (chromaKey_pixel bgColor tolerance d p _ _ _ a Hp Ha)).
  unfold keyAlpha, distance.
  rewrite (num_sub_self _ Hr), (num_sub_self _ Hg), (num_sub_self _ Hb).
  change (PrimFloat.sqrt (0 * 0 + 0 * 0 + 0 * 0)%float) with 0%float.
  now rewrite Htol.
Qed.

Lemma chromaKey_key_colour_witness :
  alphaAt (chromaKey magenta 50 [255; 0; 255; 255]) 0 = Some 0.
Proof.
  apply (chromaKey_key_colour magenta 50 [255; 0; 255; 255] 0 255);
    (reflexivity || (unfold byte; cbn; lia)).
Defined.

(* ===================================================================== *)
(** ** The colour sampler *)
(* ===================================================================== *)

Section UniformSample.
Variable v : Z.

(** One iteration of the brightness loop on a pixel [(v, v, v, _)]. *)
Let step (total : float) : float :=
  (total + (Js.num v + Js.num v + Js.num v) / 3)%float.

Lemma rd_app_l (l1 l2 : list Z) i :
  0 <= i < Z.of_nat (length l1) -> rd (l1 ++ l2) i = rd l1 i.
Proof.
  intros Hi. unfold rd. case_decide; [|done]. apply lookup_app_l. lia.
Qed.

Lemma rd_app_r (l1 l2 : list Z) i :
  0 <= i -> rd (l1 ++ l2) (Z.of_nat (length l1) + i) = rd l2 i.
Proof.
  intros Hi. unfold rd. rewrite !decide_True by lia.
  rewrite lookup_app_r by lia. f_equal. lia.
Qed.

Lemma brightness_fold (alphas : list Z) : forall pre k total,
  Z.of_nat (length pre) = 4 * k ->
  fold_left
    (fun total i =>
       let d := pre ++ flat_map (fun a => [v; v; v; a]) alphas in
       let r := Js.numOpt (rd d i) in
       let g := Js.numOpt (rd d (i + 1)) in
       let b := Js.numOpt (rd d (i + 2)) in
       (total + (r + g + b) / 3)%float)
    ((fun j => 4 * j) <$> seqZ k (Z.of_nat (length alphas))) total
  = Nat.iter (length alphas) step total.
Proof.
  induction alphas as [|a alphas IH]; intros pre k total Hk; [reflexivity|].
  cbn [length]. rewrite Nat.iter_succ_r, Nat2Z.inj_succ, seqZ_cons by lia.
  cbn [fmap list_fmap fold_left flat_map]. cbv zeta.
  rewrite <- Hk.
  replace (Z.of_nat (length pre)) with (Z.of_nat (length pre) + 0) at 1 by lia.
  rewrite !rd_app_r by lia.
  change (rd ([v; v; v; a] ++ _) 0) with (Some v).
  change (rd ([v; v; v; a] ++ _) 1) with (Some v).
  change (rd ([v; v; v; a] ++ _) 2) with (Some v).
  cbn [Js.numOpt]. fold (step total).
  replace (Z.pred (Z.succ (Z.of_nat (length alphas)))) with (Z.of_nat (length alphas)) by lia.
  rewrite <- (IH (pre ++ [v; v; v; a]) (Z.succ k) (step total))
    by (rewrite length_app; cbn [length]; lia).
  rewrite <- !app_assoc. reflexivity.
Qed.

Lemma totalBrightness_uniform (alphas : list Z) :
  totalBrightness (flat_map (fun a => [v; v; v; a]) alphas)
  = Nat.iter (length alphas) step 0%float.
Proof.
  unfold totalBrightness, strideIndices.
  assert (Hlen : length (flat_map (fun a => [v; v; v; a]) alphas)
                 = (4 * length alphas)%nat).
  { induction alphas as [|a l IH]; [done|]. cbn [flat_map length app]. lia. }
  rewrite Hlen.
  replace ((Z.of_nat (4 * length alphas) + 3) / 4) with (Z.of_nat (length alphas))
    by (apply Z.div_unique with 3; lia).
  apply (brightness_fold alphas [] 0 0%float). reflexivity.
Qed.

Lemma gray_table :
  forallb (fun v =>
    PrimFloat.Leibniz.eqb
      (Nat.iter (Z.to_nat (sampleSize * sampleSize))
         (fun total => (total + (Js.num v + Js.num v + Js.num v) / 3)%float) 0%float
       / Js.num (sampleSize * sampleSize))%float
      (Js.num v)
    && Bool.eqb (128 <? Js.num v)%float (128 <? v)%Z)
    (seqZ 0 256) = true.
Proof. vm_compute. reflexivity. Qed.

Lemma avgBrightness_uniform (alphas : list Z) :
  byte v -> Z.of_nat (length alphas) = sampleSize * sampleSize ->
  avgBrightness (flat_map (fun a => [v; v; v; a]) alphas) = Js.num v /\
  (128 <? Js.num v)%float = (128 <? v)%Z.
Proof.
  intros Hv Hl. unfold avgBrightness. rewrite totalBrightness_uniform.
  replace (length alphas) with (Z.to_nat (sampleSize * sampleSize)) by lia.
  pose proof (proj1 (forallb_forall _ _) gray_table v) as T. cbv beta in T.
  rewrite andb_true_iff in T. destruct T as [T1 T2].
  { apply list_elem_of_In, elem_of_seqZ. unfold byte in Hv. lia. }
  split; [now apply FloatAxioms.Leibniz.eqb_spec | now apply Bool.eqb_prop].
Qed.
End UniformSample.

(** On a 100 by 100 sample whose pixels all have the gray level [v] (and
    any alphas) no rounding is lost in the summation: the average brightness
    is exactly [v], so the sampler answers magenta exactly when [v > 128];
    level 128 itself still gives green. *)
Theorem getContrastingColor_uniform_gray v alphas :
  byte v -> Z.of_nat (length alphas) = sampleSize * sampleSize ->
  getContrastingColor (Drawn (flat_map (fun a => [v; v; v; a]) alphas))
  = Resolved (if decide (128 < v) then "#FF00FF" else "#00FF00")%string.
Proof.
  intros Hv Hl. cbn [getContrastingColor].
  destruct (avgBrightness_uniform v alphas Hv Hl) as [-> ->].
  destruct (Z.ltb_spec 128 v); case_decide; (done || lia).
Qed.

Lemma getContrastingColor_uniform_gray_witness :
  getContrastingColor (Drawn (flat_map (fun a => [128; 128; 128; a]) (replicate (Z.to_nat 10000) 255)))
  = Resolved "#00FF00"%string.
Proof.
  apply (getContrastingColor_uniform_gray 128 (replicate (Z.to_nat 10000) 255)).
  - unfold byte. lia.
  - rewrite length_replicate. reflexivity.
Defined.

(* ===================================================================== *)
(** ** Well-formedness and alpha bounds through the passes *)
(* ===================================================================== *)

(** The alphas of an image are at most [B]. *)
Lemma alphaAt_pixel img p a :
  wfImage img -> alphaAt (data img) p = Some a ->
  exists r g b, pixelAt (data img) p = Some (r, g, b, a) /\ byte a.
Proof.
  intros Hwf Ha. pose proof (alphaAt_inside img p a Hwf Ha) as Hp.
  destruct (pixelAt_present (data img) p a ltac:(lia) Ha) as (r & g & b & Hpx).
  exists r, g, b. split; [done|]. destruct Hwf as [_ _ _ Hb].
  exact (rd_byte _ _ _ Hb Ha).
Qed.

Lemma keyPass_alpha_le bgColor tolerance img B :
  wfImage img ->
  (forall p a, alphaAt (data img) p = Some a -> a <= B) ->
  forall p a, alphaAt (data (keyPass bgColor tolerance img)) p = Some a -> a <= B.
Proof.
  intros Hwf HB p a Ha.
  pose proof (alphaAt_inside _ p a (keyPass_wf bgColor tolerance img Hwf) Ha) as Hp.
  cbn [keyPass width height] in Hp.
  destruct (rd_is_Some (data img) (p * 4 + 3)) as [a0 Ha0].
  { pose proof (wf_length img Hwf). unfold keyPass in Hp. cbn [width height] in Hp. lia. }
  fold (alphaAt (data img) p) in Ha0.
  destruct (alphaAt_pixel img p a0 Hwf Ha0) as (r & g & b & Hpx & Hb0).
  pose proof (pixelAt_alpha _ _ _ _ _ _
    (chromaKey_pixel bgColor tolerance (data img) p r g b a0 Hpx Hb0)) as Hk.
  cbn [keyPass data] in Ha. rewrite Hk in Ha. injection Ha as <-.
  pose proof (keyAlpha_le bgColor tolerance r g b a0 Hb0).
  specialize (HB p a0 Ha0). lia.
Qed.

Lemma erode_alpha_le img radius B :
  wfImage img ->
  (forall p a, alphaAt (data img) p = Some a -> a <= B) ->
  forall p a, alphaAt (data (erode img radius)) p = Some a -> a <= B.
Proof.
  intros Hwf HB p a Ha.
  pose proof (alphaAt_inside _ p a (erode_wf img radius Hwf) Ha) as Hp.
  cbn [erode width height] in Hp.
  destruct (rd_pixel img Hwf p 3 Hp ltac:(lia)) as (v & Hv & Hb & Hv').
  unfold alphaAt in Ha. rewrite (rd_erode img radius Hwf p 3 Hp ltac:(lia)) in Ha.
  injection Ha as <-. unfold erodeCell. rewrite decide_True by done.
  specialize (HB p v Hv). rewrite Hv'.
  destruct (hasTransparentNeighbor _ _ _ _); [unfold byte in Hb; lia | simpl; lia].
Qed.

Lemma dilate_alpha_le img radius B :
  wfImage img -> 0 <= radius ->
  (forall p a, alphaAt (data img) p = Some a -> a <= B) ->
  forall p a, alphaAt (data (dilate img radius)) p = Some a -> a <= B.
Proof.
  intros Hwf Hr HB p a Ha.
  pose proof (alphaAt_inside _ p a (dilate_wf img radius Hwf) Ha) as Hp.
  cbn [dilate width height] in Hp.
  unfold alphaAt in Ha. rewrite (rd_dilate img radius Hwf p 3 Hp ltac:(lia)) in Ha.
  injection Ha as <-. unfold dilateCell. rewrite decide_True by done.
  destruct (alphaAt_XY img p Hwf Hp) as [Hin _].
  destruct (maxAlpha_attained img radius Hwf Hr _ _ Hin)
    as (m & nx & ny & -> & _ & _ & _ & Hm).
  simpl. exact (HB (ny * width img + nx) m Hm).
Qed.

Lemma morphology_alpha_le img B :
  wfImage img ->
  (forall p a, alphaAt (data img) p = Some a -> a <= B) ->
  forall p a, alphaAt (data (morphology img)) p = Some a -> a <= B.
Proof.
  intros Hwf HB. unfold morphology.
  pose proof (erode_wf img 1 Hwf) as Hwf1.
  pose proof (erode_wf _ 1 Hwf1) as Hwf2.
  pose proof (dilate_wf _ 1 Hwf2) as Hwf3.
  apply dilate_alpha_le; [done | lia |].
  apply dilate_alpha_le; [done | lia |].
  apply erode_alpha_le; [done|].
  now apply erode_alpha_le.
Qed.

(* ===================================================================== *)
(** ** The whole pipeline *)
(* ===================================================================== *)

(** The region pass on a well-formed image: it returns a well-formed image
    of the same dimensions; each alpha is kept or cleared, and an opaque
    pixel is cleared exactly when its region is smaller than the threshold. *)
Lemma regionPass_regions minSize img :
  wfImage img ->
  exists out,
    regionPass minSize img = Some out /\ wfImage out /\
    width out = width img /\ height out = height img /\
    (forall j, j mod 4 <> 3 -> rd (data out) j = rd (data img) j) /\
    (forall p, alphaAt (data out) p = alphaAt (data img) p \/ alphaAt (data out) p = Some 0) /\
    (forall p, opaque (width img) (height img) (data img) p ->
       exists R, isRegion (width img) (height img) (data img) R /\ p ∈ R /\
         alphaAt (data out) p
         = if Z.of_nat (length R) <? minSize then Some 0 else alphaAt (data img) p).
Proof.
  intros Hwf. pose proof Hwf as [Hw Hh Hl Hb].
  destruct (regionPass_spec minSize img Hwf)
    as (out & Hrun & Ew & Eh & Hlen & Hcol & Hkeep & Hreg).
  destruct (regionFilterOrder_spec (width img) (height img) minSize (data img)
              Hw Hh Hl Hb (seqZ 0 (width img * height img)))
    as (d' & Hrun' & _ & _ & _ & _ & Hex & _).
  { intros i Hi. now apply elem_of_raster. }
  exists out. split; [done|].
  assert (Hout : out = mkImageData (width img) (height img) (data out)).
  { destruct out as [w' h' d'']. cbn [width height data] in *. now subst. }
  split; [|split; [done|]; split; [done|]; split; [done|]; split; [done|]].
  - rewrite Hout. apply wf_from_cells; [done | lia |].
    intros p c Hp Hc. destruct (rd_pixel img Hwf p c Hp Hc) as (v & Hv & Hbv & _).
    destruct (decide (c = 3)) as [->|Hc3].
    + destruct (Hkeep p) as [E|E]; unfold alphaAt in E; rewrite E.
      * eauto.
      * exists 0. split; [done | unfold byte; lia].
    + rewrite Hcol; [eauto|].
      rewrite Z.add_comm, Z.mod_add by lia. rewrite Z.mod_small by lia. lia.
  - intros p Hop. destruct (Hex p) as (R & HR & HpR); [|done|].
    { apply elem_of_raster. apply Hop. }
    exists R. split; [done|]. split; [done|]. now apply Hreg.
Qed.

(** [removeBackgroundColor] on an image the browser has drawn: the promise
    resolves, and with what. *)
Lemma removeBackgroundColor_drawn bgColor tolerance img :
  wfImage img ->
  exists out,
    removeBackgroundColor (Drawn img) bgColor tolerance = Some (Resolved out) /\
    regionPass minRegionSize (morphology (keyPass bgColor tolerance img)) = Some out.
Proof.
  intros Hwf.
  destruct (regionPass_regions minRegionSize (morphology (keyPass bgColor tolerance img)))
    as (out & Hrun & _); [now apply morphology_wf, keyPass_wf|].
  exists out. split; [|done].
  cbn [removeBackgroundColor]. unfold cutout. now rewrite Hrun.
Qed.

Lemma cutout_keyed_pixel bgColor tolerance img p r g b a :
  wfImage img ->
  pixelAt (data img) p = Some (r, g, b, a) ->
  (distance bgColor (Js.num r) (Js.num g) (Js.num b) <? tolerance)%float = true ->
  exists out,
    removeBackgroundColor (Drawn img) bgColor tolerance = Some (Resolved out) /\
    alphaAt (data out) p = Some 0.
Proof.
  intros Hwf Hpx Hd.
  destruct (removeBackgroundColor_drawn bgColor tolerance img Hwf) as (out & Hres & Hrun).
  exists out. split; [done|].
  pose proof (keyPass_wf bgColor tolerance img Hwf) as Hwf1.
  pose proof (morphology_wf _ Hwf1) as Hwf2.
  destruct (regionPass_regions minRegionSize _ Hwf2)
    as (out' & Hrun' & _ & _ & _ & _ & Hkeep & _).
  rewrite Hrun in Hrun'. injection Hrun' as <-.
  assert (Ha : byte a).
  { destruct Hwf as [_ _ _ Hb]. exact (rd_byte _ _ _ Hb (pixelAt_alpha _ _ _ _ _ _ Hpx)). }
  assert (H1 : alphaAt (data (keyPass bgColor tolerance img)) p = Some 0).
  { cbn [keyPass data].
    rewrite (pixelAt_alpha _ _ _ _ _ _ (chromaKey_pixel bgColor tolerance _ p r g b a Hpx Ha)).
    unfold keyAlpha. now rewrite Hd. }
  pose proof (morphology_transparent _ p Hwf1 H1) as H2.
  destruct (Hkeep p) as [E|E]; congruence.
Qed.

(** Every pixel whose colour lies within the tolerance of the key colour is
    fully transparent in the image [removeBackgroundColor] resolves with,
    whatever the rest of the image looks like. *)
Theorem removeBackgroundColor_clears_key bgColor tolerance img p r g b a :
  wfImage img ->
  pixelAt (data img) p = Some (r, g, b, a) ->
  (distance bgColor (Js.num r) (Js.num g) (Js.num b) <? tolerance)%float = true ->
  exists out,
    removeBackgroundColor (Drawn img) bgColor tolerance = Some (Resolved out) /\
    alphaAt (data out) p = Some 0.
Proof. exact (cutout_keyed_pixel bgColor tolerance img p r g b a). Qed.

Lemma removeBackgroundColor_clears_key_witness :
  exists out,
    removeBackgroundColor (Drawn (mkImageData 2 1 [0; 250; 0; 255; 255; 0; 0; 255])) green 50
    = Some (Resolved out) /\
    alphaAt (data out) 0 = Some 0.
Proof.
  apply (removeBackgroundColor_clears_key green 50
           (mkImageData 2 1 [0; 250; 0; 255; 255; 0; 0; 255]) 0 0 250 0 255).
  - apply wfImageb_wf. reflexivity.
  - reflexivity.
  - reflexivity.
Defined.

(** The pipeline never produces an alpha above the largest alpha of its
    input; in particular a fully transparent image stays fully transparent. *)
Theorem removeBackgroundColor_alpha_bound bgColor tolerance img B :
  wfImage img ->
  (forall p a, alphaAt (data img) p = Some a -> a <= B) ->
  exists out,
    removeBackgroundColor (Drawn img) bgColor tolerance = Some (Resolved out) /\
    forall p a, alphaAt (data out) p = Some a -> a <= B.
Proof.
  intros Hwf HB.
  destruct (removeBackgroundColor_drawn bgColor tolerance img Hwf) as (out & Hres & Hrun).
  exists out. split; [done|]. intros p a Ha.
  pose proof (keyPass_wf bgColor tolerance img Hwf) as Hwf1.
  pose proof (morphology_wf _ Hwf1) as Hwf2.
  destruct (regionPass_regions minRegionSize _ Hwf2)
    as (out' & Hrun' & Hwf3 & Ew & Eh & _ & Hkeep & _).
  rewrite Hrun in Hrun'. injection Hrun' as <-.
  pose proof (morphology_alpha_le _ B Hwf1 (keyPass_alpha_le bgColor tolerance img B Hwf HB))
    as HB2.
  destruct (Hkeep p) as [E|E].
  - apply (HB2 p a). congruence.
  - assert (a = 0) as -> by congruence.
    pose proof (alphaAt_inside out p 0 Hwf3 Ha) as Hp. rewrite Ew, Eh in Hp.
    destruct (rd_pixel _ Hwf2 p 3 Hp ltac:(lia)) as (v & Hv & Hbv & _).
    specialize (HB2 p v Hv). unfold byte in Hbv. lia.
Qed.

Lemma removeBackgroundColor_alpha_bound_witness :
  exists out,
    removeBackgroundColor (Drawn (mkImageData 2 1 [0; 250; 0; 0; 255; 0; 0; 0])) green 50
    = Some (Resolved out) /\
    forall p a, alphaAt (data out) p = Some a -> a <= 0.
Proof.
  apply (removeBackgroundColor_alpha_bound green 50
           (mkImageData 2 1 [0; 250; 0; 0; 255; 0; 0; 0]) 0).
  - apply wfImageb_wf. reflexivity.
  - intros p a H. pose proof (rd_Some _ _ _ H) as Hr. cbn [data length] in Hr.
    assert (p = 0 \/ p = 1) as [-> | ->] by lia; vm_compute in H; injection H as <-; lia.
Defined.

(** A region has at most as many pixels as the image. *)
Lemma isRegion_length_le w h d R :
  0 <= w * h -> isRegion w h d R -> Z.of_nat (length R) <= w * h.
Proof.
  intros Hwh (_ & Hnd & HR).
  assert (Hsub : R ⊆+ seqZ 0 (w * h)).
  { apply NoDup_submseteq; [done|]. intros p Hp. apply elem_of_raster. apply (HR p Hp). }
  apply submseteq_length in Hsub. rewrite length_seqZ in Hsub. lia.
Qed.

(** An image with fewer pixels than [minRegionSize] cannot hold a region
    that survives the region filter: whatever it shows, the image
    [removeBackgroundColor] resolves with is transparent everywhere. *)
Theorem removeBackgroundColor_small_image bgColor tolerance img :
  wfImage img -> width img * height img < minRegionSize ->
  exists out,
    removeBackgroundColor (Drawn img) bgColor tolerance = Some (Resolved out) /\
    forall p, 0 <= p < width img * height img -> alphaAt (data out) p = Some 0.
Proof.
  intros Hwf Hsmall.
  destruct (removeBackgroundColor_drawn bgColor tolerance img Hwf) as (out & Hres & Hrun).
  exists out. split; [done|]. intros p Hp.
  pose proof (keyPass_wf bgColor tolerance img Hwf) as Hwf1.
  pose proof (morphology_wf _ Hwf1) as Hwf2.
  set (m := morphology (keyPass bgColor tolerance img)) in *.
  destruct (regionPass_regions minRegionSize m Hwf2)
    as (out' & Hrun' & _ & _ & _ & _ & Hkeep & Hreg).
  rewrite Hrun in Hrun'. injection Hrun' as <-.
  change (width m) with (width img) in *. change (height m) with (height img) in *.
  destruct (rd_pixel m Hwf2 p 3 Hp ltac:(lia)) as (v & Hv & Hbv & _).
  fold (alphaAt (data m) p) in Hv.
  destruct (decide (0 < v)) as [Hpos|Hz].
  - destruct (Hreg p) as (R & HR & HpR & ->); [split; [done | eauto]|].
    pose proof (isRegion_length_le (width img) (height img) (data m) R ltac:(lia) HR).
    destruct (Z.ltb_spec (Z.of_nat (length R)) minRegionSize); [done | lia].
  - destruct (Hkeep p) as [E|E]; [|done]. rewrite E, Hv. unfold byte in Hbv.
    f_equal. lia.
Qed.

Lemma removeBackgroundColor_small_image_witness :
  exists out,
    removeBackgroundColor (Drawn blob) green 50 = Some (Resolved out) /\
    forall p, 0 <= p < width blob * height blob -> alphaAt (data out) p = Some 0.
Proof.
  apply (removeBackgroundColor_small_image green 50 blob).
  - apply wfImageb_wf. vm_compute. reflexivity.
  - reflexivity.
Defined.

(* ===================================================================== *)
(** ** The region filter applied twice *)
(* ===================================================================== *)

Section FilterTwice.
Variables (minSize : Z) (img out : ImageData).
Hypothesis img_wf : wfImage img.
Hypothesis run : regionPass minSize img = Some out.

Let w := width img.
Let h := height img.

Lemma filtered_facts :
  wfImage out /\ width out = w /\ height out = h /\
  (forall p, alphaAt (data out) p = alphaAt (data img) p \/ alphaAt (data out) p = Some 0) /\
  (forall p, opaque w h (data img) p -> exists R, isRegion w h (data img) R /\ p ∈ R) /\
  (forall p R, isRegion w h (data img) R -> p ∈ R ->
     alphaAt (data out) p
     = if Z.of_nat (length R) <? minSize then Some 0 else alphaAt (data img) p).
Proof.
  destruct (regionPass_regions minSize img img_wf)
    as (o & Ho & Hwf & Ew & Eh & _ & Hkeep & Hreg).
  destruct (regionPass_spec minSize img img_wf)
    as (o' & Ho' & _ & _ & _ & _ & _ & Hdec).
  rewrite run in Ho, Ho'. injection Ho as <-. injection Ho' as <-.
  split; [done|]. split; [done|]. split; [done|]. split; [done|]. split; [|done].
  intros p Hop. destruct (Hreg p Hop) as (R & HR & HpR & _). eauto.
Qed.

(** What survives the filter was opaque before, with the same alpha. *)
Lemma filtered_opaque p :
  opaque w h (data out) p ->
  opaque w h (data img) p /\ alphaAt (data out) p = alphaAt (data img) p.
Proof.
  destruct filtered_facts as (_ & _ & _ & Hkeep & _).
  intros (Hin & a & Ha & Hpos). destruct (Hkeep p) as [E|E].
  - split; [|done]. split; [done|]. exists a. split; [congruence | done].
  - rewrite Ha in E. injection E as ->. lia.
Qed.

(** A surviving pixel lies in a region of the input that survived whole. *)
Lemma filtered_region x :
  opaque w h (data out) x ->
  exists R, isRegion w h (data img) R /\ x ∈ R /\
            forall y, y ∈ R -> opaque w h (data out) y.
Proof.
  intros Hx. destruct filtered_facts as (_ & _ & _ & _ & Hex & Hdec).
  destruct (filtered_opaque x Hx) as [Hx0 Ex].
  destruct (Hex x Hx0) as (R & HR & HxR). exists R. split; [done|]. split; [done|].
  assert (Hbig : (Z.of_nat (length R) <? minSize) = false).
  { destruct (Z.of_nat (length R) <? minSize) eqn:E; [|done].
    pose proof (Hdec x R HR HxR) as Hd. rewrite E in Hd.
    destruct Hx as (_ & a & Ha & Hpos). rewrite Ha in Hd. injection Hd as ->. lia. }
  intros y Hy. pose proof (Hdec y R HR Hy) as Hd. rewrite Hbig in Hd.
  destruct HR as (_ & _ & HR). destruct (HR y Hy) as [(Hin & a & Ha & Hpos) _].
  split; [done|]. exists a. split; [congruence | done].
Qed.

(** Connectivity among the survivors is connectivity in the input. *)
Lemma filtered_connected x q :
  opaque w h (data out) x ->
  connected w h (data out) x q <-> connected w h (data img) x q.
Proof.
  intros Hx. split.
  - intros [_ Hr]. split; [apply (filtered_opaque x Hx)|].
    eapply rtc_subrel; [|exact Hr].
    intros a b (Ha & Hb & Hadj). split; [apply (filtered_opaque a Ha)|].
    split; [apply (filtered_opaque b Hb) | done].
  - intros [_ Hr]. split; [done|].
    destruct (filtered_region x Hx) as (R & HR & HxR & Hsurv).
    assert (Hboth : forall q, rtc (link w h (data img)) x q ->
                      rtc (link w h (data out)) x q /\ q ∈ R);
      [|now apply Hboth].
    apply (rtc_ind_r (fun q => rtc (link w h (data out)) x q /\ q ∈ R));
      [split; [done | done]|].
    intros y z Hxy Hyz [IH HyR].
    assert (HzR : z ∈ R).
    { destruct HR as (_ & _ & HR). destruct (HR y HyR) as [Hoy Hiff].
      apply Hiff. split; [done|]. now apply rtc_once. }
    split; [|done]. eapply rtc_r; [exact IH|].
    destruct Hyz as (_ & _ & Hadj).
    split; [now apply Hsurv|]. split; [now apply Hsurv | done].
Qed.
End FilterTwice.

(** The region filter is idempotent: filtering its own output again changes
    nothing, because every region that survived has at least the threshold
    size and is still a region of the output. *)
Theorem regionPass_idempotent minSize img out :
  wfImage img -> regionPass minSize img = Some out ->
  regionPass minSize out = Some out.
Proof.
  intros Hwf Hrun.
  destruct (filtered_facts minSize img out Hwf Hrun) as (Hwf1 & Ew & Eh & Hkeep & _ & Hdec).
  destruct (regionPass_regions minSize out Hwf1)
    as (out2 & Hrun2 & Hwf2 & Ew2 & Eh2 & Hcol2 & Hkeep2 & Hreg2).
  rewrite Hrun2. f_equal. apply image_ext; [done | done | done | done |].
  intros p c Hp Hc. destruct (decide (c = 3)) as [->|Hc3].
  2:{ apply Hcol2. rewrite Z.add_comm, Z.mod_add by lia. rewrite Z.mod_small by lia. lia. }
  change (alphaAt (data out2) p = alphaAt (data out) p).
  destruct (rd_pixel out Hwf1 p 3 Hp ltac:(lia)) as (v & Hv & Hbv & _).
  fold (alphaAt (data out) p) in Hv.
  destruct (decide (0 < v)) as [Hpos|Hz].
  - assert (Hop : opaque (width out) (height out) (data out) p) by (split; [done | eauto]).
    destruct (Hreg2 p Hop) as (R & HR & HpR & ->).
    assert (HR0 : isRegion (width img) (height img) (data img) R).
    { destruct HR as (Hne & Hnd & HR). split; [done|]. split; [done|].
      intros x Hx. destruct (HR x Hx) as [Hox Hiff]. rewrite Ew, Eh in Hox, Hiff.
      split; [apply (filtered_opaque minSize img out Hwf Hrun x Hox)|].
      intros q. rewrite Hiff.
      apply (filtered_connected minSize img out Hwf Hrun x q Hox). }
    pose proof (Hdec p R HR0 HpR) as Hd.
    destruct (Z.of_nat (length R) <? minSize); [|done].
    rewrite Hv in Hd. injection Hd as ->. lia.
  - destruct (Hkeep2 p) as [E|E]; [done|]. rewrite E, Hv. unfold byte in Hbv.
    f_equal. lia.
Qed.

Lemma regionPass_idempotent_witness :
  exists out, regionPass 4 specks = Some out /\ regionPass 4 out = Some out.
Proof.
  eexists. split; [vm_compute; reflexivity|].
  apply (regionPass_idempotent 4 specks).
  - apply wfImageb_wf. vm_compute. reflexivity.
  - vm_compute. reflexivity.
Defined.

(* ===================================================================== *)
(** ** An image that is all foreground *)
(* ===================================================================== *)

Section SolidGrid.
Variables (w h : Z) (d : list Z).
Hypotheses (w_pos : 0 < w) (h_pos : 0 < h).
Hypothesis all_opaque : forall p, inb w h p -> opaque w h d p.

Lemma adj4_left p : inb w h p -> 0 < p mod w -> adj4 w h (p - 1) p.
Proof.
  intros Hp Hx. unfold inb in Hp.
  pose proof (Z.div_mod p w ltac:(lia)) as Hd.
  pose proof (Z.mod_pos_bound p w w_pos) as Hm.
  pose proof (Z.div_pos p w ltac:(lia) w_pos) as Hdp.
  assert (Hq : (p - 1) / w = p / w)
    by (symmetry; apply (Z.div_unique _ _ _ (p mod w - 1)); lia).
  assert (Hr : (p - 1) mod w = p mod w - 1)
    by (symmetry; apply (Z.mod_unique _ _ (p / w)); lia).
  unfold adj4, inb. rewrite Hq, Hr. split; [lia|]. split; [lia|]. left. lia.
Qed.

Lemma adj4_up p : inb w h p -> w <= p -> adj4 w h (p - w) p.
Proof.
  intros Hp Hy. unfold inb in Hp.
  pose proof (Z.div_mod p w ltac:(lia)) as Hd.
  pose proof (Z.mod_pos_bound p w w_pos) as Hm.
  pose proof (Z.div_pos p w ltac:(lia) w_pos) as Hdp.
  assert (Hq : (p - w) / w = p / w - 1)
    by (symmetry; apply (Z.div_unique _ _ _ (p mod w)); lia).
  assert (Hr : (p - w) mod w = p mod w)
    by (symmetry; apply (Z.mod_unique _ _ (p / w - 1)); lia).
  unfold adj4, inb. rewrite Hq, Hr. split; [lia|]. split; [lia|]. right. lia.
Qed.

(** Every pixel is connected to pixel 0: walk left along the row, then up. *)
Lemma solid_grid_connected p : inb w h p -> connected w h d 0 p.
Proof.
  intros Hp. assert (H0 : 0 <= p) by (unfold inb in Hp; lia).
  revert p H0 Hp. apply (Zlt_0_ind (fun p => inb w h p -> connected w h d 0 p)).
  intros p IH Hp0 Hp.
  destruct (decide (p = 0)) as [->|Hne]; [now apply connected_refl, all_opaque|].
  pose proof (Z.div_mod p w ltac:(lia)) as Hd.
  pose proof (Z.mod_pos_bound p w w_pos) as Hm.
  destruct (decide (0 < p mod w)) as [Hx|Hx].
  - apply (connected_step w h d 0 (p - 1) p).
    + apply IH; [lia | unfold inb in *; lia].
    + pose proof (adj4_left p Hp Hx) as Ha.
      split; [apply all_opaque, Ha|]. split; [now apply all_opaque | done].
  - assert (Hy : w <= p).
    { assert (0 < p / w); [|nia].
      destruct (decide (0 < p / w)); [done|].
      assert (p / w = 0) by (pose proof (Z.div_pos p w ltac:(lia) w_pos); lia). lia. }
    apply (connected_step w h d 0 (p - w) p).
    + apply IH; [lia | unfold inb in *; lia].
    + pose proof (adj4_up p Hp Hy) as Ha.
      split; [apply all_opaque, Ha|]. split; [now apply all_opaque | done].
Qed.

(** All the pixels together are one region. *)
Lemma solid_grid_region : isRegion w h d (seqZ 0 (w * h)).
Proof.
  assert (H0 : inb w h 0) by (unfold inb; nia).
  apply (isRegion_of_connected w h d _ 0); [now apply all_opaque | apply NoDup_seqZ|].
  intros p. rewrite elem_of_raster. split; [apply solid_grid_connected|].
  intros Hc. apply (connected_opaque_r w h d 0 p Hc).
Qed.
End SolidGrid.

(** Pass 1 leaves an image alone when no pixel is within the feather band
    of the key colour. *)
Lemma keyPass_unkeyed bgColor tolerance img :
  wfImage img ->
  (forall p r g b a, pixelAt (data img) p = Some (r, g, b, a) ->
     (distance bgColor (Js.num r) (Js.num g) (Js.num b) <? tolerance)%float = false /\
     (distance bgColor (Js.num r) (Js.num g) (Js.num b) <? tolerance * 1.3)%float = false) ->
  keyPass bgColor tolerance img = img.
Proof.
  intros Hwf Hfar. apply image_ext; [done | now apply keyPass_wf | done | done |].
  intros p c Hp Hc. cbn [keyPass data].
  destruct (decide (c = 3)) as [->|Hc3]; [|apply rd_chromaKey_color; lia].
  destruct (rd_pixel img Hwf p 3 Hp ltac:(lia)) as (a & Ha & Hba & _).
  destruct (pixelAt_present (data img) p a ltac:(lia) Ha) as (r & g & b & Hpx).
  change (alphaAt (chromaKey bgColor tolerance (data img)) p = alphaAt (data img) p).
  rewrite (pixelAt_alpha _ _ _ _ _ _ (chromaKey_pixel bgColor tolerance _ p r g b a Hpx Hba)).
  unfold keyAlpha. destruct (Hfar p r g b a Hpx) as [-> ->]. done.
Qed.

(** The region pass leaves an image alone when all its pixels are opaque
    and there are at least [minSize] of them. *)
Lemma regionPass_solid minSize img :
  wfImage img -> minSize <= width img * height img ->
  (forall p a, alphaAt (data img) p = Some a -> 0 < a) ->
  regionPass minSize img = Some img.
Proof.
  intros Hwf Hbig Hsolid. pose proof Hwf as [Hw Hh _ _].
  destruct (regionPass_regions minSize img Hwf)
    as (out & Hrun & Hwf' & Ew & Eh & Hcol & _ & _).
  destruct (regionPass_spec minSize img Hwf) as (out' & Hrun' & _ & _ & _ & _ & _ & Hdec).
  rewrite Hrun in Hrun'. injection Hrun' as <-.
  rewrite Hrun. f_equal. apply image_ext; [done | done | done | done |].
  intros p c Hp Hc. destruct (decide (c = 3)) as [->|Hc3].
  2:{ apply Hcol. rewrite Z.add_comm, Z.mod_add by lia. rewrite Z.mod_small by lia. lia. }
  change (alphaAt (data out) p = alphaAt (data img) p).
  assert (Hall : forall q, inb (width img) (height img) q ->
                   opaque (width img) (height img) (data img) q).
  { intros q Hq. split; [done|].
    destruct (rd_pixel img Hwf q 3 Hq ltac:(lia)) as (a & Ha & _ & _).
    exists a. split; [done|]. now apply (Hsolid q). }
  rewrite (Hdec p (seqZ 0 (width img * height img))
             (solid_grid_region _ _ _ Hw Hh Hall) ltac:(now apply elem_of_raster)).
  rewrite length_seqZ.
  destruct (Z.ltb_spec (Z.of_nat (Z.to_nat (width img * height img))) minSize); [lia | done].
Qed.

(** An image that is all foreground passes through unchanged: if every
    pixel has the same positive alpha and lies outside the feather band of
    the key colour, and the image has at least [minRegionSize] pixels, then
    [removeBackgroundColor] resolves with the image it was given. *)
Theorem removeBackgroundColor_foreground_only bgColor tolerance img a :
  wfImage img -> minRegionSize <= width img * height img -> 0 < a ->
  (forall p r g b a', pixelAt (data img) p = Some (r, g, b, a') ->
     a' = a /\
     (distance bgColor (Js.num r) (Js.num g) (Js.num b) <? tolerance)%float = false /\
     (distance bgColor (Js.num r) (Js.num g) (Js.num b) <? tolerance * 1.3)%float = false) ->
  removeBackgroundColor (Drawn img) bgColor tolerance = Some (Resolved img).
Proof.
  intros Hwf Hbig Ha Hfg.
  assert (Halpha : forall p v, alphaAt (data img) p = Some v -> v = a).
  { intros p v Hv. destruct (alphaAt_pixel img p v Hwf Hv) as (r & g & b & Hpx & _).
    apply (Hfg p r g b v Hpx). }
  cbn [removeBackgroundColor]. unfold cutout.
  rewrite keyPass_unkeyed; [|done|intros p r g b a' Hpx; apply (Hfg p r g b a' Hpx)].
  assert (Hm : morphology img = img).
  { assert (He : erode img 1 = img).
    { apply erode_solid; [done|].
      intros p Hp. specialize (Halpha p 0 Hp). lia. }
    assert (Hd : dilate img 1 = img)
      by (apply (dilate_uniform img 1 a); [done | lia | done]).
    unfold morphology. now rewrite He, He, Hd, Hd. }
  rewrite Hm, regionPass_solid; [done | done | done|].
  intros p v Hv. rewrite (Halpha p v Hv). done.
Qed.

Lemma removeBackgroundColor_foreground_only_witness :
  removeBackgroundColor (Drawn (paint 10 5 (fun _ => true) [255; 0; 0; 255] [])) green 50
  = Some (Resolved (paint 10 5 (fun _ => true) [255; 0; 0; 255] [])).
Proof.
  apply (removeBackgroundColor_foreground_only green 50 _ 255).
  - apply wfImageb_wf. vm_compute. reflexivity.
  - vm_compute. discriminate.
  - lia.
  - intros p r g b a' H.
    assert (Hp : 0 <= p < 50).
    { apply pixelAt_alpha, rd_Some in H. cbn [paint data] in H.
      assert (length (concat ((fun _ : Z => [255; 0; 0; 255]) <$> seqZ 0 (10 * 5))) = 200%nat)
        as Hl by (vm_compute; reflexivity).
      rewrite Hl in H. lia. }
    assert (Hall : forallb (fun p =>
              bool_decide (pixelAt (data (paint 10 5 (fun _ => true) [255; 0; 0; 255] [])) p
                           = Some (255, 0, 0, 255))) (seqZ 0 50) = true)
      by (vm_compute; reflexivity).
    pose proof (proj1 (forallb_forall _ _) Hall p
                  ltac:(apply list_elem_of_In, elem_of_seqZ; lia)) as Hpx.
    apply bool_decide_eq_true in Hpx. rewrite Hpx in H. injection H as <- <- <- <-.
    split; [done|]. split; vm_compute; reflexivity.
Defined.

(* ===================================================================== *)
(** ** segmentImage *)
(* ===================================================================== *)

(** The key colour that [segmentImage] removes is the one its sampler
    chose and its prompt names.  When the key is stored, the sampler
    resolves with a colour string that parses to [key], the model answers
    the request built from that colour with parts of which some carries
    image data, and the browser draws the first such image, then
    [segmentImage] resolves with the encoding of what
    [removeBackgroundColor] makes of that image with this [key] and
    tolerance 50; every pixel within distance 50 of [key] is fully
    transparent in it. *)
Theorem segmentImage_clears_key world base64Image instruction
    apiKey backgroundColor key parts url img :
  truthy (getItem world "gemini_api_key") = Some apiKey ->
  getContrastingColor (drawSample world base64Image) = Resolved backgroundColor ->
  parseColor backgroundColor = Some key ->
  generateContent world
    (editRequest apiKey
       (default "gemini-3-pro-image-preview"%string
          (truthy (getItem world "gemini_editing_model")))
       (cleanBase64 base64Image) (editPrompt instruction backgroundColor))
  = Resolved (Some parts) ->
  findImage parts = Some url ->
  drawImage world url = Drawn img -> wfImage img ->
  exists out,
    removeBackgroundColor (Drawn img) key 50 = Some (Resolved out) /\
    segmentImage world base64Image instruction = Some (Resolved (toDataURL world out)) /\
    forall p r g b a,
      pixelAt (data img) p = Some (r, g, b, a) ->
      (distance key (Js.num r) (Js.num g) (Js.num b) <? 50)%float = true ->
      alphaAt (data out) p = Some 0.
Proof.
  intros Hkey Hcol Hparse Hgen Hfind Hdraw Hwf. unfold segmentImage.
  rewrite Hkey, Hcol. cbv zeta. rewrite Hgen.
  change (default [] (Some parts)) with parts.
  rewrite Hfind, Hparse, Hdraw.
  destruct (removeBackgroundColor_drawn key 50 img Hwf) as (out & Hres & _).
  exists out. rewrite Hres. split; [done|]. split; [done|].
  intros p r g b a Hpx Hd.
  destruct (cutout_keyed_pixel key 50 img p r g b a Hwf Hpx Hd) as (out' & Hres' & H0).
  rewrite Hres in Hres'. injection Hres' as <-. done.
Qed.

Lemma segmentImage_clears_key_witness :
  exists out,
    removeBackgroundColor (Drawn exampleImage) magenta 50 = Some (Resolved out) /\
    segmentImage exampleWorld "data:image/png;base64,AAAA" "the cat"
    = Some (Resolved (toDataURL exampleWorld out)) /\
    forall p r g b a,
      pixelAt (data exampleImage) p = Some (r, g, b, a) ->
      (distance magenta (Js.num r) (Js.num g) (Js.num b) <? 50)%float = true ->
      alphaAt (data out) p = Some 0.
Proof.
  apply (segmentImage_clears_key exampleWorld "data:image/png;base64,AAAA" "the cat"
           "key" "#FF00FF" magenta
           [mkPart None None (Some "Here is the image."%string);
            mkPart (Some (mkInline (Some "image/png"%string)
                                   (Some "iVBORw0KGgo="%string))) None None]
           "data:image/png;base64,iVBORw0KGgo=" exampleImage).
  - reflexivity.
  - cbn [exampleWorld drawSample getContrastingColor].
    destruct (avgBrightness_uniform 200
                (replicate (Z.to_nat (sampleSize * sampleSize)) 255)) as [-> ->];
      [unfold byte; lia | rewrite length_replicate; reflexivity | reflexivity].
  - reflexivity.
  - reflexivity.
  - reflexivity.
  - reflexivity.
  - apply wfImageb_wf. vm_compute. reflexivity.
Defined.
(* ===================================================================== *)
(** ** Rounding to nearest in binary64 *)
(* ===================================================================== *)

(** The colour sampler adds 10000 quotients and divides the total; what it
    answers depends on how far the rounded total can be from the exact one.
    This part derives the half-unit bound of round-to-nearest-even for
    addition and division of positive normal numbers from their
    specification in [SpecFloat]. *)

Section Rounding.
Import SpecFloat.

Lemma digits2_bounds p :
  2 ^ (Zpos (digits2_pos p) - 1) <= Zpos p < 2 ^ Zpos (digits2_pos p).
Proof.
  induction p as [p IH|p IH|]; cbn [digits2_pos].
  - rewrite Pos2Z.inj_succ, (Pos2Z.inj_xI p).
    replace (Z.succ (Zpos (digits2_pos p)) - 1) with (Z.succ (Zpos (digits2_pos p) - 1)) by lia.
    rewrite !Z.pow_succ_r by lia. lia.
  - rewrite Pos2Z.inj_succ, (Pos2Z.inj_xO p).
    replace (Z.succ (Zpos (digits2_pos p)) - 1) with (Z.succ (Zpos (digits2_pos p) - 1)) by lia.
    rewrite !Z.pow_succ_r by lia. lia.
  - change (2 ^ (1 - 1)) with 1. change (2 ^ 1) with 2. lia.
Qed.

Lemma digits2_unique p k :
  2 ^ (k - 1) <= Zpos p < 2 ^ k -> Zpos (digits2_pos p) = k.
Proof.
  intros [Hl Hu]. pose proof (digits2_bounds p) as [Hl' Hu'].
  destruct (Z.lt_trichotomy (Zpos (digits2_pos p)) k) as [H|[H|H]]; [|exact H|].
  - assert (2 ^ Zpos (digits2_pos p) <= 2 ^ (k - 1)) by (apply Z.pow_le_mono_r; lia). lia.
  - assert (0 < k).
    { destruct (Z.le_gt_cases k 0) as [Hk|Hk]; [|exact Hk].
      destruct (Z.eq_dec k 0) as [->|]; [simpl in Hu; lia|].
      rewrite (Z.pow_neg_r 2 k) in Hu by lia. lia. }
    assert (2 ^ k <= 2 ^ (Zpos (digits2_pos p) - 1)) by (apply Z.pow_le_mono_r; lia). lia.
Qed.

Lemma shr_1_spec m r s :
  0 <= m ->
  exists q b, shr_1 (Build_shr_record m r s) = Build_shr_record q b (r || s) /\
              m = 2 * q + (if b then 1 else 0) /\ 0 <= q.
Proof.
  intros Hm. destruct m as [|[p|p|]|p]; cbn [shr_1]; try lia.
  - exists 0, false. repeat split; lia.
  - exists (Zpos p), true. repeat split; lia.
  - exists (Zpos p), false. repeat split; lia.
  - exists 0, true. repeat split; lia.
Qed.

Lemma located_half N W q (b r s : bool) :
  0 < W -> 0 <= q ->
  located N W (2 * q + (if b then 1 else 0)) r s ->
  located N (2 * W) q b (r || s).
Proof.
  unfold located. intros HW Hq [Hb Hl].
  destruct b, r, s; cbn [orb] in *; nia.
Qed.

Lemma iter_shr_located n : forall N W m r s,
  0 < W -> 0 <= m -> located N W m r s ->
  exists m' r' s',
    iter_pos shr_1 n (Build_shr_record m r s) = Build_shr_record m' r' s' /\
    located N (W * 2 ^ Zpos n) m' r' s' /\ 0 <= m' /\ m' = m / 2 ^ Zpos n.
Proof.
  assert (Hstep : forall N W m r s,
    0 < W -> 0 <= m -> located N W m r s ->
    exists m' r' s',
      shr_1 (Build_shr_record m r s) = Build_shr_record m' r' s' /\
      located N (W * 2) m' r' s' /\ 0 <= m' /\ m' = m / 2).
  { intros N W m r s HW Hm Hl.
    destruct (shr_1_spec m r s Hm) as (q & b & -> & Hmq & Hq).
    exists q, b, (r || s). split; [reflexivity|]. split.
    - rewrite Z.mul_comm. apply located_half; [lia..|]. now rewrite <- Hmq.
    - split; [exact Hq|]. destruct b; apply Z.div_unique with (m - 2 * q); lia. }
  induction n as [n IH|n IH|]; intros N W m r s HW Hm Hl; cbn [iter_pos].
  - destruct (Hstep N W m r s HW Hm Hl) as (m1 & r1 & s1 & -> & Hl1 & Hm1 & E1).
    destruct (IH N (W * 2) m1 r1 s1 ltac:(lia) Hm1 Hl1) as (m2 & r2 & s2 & -> & Hl2 & Hm2 & E2).
    assert (Hp : 0 < 2 ^ Zpos n) by (apply Z.pow_pos_nonneg; lia).
    destruct (IH N (W * 2 * 2 ^ Zpos n) m2 r2 s2 ltac:(lia) Hm2 Hl2)
      as (m3 & r3 & s3 & -> & Hl3 & Hm3 & E3).
    exists m3, r3, s3. split; [reflexivity|].
    assert (Hpow : 2 ^ Zpos n~1 = 2 * 2 ^ Zpos n * 2 ^ Zpos n).
    { rewrite (Pos2Z.inj_xI n).
      replace (2 * Zpos n + 1) with (Zpos n + Zpos n + 1) by lia.
      rewrite !Z.pow_add_r by lia. change (2 ^ 1) with 2. lia. }
    rewrite Hpow. split; [|split; [exact Hm3|]].
    + replace (W * (2 * 2 ^ Zpos n * 2 ^ Zpos n)) with (W * 2 * 2 ^ Zpos n * 2 ^ Zpos n) by lia.
      exact Hl3.
    + rewrite E3, E2, E1, !Z.div_div by lia. f_equal. lia.
  - destruct (IH N W m r s HW Hm Hl) as (m2 & r2 & s2 & -> & Hl2 & Hm2 & E2).
    assert (Hp : 0 < 2 ^ Zpos n) by (apply Z.pow_pos_nonneg; lia).
    destruct (IH N (W * 2 ^ Zpos n) m2 r2 s2 ltac:(lia) Hm2 Hl2)
      as (m3 & r3 & s3 & -> & Hl3 & Hm3 & E3).
    exists m3, r3, s3. split; [reflexivity|].
    assert (Hpow : 2 ^ Zpos n~0 = 2 ^ Zpos n * 2 ^ Zpos n).
    { rewrite (Pos2Z.inj_xO n). replace (2 * Zpos n) with (Zpos n + Zpos n) by lia.
      now rewrite Z.pow_add_r by lia. }
    rewrite Hpow. split; [|split; [exact Hm3|]].
    + replace (W * (2 ^ Zpos n * 2 ^ Zpos n)) with (W * 2 ^ Zpos n * 2 ^ Zpos n) by lia.
      exact Hl3.
    + rewrite E3, E2, !Z.div_div by lia. reflexivity.
  - destruct (Hstep N W m r s HW Hm Hl) as (m1 & r1 & s1 & -> & Hl1 & Hm1 & E1).
    exists m1, r1, s1. change (2 ^ 1) with 2. done.
Qed.


Lemma fexp_normal e : -1021 <= e -> fexp prec emax e = e - 53.
Proof. unfold fexp, emin, prec, emax. lia. Qed.

Lemma record_of_loc m l :
  exists r s, shr_record_of_loc m l = Build_shr_record m r s.
Proof. destruct l as [|[]]; cbn; eauto. Qed.

(** The second half of [binary_round_aux]: rounding to nearest even of a
    53-bit mantissa with its location, then the renormalisation. *)
Lemma round_finish N W m1 r1 s1 e1 :
  0 < W -> located N W m1 r1 s1 -> 2 ^ 52 <= m1 < 2 ^ 53 -> -1074 <= e1 <= 970 ->
  exists m e,
    (let '(mrs, e2) :=
       shr_fexp prec emax
         (round_nearest_even m1 (loc_of_shr_record (Build_shr_record m1 r1 s1))) e1 loc_Exact in
     match shr_m mrs with
     | Z0 => S754_zero false
     | Zpos m => if e2 <=? emax - prec then S754_finite false m e2 else S754_infinity false
     | Zneg _ => S754_nan
     end) = S754_finite false m e /\
    2 ^ 52 <= Zpos m < 2 ^ 53 /\ e1 <= e <= e1 + 1 /\
    (2 * Zpos m - 1) * (W * 2 ^ (e - e1)) <= 2 * N <= (2 * Zpos m + 1) * (W * 2 ^ (e - e1)).
Proof.
  intros HW Hl Hm He.
  set (m2 := round_nearest_even m1 (loc_of_shr_record (Build_shr_record m1 r1 s1))).
  assert (H2 : (m2 = m1 \/ m2 = m1 + 1) /\
               (2 * m2 - 1) * W <= 2 * N <= (2 * m2 + 1) * W).
  { subst m2. unfold located in Hl. destruct Hl as [Hb Hl].
    destruct r1, s1; cbn [loc_of_shr_record round_nearest_even];
      try destruct (Z.even m1); nia. }
  destruct H2 as [Hm2 Hr]. clearbody m2.
  change (2 ^ 52) with 4503599627370496 in *.
  change (2 ^ 53) with 9007199254740992 in *.
  destruct (Z.eq_dec m2 9007199254740992) as [->|Hne].
  - exists 4503599627370496%positive, (e1 + 1).
    unfold shr_fexp. change (Zdigits2 9007199254740992) with 54. rewrite fexp_normal by lia.
    replace (54 + e1 - 53 - e1) with 1 by lia.
    cbn [shr shr_record_of_loc iter_pos shr_1 shr_m].
    replace (e1 + 1 <=? emax - prec) with true
      by (symmetry; apply Z.leb_le; unfold emax, prec; lia).
    split; [reflexivity|]. split; [lia|]. split; [lia|].
    replace (e1 + 1 - e1) with 1 by lia. change (2 ^ 1) with 2. lia.
  - destruct m2 as [|p|p]; try lia.
    assert (Hd : Zpos (digits2_pos p) = 53).
    { apply digits2_unique. change (2 ^ (53 - 1)) with 4503599627370496.
      change (2 ^ 53) with 9007199254740992. lia. }
    exists p, e1.
    unfold shr_fexp. cbn [Zdigits2]. rewrite Hd, fexp_normal by lia.
    replace (53 + e1 - 53 - e1) with 0 by lia.
    cbn [shr shr_record_of_loc shr_m].
    replace (e1 <=? emax - prec) with true
      by (symmetry; apply Z.leb_le; unfold emax, prec; lia).
    split; [reflexivity|]. split; [lia|]. split; [lia|].
    rewrite Z.sub_diag. change (2 ^ 0) with 1. lia.
Qed.

(** [binary_round_aux] on a positive mantissa of at least 53 bits whose
    exact value [N / W] it locates: the result is a normal number within half
    a unit in the last place of [N / W]. *)
Lemma round_aux_spec N W mx lx ex :
  0 < W ->
  located N W (Zpos mx) (shr_r (shr_record_of_loc (Zpos mx) lx))
    (shr_s (shr_record_of_loc (Zpos mx) lx)) ->
  53 <= Zpos (digits2_pos mx) ->
  -1021 <= Zpos (digits2_pos mx) + ex <= 1000 ->
  exists m e,
    binary_round_aux prec emax false (Zpos mx) ex lx = S754_finite false m e /\
    2 ^ 52 <= Zpos m < 2 ^ 53 /\ ex <= e /\
    (2 * Zpos m - 1) * (W * 2 ^ (e - ex)) <= 2 * N <= (2 * Zpos m + 1) * (W * 2 ^ (e - ex)).
Proof.
  intros HW Hl HD He.
  pose proof (digits2_bounds mx) as Hdig.
  set (D := Zpos (digits2_pos mx)) in *.
  destruct (record_of_loc (Zpos mx) lx) as (r & s & Hrec).
  rewrite Hrec in Hl. cbn [shr_r shr_s] in Hl.
  assert (Hfirst : exists m1 r1 s1,
    shr_fexp prec emax (Zpos mx) ex lx = (Build_shr_record m1 r1 s1, D + ex - 53) /\
    located N (W * 2 ^ (D - 53)) m1 r1 s1 /\ 2 ^ 52 <= m1 < 2 ^ 53).
  { unfold shr_fexp. cbn [Zdigits2]. fold D. rewrite fexp_normal, Hrec by lia.
    destruct (D + ex - 53 - ex) as [|n|n] eqn:En; try lia.
    - exists (Zpos mx), r, s. cbn [shr]. split; [f_equal; lia|].
      replace (D - 53) with 0 by lia. change (2 ^ 0) with 1. rewrite Z.mul_1_r.
      split; [exact Hl|]. replace D with 53 in Hdig by lia. exact Hdig.
    - destruct (iter_shr_located n N W (Zpos mx) r s HW ltac:(lia) Hl)
        as (m1 & r1 & s1 & E & Hl1 & Hm1 & Ediv).
      exists m1, r1, s1. cbn [shr]. rewrite E.
      replace (ex + Zpos n) with (D + ex - 53) by lia.
      replace (D - 53) with (Zpos n) by lia.
      split; [reflexivity|]. split; [exact Hl1|].
      assert (Hp : 0 < 2 ^ Zpos n) by (apply Z.pow_pos_nonneg; lia).
      assert (E52 : 2 ^ (D - 1) = 2 ^ Zpos n * 2 ^ 52).
      { rewrite <- Z.pow_add_r by lia. f_equal. lia. }
      assert (E53 : 2 ^ D = 2 ^ Zpos n * 2 ^ 53).
      { rewrite <- Z.pow_add_r by lia. f_equal. lia. }
      rewrite Ediv. split.
      + apply Z.div_le_lower_bound; [exact Hp|]. lia.
      + apply Z.div_lt_upper_bound; [exact Hp|]. lia. }
  destruct Hfirst as (m1 & r1 & s1 & E1 & Hl1 & Hm1).
  assert (Hp : 0 < 2 ^ (D - 53)) by (apply Z.pow_pos_nonneg; lia).
  destruct (round_finish N (W * 2 ^ (D - 53)) m1 r1 s1 (D + ex - 53)
              ltac:(lia) Hl1 Hm1 ltac:(lia)) as (m & e & E & Hm & He' & Hb).
  exists m, e. unfold binary_round_aux. rewrite E1. cbn [shr_m].
  split; [exact E|]. split; [exact Hm|]. split; [lia|].
  replace (W * 2 ^ (e - ex)) with (W * 2 ^ (D - 53) * 2 ^ (e - (D + ex - 53))); [exact Hb|].
  rewrite <- Z.mul_assoc, <- Z.pow_add_r by lia. do 2 f_equal. lia.
Qed.


Lemma pos_iter_xO d : forall m, Zpos (Pos.iter xO m d) = Zpos m * 2 ^ Zpos d.
Proof.
  induction d as [|d IH] using Pos.peano_ind; intros m.
  - cbn [Pos.iter]. change (2 ^ 1) with 2. lia.
  - rewrite Pos.iter_succ, Pos2Z.inj_xO, IH, Pos2Z.inj_succ, Z.pow_succ_r by lia. lia.
Qed.

Lemma shl_align_fst mx ex ez :
  ez <= ex -> Zpos (fst (shl_align mx ex ez)) = Zpos mx * 2 ^ (ex - ez).
Proof.
  intros H. unfold shl_align. destruct (ez - ex) as [|d|d] eqn:E; try lia; cbn [fst].
  - replace (ex - ez) with 0 by lia. change (2 ^ 0) with 1. lia.
  - rewrite pos_iter_xO. f_equal. f_equal. lia.
Qed.

Lemma pow2_lt_inv a b : 0 <= b -> 2 ^ a < 2 ^ b -> a < b.
Proof.
  intros Hb H. destruct (Z.lt_ge_cases a b) as [|Hge]; [done|].
  assert (2 ^ b <= 2 ^ a) by (apply Z.pow_le_mono_r; lia). lia.
Qed.

Lemma pow2_pos a : 0 <= a -> 0 < 2 ^ a.
Proof. intros. apply Z.pow_pos_nonneg; lia. Qed.

(** Addition of two positive normal numbers: the result is within half a
    unit in the last place of the exact sum [M * 2 ^ ez]. *)
Lemma SFadd_pos mx ex my ey :
  Zpos (digits2_pos mx) = 53 -> Zpos (digits2_pos my) = 53 ->
  -900 <= ex <= 900 -> -900 <= ey <= 900 ->
  exists m e,
    SFadd prec emax (S754_finite false mx ex) (S754_finite false my ey)
    = S754_finite false m e /\
    2 ^ 52 <= Zpos m < 2 ^ 53 /\ Z.min ex ey <= e /\
    (2 * Zpos m - 1) * 2 ^ (e - Z.min ex ey)
    <= 2 * (Zpos mx * 2 ^ (ex - Z.min ex ey) + Zpos my * 2 ^ (ey - Z.min ex ey))
    <= (2 * Zpos m + 1) * 2 ^ (e - Z.min ex ey).
Proof.
  intros Hdx Hdy Hex Hey.
  set (ez := Z.min ex ey).
  pose proof (digits2_bounds mx) as Hbx. pose proof (digits2_bounds my) as Hby.
  rewrite Hdx in Hbx. rewrite Hdy in Hby.
  change (2 ^ (53 - 1)) with (2 ^ 52) in *.
  unfold SFadd. cbn [cond_Zopp]. fold ez.
  pose proof (shl_align_fst mx ex ez ltac:(lia)) as Ex.
  pose proof (shl_align_fst my ey ez ltac:(lia)) as Ey.
  set (a := fst (shl_align mx ex ez)) in *. set (b := fst (shl_align my ey ez)) in *.
  change (Zpos a + Zpos b) with (Zpos (a + b)). cbn [binary_normalize].
  assert (Hsum : Zpos (a + b) = Zpos mx * 2 ^ (ex - ez) + Zpos my * 2 ^ (ey - ez))
    by (rewrite Pos2Z.inj_add; lia).
  pose proof (pow2_pos (ex - ez) ltac:(lia)) as Hpx.
  pose proof (pow2_pos (ey - ez) ltac:(lia)) as Hpy.
  pose proof (digits2_bounds (a + b)) as Hd.
  set (D := Zpos (digits2_pos (a + b))) in *.
  assert (HD : 53 <= D).
  { assert (2 ^ 52 < 2 ^ D); [|apply pow2_lt_inv in H; lia].
    assert (2 ^ 52 <= Zpos mx * 2 ^ (ex - ez)) by nia. nia. }
  assert (HD' : D <= 1000 - ez).
  { assert (2 ^ (D - 1) < 2 ^ (54 + Z.max ex ey - ez)); [|apply pow2_lt_inv in H; lia].
    assert (2 ^ (ex - ez) <= 2 ^ (Z.max ex ey - ez)) by (apply Z.pow_le_mono_r; lia).
    assert (2 ^ (ey - ez) <= 2 ^ (Z.max ex ey - ez)) by (apply Z.pow_le_mono_r; lia).
    replace (54 + Z.max ex ey - ez) with (54 + (Z.max ex ey - ez)) by lia.
    rewrite Z.pow_add_r by lia. change (2 ^ 54) with (2 * 2 ^ 53). nia. }
  unfold binary_round. fold D.
  rewrite fexp_normal by lia.
  assert (Hal : shl_align (a + b) ez (D + ez - 53) = ((a + b)%positive, ez)).
  { unfold shl_align. destruct (D + ez - 53 - ez) eqn:E; try reflexivity; lia. }
  rewrite Hal.
  destruct (round_aux_spec (Zpos (a + b)) 1 (a + b) loc_Exact ez ltac:(lia))
    as (m & e & E & Hm & He & Hb).
  - cbn [shr_record_of_loc shr_r shr_s]. unfold located. lia.
  - exact HD.
  - fold D. lia.
  - exists m, e. split; [exact E|]. split; [exact Hm|]. split; [exact He|].
    rewrite <- Hsum. rewrite !Z.mul_1_l in Hb. exact Hb.
Qed.

(** Division of two positive normal numbers. *)
Lemma SFdiv_pos mx ex my ey :
  Zpos (digits2_pos mx) = 53 -> Zpos (digits2_pos my) = 53 ->
  -400 <= ex <= 400 -> -400 <= ey <= 400 ->
  exists m e,
    SFdiv prec emax (S754_finite false mx ex) (S754_finite false my ey)
    = S754_finite false m e /\
    2 ^ 52 <= Zpos m < 2 ^ 53 /\ ex - ey - 53 <= e /\
    (2 * Zpos m - 1) * (Zpos my * 2 ^ (e - (ex - ey - 53)))
    <= 2 * (Zpos mx * 2 ^ 53)
    <= (2 * Zpos m + 1) * (Zpos my * 2 ^ (e - (ex - ey - 53))).
Proof.
  intros Hdx Hdy Hex Hey.
  pose proof (digits2_bounds mx) as Hbx. pose proof (digits2_bounds my) as Hby.
  rewrite Hdx in Hbx. rewrite Hdy in Hby.
  change (2 ^ (53 - 1)) with (2 ^ 52) in *.
  unfold SFdiv, SFdiv_core_binary. cbn [Zdigits2 xorb]. rewrite Hdx, Hdy.
  rewrite fexp_normal by lia.
  replace (Z.min (53 + ex - (53 + ey) - 53) (ex - ey)) with (ex - ey - 53) by lia.
  replace (ex - ey - (ex - ey - 53)) with 53 by lia.
  rewrite Z.shiftl_mul_pow2 by lia.
  pose proof (Z_div_mod (Zpos mx * 2 ^ 53) (Zpos my) ltac:(lia)) as Hqr.
  destruct (Z.div_eucl (Zpos mx * 2 ^ 53) (Zpos my)) as [q r].
  destruct Hqr as [Hq Hr].
  change (2 ^ 52) with 4503599627370496 in *.
  change (2 ^ 53) with 9007199254740992 in *.
  assert (Hq52 : 4503599627370496 <= q < 4 * 4503599627370496) by nia.
  destruct q as [|q|q]; try lia.
  pose proof (digits2_bounds q) as Hdq.
  assert (HD : 53 <= Zpos (digits2_pos q) <= 54).
  { split.
    - assert (2 ^ 52 < 2 ^ Zpos (digits2_pos q)); [|apply pow2_lt_inv in H; lia].
      change (2 ^ 52) with 4503599627370496. lia.
    - assert (2 ^ (Zpos (digits2_pos q) - 1) < 2 ^ 54); [|apply pow2_lt_inv in H; lia].
      change (2 ^ 54) with (4 * 4503599627370496). lia. }
  destruct (round_aux_spec (Zpos mx * 9007199254740992) (Zpos my) q
              (new_location (Zpos my) r) (ex - ey - 53) ltac:(lia))
    as (m & e & E & Hm & He & Hb).
  - unfold located, new_location, new_location_even, new_location_odd.
    destruct (Z.even (Zpos my)) eqn:Ev.
    + destruct (Z.eqb_spec r 0) as [->|Hr0]; cbn [shr_record_of_loc shr_r shr_s]; [lia|].
      destruct (Z.compare_spec (2 * r) (Zpos my)); cbn [shr_record_of_loc shr_r shr_s]; lia.
    + assert (Hodd : exists k, Zpos my = 2 * k + 1).
      { apply Z.odd_spec. rewrite <- Z.negb_even, Ev. reflexivity. }
      destruct Hodd as [k Hk].
      destruct (Z.eqb_spec r 0) as [->|Hr0]; cbn [shr_record_of_loc shr_r shr_s]; [lia|].
      destruct (Z.compare_spec (2 * r + 1) (Zpos my)); cbn [shr_record_of_loc shr_r shr_s]; lia.
  - lia.
  - lia.
  - exists m, e. split; [exact E|]. split; [exact Hm|]. split; [exact He|]. exact Hb.
Qed.

(** The order of two positive normal numbers is the order of their values. *)
Lemma SFltb_pos K m1 e1 m2 e2 :
  2 ^ 52 <= Zpos m1 < 2 ^ 53 -> 2 ^ 52 <= Zpos m2 < 2 ^ 53 ->
  0 <= e1 + K -> 0 <= e2 + K ->
  SFltb (S754_finite false m1 e1) (S754_finite false m2 e2) = true
  <-> Zpos m1 * 2 ^ (e1 + K) < Zpos m2 * 2 ^ (e2 + K).
Proof.
  intros H1 H2 HK1 HK2. unfold SFltb, SFcompare.
  change (2 ^ 52) with 4503599627370496 in *.
  change (2 ^ 53) with 9007199254740992 in *.
  pose proof (pow2_pos (e1 + K) HK1) as Hp1. pose proof (pow2_pos (e2 + K) HK2) as Hp2.
  destruct (Z.compare_spec e1 e2) as [->|Hlt|Hgt].
  - change (Pos.compare_cont Eq m1 m2) with (Pos.compare m1 m2).
    destruct (Pos.compare_spec m1 m2) as [->|Hm|Hm]; split; try done; try nia.
  - split; [intros _|done].
    assert (2 * 2 ^ (e1 + K) <= 2 ^ (e2 + K)).
    { rewrite <- Z.pow_succ_r by lia. apply Z.pow_le_mono_r; lia. }
    nia.
  - split; [done|intros H; exfalso].
    assert (2 * 2 ^ (e2 + K) <= 2 ^ (e1 + K)).
    { rewrite <- Z.pow_succ_r by lia. apply Z.pow_le_mono_r; lia. }
    nia.
Qed.

End Rounding.

(* ===================================================================== *)
(** ** The brightness loop of the colour sampler *)
(* ===================================================================== *)

Section Brightness.
Import SpecFloat.

Lemma sum2_table :
  forallb (fun r => forallb (fun g =>
    PrimFloat.Leibniz.eqb (Js.num r + Js.num g)%float (Js.num (r + g)))
    (seqZ 0 256)) (seqZ 0 256) = true.
Proof. vm_compute. reflexivity. Qed.

Lemma sum3_table :
  forallb (fun s => forallb (fun b =>
    PrimFloat.Leibniz.eqb (Js.num s + Js.num b)%float (Js.num (s + b)))
    (seqZ 0 256)) (seqZ 0 511) = true.
Proof. vm_compute. reflexivity. Qed.

Lemma third_table :
  forallb (fun s =>
    match sval (Js.num s / 3)%float with
    | Some t => (3 * t - s * 2 ^ 54 <=? 1024) && (s * 2 ^ 54 - 3 * t <=? 1024) && (0 <=? t)
    | None => false
    end) (seqZ 0 766) = true.
Proof. vm_compute. reflexivity. Qed.

Lemma num_sum r g b :
  byte r -> byte g -> byte b ->
  (Js.num r + Js.num g + Js.num b)%float = Js.num (r + g + b).
Proof.
  unfold byte. intros Hr Hg Hb.
  assert (Hin : forall n x, 0 <= x < n -> In x (seqZ 0 n))
    by (intros; apply list_elem_of_In, elem_of_seqZ; lia).
  pose proof (proj1 (forallb_forall _ _) sum2_table r (Hin 256 r ltac:(lia))) as T2.
  pose proof (proj1 (forallb_forall _ _) sum3_table (r + g) (Hin 511 (r + g) ltac:(lia))) as T3.
  cbv beta in T2, T3.
  pose proof (proj1 (forallb_forall _ _) T2 g (Hin 256 g ltac:(lia))) as T2'.
  pose proof (proj1 (forallb_forall _ _) T3 b (Hin 256 b ltac:(lia))) as T3'.
  cbv beta in T2', T3'. clear T2 T3. rename T2' into T2, T3' into T3.
  apply FloatAxioms.Leibniz.eqb_spec in T2, T3. now rewrite T2, T3.
Qed.

Lemma third_sval s :
  0 <= s <= 765 ->
  exists t, sval (Js.num s / 3)%float = Some t /\
            - 1024 <= 3 * t - s * 2 ^ 54 <= 1024 /\ 0 <= t.
Proof.
  intros Hs.
  pose proof (proj1 (forallb_forall _ _) third_table s
                ltac:(apply list_elem_of_In, elem_of_seqZ; lia)) as T. cbv beta in T.
  destruct (sval (Js.num s / 3)%float) as [t|]; [|discriminate].
  exists t. rewrite !andb_true_iff, !Z.leb_le in T. split; [reflexivity | lia].
Qed.


Lemma sval_finite x m e :
  Prim2SF x = S754_finite false m e -> -54 <= e ->
  Zpos (digits2_pos m) = 53 /\ 2 ^ 52 <= Zpos m < 2 ^ 53.
Proof.
  intros E He. pose proof (FloatAxioms.Prim2SF_valid x) as V. rewrite E in V.
  cbn [valid_binary] in V. unfold bounded, canonical_mantissa in V.
  apply andb_true_iff in V as [V1 V2]. apply Z.eqb_eq in V1.
  unfold fexp, emin, prec, emax in V1.
  assert (Hd : Zpos (digits2_pos m) = 53) by lia.
  split; [exact Hd|]. pose proof (digits2_bounds m) as Hb. rewrite Hd in Hb. exact Hb.
Qed.

Lemma sval_exponent m e B :
  2 ^ 52 <= Zpos m -> 0 <= B -> 0 <= e + 54 -> Zpos m * 2 ^ (e + 54) < 2 ^ (52 + B) -> e + 54 < B.
Proof.
  intros Hm HB He H. apply pow2_lt_inv; [exact HB|].
  rewrite (Z.pow_add_r 2 52 B) in H by lia.
  pose proof (pow2_pos (e + 54) He). pose proof (pow2_pos B HB).
  change (2 ^ 52) with 4503599627370496 in *. nia.
Qed.

(** Adding two non-negative numbers loses at most one part in [2 ^ 53]. *)
Lemma add_sval x y vx vy :
  sval x = Some vx -> sval y = Some vy -> vx + vy < 2 ^ 100 ->
  exists v, sval (x + y) = Some v /\ 0 <= v /\
            2 ^ 53 * (v - (vx + vy)) <= v /\ 2 ^ 53 * (vx + vy - v) <= v.
Proof.
  unfold sval. rewrite FloatAxioms.add_spec. unfold SF64add.
  destruct (Prim2SF x) as [sx|sx| |sx mx ex] eqn:Ex; try discriminate;
    destruct sx; try discriminate;
    (destruct (Prim2SF y) as [sy|sy| |sy my ey] eqn:Ey; try discriminate;
     destruct sy; try discriminate); cbn [SFadd].
  - intros [= <-] [= <-] _. exists 0. repeat split; lia.
  - destruct (Z.leb_spec (-54) ey) as [Hey|]; [|discriminate].
    intros [= <-] [= <-] _. exists (Zpos my * 2 ^ (ey + 54)).
    pose proof (pow2_pos (ey + 54) ltac:(lia)).
    repeat split; nia.
  - destruct (Z.leb_spec (-54) ex) as [Hex|]; [|discriminate].
    intros [= <-] [= <-] _. exists (Zpos mx * 2 ^ (ex + 54)).
    pose proof (pow2_pos (ex + 54) ltac:(lia)).
    repeat split; nia.
  - destruct (Z.leb_spec (-54) ex) as [Hex|]; [|discriminate].
    destruct (Z.leb_spec (-54) ey) as [Hey|]; [|discriminate].
    intros [= <-] [= <-] Hlt.
    destruct (sval_finite x mx ex Ex Hex) as [Hdx Hmx].
    destruct (sval_finite y my ey Ey Hey) as [Hdy Hmy].
    pose proof (pow2_pos (ex + 54) ltac:(lia)) as Hpx.
    pose proof (pow2_pos (ey + 54) ltac:(lia)) as Hpy.
    assert (Hex' : ex + 54 < 48).
    { apply (sval_exponent mx ex 48); [lia..|]. change (2 ^ (52 + 48)) with (2 ^ 100). nia. }
    assert (Hey' : ey + 54 < 48).
    { apply (sval_exponent my ey 48); [lia..|]. change (2 ^ (52 + 48)) with (2 ^ 100). nia. }
    destruct (SFadd_pos mx ex my ey Hdx Hdy ltac:(lia) ltac:(lia))
      as (m & e & E & Hm & He & Hb).
    cbn [SFadd] in E. rewrite E.
    set (ez := Z.min ex ey) in *.
    rewrite (proj2 (Z.leb_le _ _) (ltac:(lia) : -54 <= e)).
    exists (Zpos m * 2 ^ (e + 54)).
    set (U := 2 ^ (ez + 54)).
    assert (HU : 0 < U) by (apply pow2_pos; lia).
    assert (Ehx : 2 ^ (ex + 54) = 2 ^ (ex - ez) * U)
      by (unfold U; rewrite <- Z.pow_add_r by lia; f_equal; lia).
    assert (Ehy : 2 ^ (ey + 54) = 2 ^ (ey - ez) * U)
      by (unfold U; rewrite <- Z.pow_add_r by lia; f_equal; lia).
    assert (Eh : 2 ^ (e + 54) = 2 ^ (e - ez) * U)
      by (unfold U; rewrite <- Z.pow_add_r by lia; f_equal; lia).
    pose proof (pow2_pos (e - ez) ltac:(lia)) as HP.
    rewrite Ehx, Ehy, Eh.
    set (P := 2 ^ (e - ez)) in *. set (Px := 2 ^ (ex - ez)) in *. set (Py := 2 ^ (ey - ez)) in *.
    change (2 ^ 52) with 4503599627370496 in *. change (2 ^ 53) with 9007199254740992 in *.
    destruct Hb as [Hb1 Hb2].
    apply (Z.mul_le_mono_nonneg_r _ _ U) in Hb1; [|lia].
    apply (Z.mul_le_mono_nonneg_r _ _ U) in Hb2; [|lia].
    assert (Hh : 4503599627370496 * (P * U) <= Zpos m * (P * U))
      by (apply Z.mul_le_mono_nonneg_r; lia).
    split; [reflexivity|]. split; [lia|]. split; lia.
Qed.


Lemma SF_num_10000 : Prim2SF (Js.num 10000) = S754_finite false 5497558138880000 (-39).
Proof. vm_compute. reflexivity. Qed.

Lemma SF_128 : Prim2SF 128 = S754_finite false 4503599627370496 (-45).
Proof. vm_compute. reflexivity. Qed.

(** The quotient [x / 10000] against 128, for a total [x] that is not
    within [2 ^ -4] of 1280000. *)
Lemma average_order x vx :
  sval x = Some vx -> vx < 2 ^ 100 ->
  (1280000 * 2 ^ 54 + 2 ^ 50 <= vx -> (128 <? x / Js.num 10000)%float = true) /\
  (vx <= 1280000 * 2 ^ 54 - 2 ^ 50 -> (128 <? x / Js.num 10000)%float = false).
Proof.
  unfold sval.
  rewrite FloatAxioms.ltb_spec, FloatAxioms.div_spec, SF_num_10000, SF_128. unfold SF64div.
  destruct (Prim2SF x) as [sx|sx| |sx mx ex] eqn:Ex; try discriminate;
    destruct sx; try discriminate.
  { intros [= <-] _. split; [intros H; exfalso; revert H; vm_compute; congruence|].
    intros _. reflexivity. }
  destruct (Z.leb_spec (-54) ex) as [Hex|]; [|discriminate].
  intros [= <-] Hhi.
  destruct (sval_finite x mx ex Ex Hex) as [Hdx Hmx].
  pose proof (pow2_pos (ex + 54) ltac:(lia)) as Hpx.
  assert (Hex' : ex + 54 < 48).
  { apply (sval_exponent mx ex 48); [lia..|]. exact Hhi. }
  destruct (SFdiv_pos mx ex 5497558138880000 (-39) Hdx eq_refl ltac:(lia) ltac:(lia))
    as (m & e & E & Hm & He & Hb).
  rewrite E. replace (ex - -39 - 53) with (ex - 14) in * by lia.
  pose proof (SFltb_pos 68 4503599627370496 (-45) m e) as Hcmp.
  specialize (Hcmp ltac:(vm_compute; split; congruence) Hm ltac:(lia) ltac:(lia)).
  set (U := 2 ^ (ex + 54)) in *.
  assert (Eh : 2 ^ (e + 68) = 2 ^ (e - (ex - 14)) * U)
    by (unfold U; rewrite <- Z.pow_add_r by lia; f_equal; lia).
  pose proof (pow2_pos (e - (ex - 14)) ltac:(lia)) as HP.
  rewrite Eh in Hcmp. set (P := 2 ^ (e - (ex - 14))) in *.
  change (2 ^ (-45 + 68)) with 8388608 in Hcmp.
  change (2 ^ 52) with 4503599627370496 in *. change (2 ^ 53) with 9007199254740992 in *.
  change (2 ^ 54) with 18014398509481984. change (2 ^ 50) with 1125899906842624.
  destruct Hb as [Hb1 Hb2].
  apply (Z.mul_le_mono_nonneg_r _ _ U) in Hb1; [|lia].
  apply (Z.mul_le_mono_nonneg_r _ _ U) in Hb2; [|lia].
  assert (Hh1 : 4503599627370496 * (P * U) <= Zpos m * (P * U))
    by (apply Z.mul_le_mono_nonneg_r; lia).
  set (h := P * U) in *. set (R := Zpos m * h) in *.
  set (v := Zpos mx * U) in *.
  assert (Hb1' : (2 * R - h) * 5497558138880000 <= 2 * 9007199254740992 * v)
    by (unfold R, h, v; lia).
  assert (Hb2' : 2 * 9007199254740992 * v <= (2 * R + h) * 5497558138880000)
    by (unfold R, h, v; lia).
  clearbody R h v. destruct Hcmp as [Hc1 Hc2]. split; intros Hv.
  - apply Hc2. lia.
  - destruct (SFltb _ _); [|reflexivity].
    specialize (Hc1 eq_refl). lia.
Qed.


Lemma channelSum_cons r g b a rest :
  channelSum (r :: g :: b :: a :: rest) = r + g + b + channelSum rest.
Proof. reflexivity. Qed.

(** The brightness loop against the exact channel sum: after [k] pixels
    the running total, in units of [2 ^ -54], is within [k * 2 ^ 26] of a
    third of the sum [A] of the channels read so far. *)
Lemma total_fold (n : nat) : forall pre rest k T V A,
  Z.of_nat (length pre) = 4 * k -> length rest = (4 * n)%nat -> Forall byte rest ->
  0 <= k -> k + Z.of_nat n <= 10000 ->
  sval T = Some V -> 0 <= A <= 765 * k ->
  - (k * 2 ^ 26) <= 3 * V - A * 2 ^ 54 <= k * 2 ^ 26 ->
  exists V',
    sval (fold_left
            (fun total i =>
               let d := pre ++ rest in
               let r := Js.numOpt (rd d i) in
               let g := Js.numOpt (rd d (i + 1)) in
               let b := Js.numOpt (rd d (i + 2)) in
               (total + (r + g + b) / 3)%float)
            ((fun j => 4 * j) <$> seqZ k (Z.of_nat n)) T) = Some V' /\
    0 <= A + channelSum rest <= 765 * (k + Z.of_nat n) /\
    - ((k + Z.of_nat n) * 2 ^ 26) <= 3 * V' - (A + channelSum rest) * 2 ^ 54
      <= (k + Z.of_nat n) * 2 ^ 26.
Proof.
  induction n as [|n IH]; intros pre rest k T V A Hpre Hlen Hbytes Hk Hkn HT HA HV.
  - destruct rest; [|cbn [length] in Hlen; lia]. cbn [fold_left fmap list_fmap seqZ channelSum].
    exists V. split; [exact HT|]. change (Z.of_nat 0) with 0. lia.
  - destruct rest as [|r [|g [|b [|a rest]]]]; cbn [length] in Hlen; try lia.
    apply Forall_cons in Hbytes as [Hr Hbytes]. apply Forall_cons in Hbytes as [Hg Hbytes].
    apply Forall_cons in Hbytes as [Hb Hbytes]. apply Forall_cons in Hbytes as [Ha Hbytes].
    rewrite Nat2Z.inj_succ, seqZ_cons by lia.
    cbn [fmap list_fmap fold_left]. cbv zeta.
    assert (Hrd : forall j, 0 <= j ->
              rd (pre ++ r :: g :: b :: a :: rest) (4 * k + j) = rd (r :: g :: b :: a :: rest) j)
      by (intros j Hj; rewrite <- Hpre; now apply rd_app_r).
    pose proof (Hrd 0 ltac:(lia)) as Hrd0. rewrite Z.add_0_r in Hrd0.
    rewrite Hrd0, (Hrd 1), (Hrd 2) by lia.
    change (rd (r :: g :: b :: a :: rest) 0) with (Some r).
    change (rd (r :: g :: b :: a :: rest) 1) with (Some g).
    change (rd (r :: g :: b :: a :: rest) 2) with (Some b).
    cbn [Js.numOpt]. rewrite (num_sum r g b Hr Hg Hb).
    unfold byte in Hr, Hg, Hb.
    destruct (third_sval (r + g + b) ltac:(lia)) as (t & Ht & Hterm & Ht0).
    change (2 ^ 54) with 18014398509481984 in *. change (2 ^ 26) with 67108864 in *.
    destruct (add_sval T (Js.num (r + g + b) / 3)%float V t HT Ht) as (V1 & HT1 & HV1 & Hup & Hdn).
    { change (2 ^ 100) with 1267650600228229401496703205376. lia. }
    change (2 ^ 53) with 9007199254740992 in *.
    replace (Z.pred (Z.succ (Z.of_nat n))) with (Z.of_nat n) by lia.
    destruct (IH (pre ++ [r; g; b; a]) rest (Z.succ k)
                (T + Js.num (r + g + b) / 3)%float V1 (A + (r + g + b)))
      as (V' & HV' & HA' & Hfin).
    + rewrite length_app. cbn [length]. lia.
    + lia.
    + exact Hbytes.
    + lia.
    + lia.
    + exact HT1.
    + lia.
    + change (2 ^ 54) with 18014398509481984 in *. change (2 ^ 26) with 67108864 in *. lia.
    + exists V'. rewrite channelSum_cons.
      rewrite <- !app_assoc in HV'. cbn [app] in HV'.
      split; [exact HV'|].
      change (2 ^ 54) with 18014398509481984 in *. change (2 ^ 26) with 67108864 in *.
      lia.
Qed.

(** Away from a mean of exactly 128 the exact channel sum decides the answer. *)
Lemma brightness_decides d :
  Z.of_nat (length d) = 4 * (sampleSize * sampleSize) -> Forall byte d ->
  (3 * 128 * (sampleSize * sampleSize) < channelSum d ->
   getContrastingColor (Drawn d) = Resolved "#FF00FF"%string) /\
  (channelSum d < 3 * 128 * (sampleSize * sampleSize) ->
   getContrastingColor (Drawn d) = Resolved "#00FF00"%string).
Proof.
  change (sampleSize * sampleSize) with 10000.
  intros Hlen Hbytes.
  destruct (total_fold (Z.to_nat 10000) [] d 0 0%float 0 0) as (V & HV & HA & Herr);
    [reflexivity | lia | exact Hbytes | lia | lia | reflexivity | lia | lia |].
  rewrite Z2Nat.id in * by lia.
  cbn [app] in HV. cbn [getContrastingColor]. unfold avgBrightness, totalBrightness, strideIndices.
  rewrite Hlen.
  change ((4 * 10000 + 3) / 4) with 10000.
  change (Js.num (sampleSize * sampleSize)) with (Js.num 10000).
  set (total := fold_left _ _ _) in *.
  change (2 ^ 54) with 18014398509481984 in *. change (2 ^ 26) with 67108864 in *.
  destruct (average_order total V HV) as [Hup Hdn].
  { change (2 ^ 100) with 1267650600228229401496703205376. lia. }
  change (2 ^ 54) with 18014398509481984 in *. change (2 ^ 50) with 1125899906842624 in *.
  split; intros H.
  - rewrite Hup by lia. reflexivity.
  - rewrite Hdn by lia. reflexivity.
Qed.

End Brightness.

Lemma pixels_fold (n : nat) : forall pre rest k total,
  Z.of_nat (length pre) = 4 * k -> length rest = (4 * n)%nat ->
  fold_left
    (fun total i =>
       let d := pre ++ rest in
       let r := Js.numOpt (rd d i) in
       let g := Js.numOpt (rd d (i + 1)) in
       let b := Js.numOpt (rd d (i + 2)) in
       (total + (r + g + b) / 3)%float)
    ((fun j => 4 * j) <$> seqZ k (Z.of_nat n)) total
  = sumPixels rest total.
Proof.
  induction n as [|n IH]; intros pre rest k total Hpre Hlen.
  - destruct rest; [reflexivity | cbn [length] in Hlen; lia].
  - destruct rest as [|r [|g [|b [|a rest]]]]; cbn [length] in Hlen; try lia.
    rewrite Nat2Z.inj_succ, seqZ_cons by lia.
    cbn [fmap list_fmap fold_left sumPixels]. cbv zeta.
    assert (Hrd : forall j, 0 <= j ->
              rd (pre ++ r :: g :: b :: a :: rest) (4 * k + j) = rd (r :: g :: b :: a :: rest) j)
      by (intros j Hj; rewrite <- Hpre; now apply rd_app_r).
    pose proof (Hrd 0 ltac:(lia)) as Hrd0. rewrite Z.add_0_r in Hrd0.
    rewrite Hrd0, (Hrd 1), (Hrd 2) by lia.
    change (rd (r :: g :: b :: a :: rest) 0) with (Some r).
    change (rd (r :: g :: b :: a :: rest) 1) with (Some g).
    change (rd (r :: g :: b :: a :: rest) 2) with (Some b).
    cbn [Js.numOpt].
    replace (Z.pred (Z.succ (Z.of_nat n))) with (Z.of_nat n) by lia.
    rewrite <- (IH (pre ++ [r; g; b; a]) rest (Z.succ k)); [|rewrite length_app; cbn [length]; lia|lia].
    rewrite <- !app_assoc. reflexivity.
Qed.

Lemma totalBrightness_pixels d (n : Z) :
  0 <= n -> Z.of_nat (length d) = 4 * n -> totalBrightness d = sumPixels d 0.
Proof.
  intros Hn Hlen. unfold totalBrightness, strideIndices. rewrite Hlen.
  replace ((4 * n + 3) / 4) with (Z.of_nat (Z.to_nat n))
    by (rewrite Z2Nat.id by lia; apply Z.div_unique with 3; lia).
  apply (pixels_fold (Z.to_nat n) [] d 0 0%float); [reflexivity | lia].
Qed.

Lemma tieSample_length : Z.of_nat (length tieSample) = 4 * (sampleSize * sampleSize).
Proof. vm_compute. reflexivity. Qed.

Lemma tieSample_bytes : Forall byte tieSample.
Proof.
  apply Forall_app. split; apply Forall_concat, Forall_replicate;
    repeat constructor; unfold byte; lia.
Qed.

Lemma tieSample_sum : channelSum tieSample = 3 * 128 * (sampleSize * sampleSize).
Proof. vm_compute. reflexivity. Qed.

Lemma tieSample_answer :
  getContrastingColor (Drawn tieSample) = Resolved "#FF00FF"%string.
Proof.
  cbn [getContrastingColor]. unfold avgBrightness.
  rewrite (totalBrightness_pixels tieSample 10000 ltac:(lia) tieSample_length).
  replace (128 <? sumPixels tieSample 0 / Js.num (sampleSize * sampleSize))%float with true
    by (vm_compute; reflexivity).
  reflexivity.
Qed.

Lemma graySample_facts :
  channelSum graySample = 3 * 128 * (sampleSize * sampleSize) /\
  getContrastingColor (Drawn graySample) = Resolved "#00FF00"%string.
Proof.
  split; [vm_compute; reflexivity|].
  cbn [getContrastingColor]. unfold avgBrightness.
  rewrite (totalBrightness_pixels graySample 10000 ltac:(lia) ltac:(vm_compute; reflexivity)).
  replace (128 <? sumPixels graySample 0 / Js.num (sampleSize * sampleSize))%float with false
    by (vm_compute; reflexivity).
  reflexivity.
Qed.

(** C9 (as stated, refuted): the answer is not a function of whether the
    mean brightness exceeds 128.  On [tieSample] the mean of [(r + g + b) / 3]
    is exactly 128, which does not exceed 128, and the answer is magenta:
    the quotients [385 / 3] and [383 / 3] are rounded, and the rounded
    total is above 1280000. *)
Lemma exact_mean_128_answered_magenta :
  ~ (forall d, Z.of_nat (length d) = 4 * (sampleSize * sampleSize) -> Forall byte d ->
       getContrastingColor (Drawn d)
       = Resolved (if decide (3 * 128 * (sampleSize * sampleSize) < channelSum d)
                   then "#FF00FF" else "#00FF00")%string).
Proof.
  intros H. specialize (H tieSample tieSample_length tieSample_bytes).
  rewrite tieSample_answer, tieSample_sum in H.
  rewrite decide_False in H by lia. discriminate H.
Qed.

(** C9 (amended): for each outcome of loading and drawing the image the
    sampler resolves with ['#00FF00'] or ['#FF00FF'] and never rejects; when
    the image fails to load or the canvas gives no context the colour is
    green.  On a drawn 100 by 100 sample the colour is magenta whenever the
    exact mean of [(r + g + b) / 3] over the 10000 pixels exceeds 128 (the
    channel sum exceeds 3 * 128 * 10000) and green whenever it is below 128:
    the rounding errors of the 10000 additions and divisions are too small
    to move the computed average across 128.  At a mean of exactly 128 the
    answer depends on the rounding: [graySample] gives green and
    [tieSample] gives magenta. *)
Theorem getContrastingColor_by_channel_sum :
  (forall ev, exists c,
     getContrastingColor ev = Resolved c /\
     (c = "#00FF00"%string \/ c = "#FF00FF"%string)) /\
  getContrastingColor LoadError = Resolved "#00FF00"%string /\
  getContrastingColor NoContext = Resolved "#00FF00"%string /\
  (forall d,
     Z.of_nat (length d) = 4 * (sampleSize * sampleSize) -> Forall byte d ->
     (3 * 128 * (sampleSize * sampleSize) < channelSum d ->
      getContrastingColor (Drawn d) = Resolved "#FF00FF"%string) /\
     (channelSum d < 3 * 128 * (sampleSize * sampleSize) ->
      getContrastingColor (Drawn d) = Resolved "#00FF00"%string)) /\
  (channelSum graySample = 3 * 128 * (sampleSize * sampleSize) /\
   getContrastingColor (Drawn graySample) = Resolved "#00FF00"%string) /\
  (channelSum tieSample = 3 * 128 * (sampleSize * sampleSize) /\
   getContrastingColor (Drawn tieSample) = Resolved "#FF00FF"%string).
Proof.
  split; [|split; [reflexivity|split; [reflexivity|split; [|split]]]].
  - intros [| |d]; cbn [getContrastingColor]; [eauto | eauto |].
    destruct (128 <? avgBrightness d)%float; eauto.
  - exact brightness_decides.
  - exact graySample_facts.
  - split; [exact tieSample_sum | exact tieSample_answer].
Qed.

Lemma getContrastingColor_by_channel_sum_witness :
  getContrastingColor (Drawn brightSample) = Resolved "#FF00FF"%string.
Proof.
  destruct getContrastingColor_by_channel_sum as (_ & _ & _ & H & _).
  apply (H brightSample).
  - vm_compute. reflexivity.
  - apply Forall_concat, Forall_replicate. repeat constructor; unfold byte; lia.
  - vm_compute. reflexivity.
Defined.
